(** * vegaDataframe: a shallow embedding of the in-memory table engine

    The table of [vegaDataframe.h] is a record of five vectors.  Every
    member function of the C++ class that the properties below talk
    about is translated into a Rocq function over that record:

    - a [void] mutator becomes a function returning the new table;
    - [throw std::runtime_error(msg)] becomes the outcome [Throw msg];
    - an unchecked [operator[]] past the end of a vector, which C++
      leaves undefined, becomes the outcome [Undef];
    - [double] is the kernel's binary64 [float];
    - [std::map] and [std::set] are [gmap] and [gset];
    - [size_t] counters and positions are [nat] (they are bounded by the
      number of rows held in memory); the one place where the source
      relies on modular arithmetic, [sample], writes it out over [Z].

    The text/number conversions of the C++ standard library
    ([std::stod], [std::to_string], stream extraction of a [double]) and
    [std::ranges::sort] are parameters of the sections that use them.

    The member functions keep their names, among them [eq], [lt], [le],
    [gt], [ge], [min], [max] and [merge]: from their definition on these
    names denote the table operations, while the notations [=], [<],
    [≤] keep denoting Rocq's relations. *)

From Stdlib Require Import ZArith Floats Ascii String.
From stdpp Require Import gmap strings list fin_maps pretty.

Local Open Scope string_scope.
Local Open Scope list_scope.
Local Open Scope nat_scope.

(** ** Outcomes of a call *)

Inductive outcome (A : Type) : Type :=
  | Ret (a : A)
  | Throw (what : string)
  | Undef.
Arguments Ret {A} a.
Arguments Throw {A} what.
Arguments Undef {A}.

Definition outcome_bind {A B : Type} (f : A → outcome B) (m : outcome A) : outcome B :=
  match m with
  | Ret a => f a
  | Throw w => Throw w
  | Undef => Undef
  end.

#[global] Instance outcome_ret : MRet outcome := λ A a, Ret a.
#[global] Instance outcome_mbind : MBind outcome := λ A B f m, outcome_bind f m.
#[global] Instance outcome_fmap : FMap outcome :=
  λ A B f m, outcome_bind (λ a, Ret (f a)) m.

(** [v[i]] on a [std::vector]: undefined past the end. *)
Definition vec_at {A : Type} (v : list A) (i : nat) : outcome A :=
  match v !! i with
  | Some a => Ret a
  | None => Undef
  end.

(** [f(v[i])] written back into [v[i]]. *)
Definition vec_modify {A : Type} (f : A → A) (i : nat) (v : list A) : outcome (list A) :=
  if decide (i < length v) then Ret (alter f i v) else Undef.

(** A loop whose body may throw: [for (x : xs) st = body(st, x)]. *)
Fixpoint for_each {S X : Type} (body : S → X → outcome S) (st : S) (xs : list X) : outcome S :=
  match xs with
  | [] => Ret st
  | x :: xs' => st' ← body st x; for_each body st' xs'
  end.

(** A loop that collects one result per element, stopping at the first
    exception. *)
Fixpoint map_each {X Y : Type} (f : X → outcome Y) (xs : list X) : outcome (list Y) :=
  match xs with
  | [] => Ret []
  | x :: xs' => y ← f x; ys ← map_each f xs'; Ret (y :: ys)
  end.

(** Elements paired with their positions, as an index-based [for] loop
    sees them. *)
Definition indexed {A : Type} (l : list A) : list (nat * A) :=
  zip (seq 0 (length l)) l.

(** ** Column types *)

Inductive DataType : Type := INT | FLOAT | STRING.

#[global] Instance DataType_eq_dec : EqDecision DataType.
Proof. solve_decision. Defined.

(** The enumerators in declaration order; [enum class] compares by it. *)
Definition DataType_rank (dt : DataType) : nat :=
  match dt with
  | INT => 0
  | FLOAT => 1
  | STRING => 2
  end.

Definition DataType_gt (a b : DataType) : bool :=
  bool_decide (DataType_rank b < DataType_rank a).


(** ** Text helpers *)

Definition is_empty (s : string) : bool :=
  match s with
  | EmptyString => true
  | String _ _ => false
  end.

(** [std::isspace] in the C locale. *)
Definition is_space (c : ascii) : bool :=
  let n := nat_of_ascii c in
  bool_decide (n = 32) || (bool_decide (9 ≤ n) && bool_decide (n ≤ 13)).

Definition is_digit (c : ascii) : bool :=
  let n := nat_of_ascii c in
  bool_decide (48 ≤ n) && bool_decide (n ≤ 57).

Fixpoint skip_spaces (s : list ascii) : list ascii :=
  match s with
  | c :: s' => if is_space c then skip_spaces s' else s
  | [] => []
  end.

(** The decimal value of a run of digits, most significant first. *)
Definition digits_value (ds : list ascii) : Z :=
  foldl (λ acc c, (10 * acc + (Z.of_nat (nat_of_ascii c) - 48))%Z) 0%Z ds.

Definition LLONG_MAX : Z := 9223372036854775807.
Definition LLONG_MIN : Z := -9223372036854775808.

(** [(iss >> tmp_int) && iss.eof()] for a [long long]: leading white
    space is skipped, then an optional sign and at least one decimal
    digit are read; the extraction fails on overflow, and the end of
    the text is reached only when nothing follows the digits. *)
Definition reads_long_long (value : string) : bool :=
  let body := skip_spaces (list_ascii_of_string value) in
  let '(negative, ds) :=
    match body with
    | c :: rest =>
        if bool_decide (c = "-"%char) then (true, rest)
        else if bool_decide (c = "+"%char) then (false, rest)
        else (false, body)
    | [] => (false, [])
    end in
  match ds with
  | [] => false
  | _ :: _ =>
      forallb is_digit ds &&
      (let v := if negative then (- digits_value ds)%Z else digits_value ds in
       bool_decide (LLONG_MIN ≤ v)%Z && bool_decide (v ≤ LLONG_MAX)%Z)
  end.

Section TypeInference.

(** [(iss >> tmp_double) && iss.eof()]: whether the stream extraction of
    a [double] accepts the whole text.  It belongs to the C++ library. *)
Context (reads_double : string → bool).

Definition infer_data_type (value : string) : DataType :=
  if is_empty value then STRING
  else if reads_long_long value then INT
  else if reads_double value then FLOAT
  else STRING.

End TypeInference.

(** ** The table *)

Record vegaDataframe : Type := mk_vegaDataframe {
  data_features : list string;
  data_values : list (list string);
  non_null_counts : list nat;
  column_types : list DataType;
  null_positions : list (list nat)
}.

Definition shape (df : vegaDataframe) : nat * nat :=
  (length (data_values df), length (data_features df)).

Definition find_column_index (df : vegaDataframe) (col_name : string) : outcome nat :=
  match list_find (λ f, f = col_name) (data_features df) with
  | Some (i, _) => Ret i
  | None => Throw ("Column not found: " ++ col_name)
  end.

(** *** update_stats_after_modification *)

(** The body of the inner loop: one cell at ([row], [col]). *)
Definition stats_cell (row : nat) (st : list nat * list (list nat)) (cell : nat * string)
    : list nat * list (list nat) :=
  if is_empty cell.2
  then (st.1, alter (λ ps, ps ++ [row]) cell.1 st.2)
  else (alter S cell.1 st.1, st.2).

(** The inner loop runs while [col < column_count && col < row.size()]. *)
Definition stats_row (column_count : nat) (st : list nat * list (list nat))
    (r : nat * list string) : list nat * list (list nat) :=
  foldl (stats_cell r.1) st (zip (seq 0 column_count) r.2).

Definition stats_of (column_count : nat) (rows : list (list string))
    : list nat * list (list nat) :=
  foldl (stats_row column_count) (replicate column_count 0, replicate column_count [])
        (indexed rows).

Definition update_stats_after_modification (df : vegaDataframe) : vegaDataframe :=
  let st := stats_of (length (data_features df)) (data_values df) in
  mk_vegaDataframe (data_features df) (data_values df) st.1 (column_types df) st.2.

(** ** Column operations *)

(** The loop body of [add_column] for row [i]: the value is pushed at
    the end of the row, and the new column's statistics are updated. *)
Definition add_column_step (col_idx : nat) (df : vegaDataframe) (iv : nat * string)
    : outcome vegaDataframe :=
  rows ← vec_modify (λ r, r ++ [iv.2]) iv.1 (data_values df);
  if is_empty iv.2 then
    nulls ← vec_modify (λ ps, ps ++ [iv.1]) col_idx (null_positions df);
    Ret (mk_vegaDataframe (data_features df) rows (non_null_counts df)
                          (column_types df) nulls)
  else
    counts ← vec_modify S col_idx (non_null_counts df);
    Ret (mk_vegaDataframe (data_features df) rows counts
                          (column_types df) (null_positions df)).

Definition add_column (df : vegaDataframe) (col_name : string) (values : list string)
    : outcome vegaDataframe :=
  if decide (length values ≠ length (data_values df))
  then Throw "Column size does not match number of rows"
  else
    let df1 := mk_vegaDataframe (data_features df ++ [col_name])
                                (data_values df)
                                (non_null_counts df ++ [0])
                                (column_types df ++ [STRING])
                                (null_positions df ++ [[]]) in
    let col_idx := length (data_features df1) - 1 in
    for_each (add_column_step col_idx) df1 (indexed values).

(** The cells of one column, a missing trailing cell read as the empty
    text (the loop of [get_column(size_t)]). *)
Definition column_cells (df : vegaDataframe) (col_index : nat) : list string :=
  (λ row, default "" (row !! col_index)) <$> data_values df.

Section ColumnTypeBound.

Context (reads_double : string → bool).

(** The widening loop of [read_csv]: starting from [start], every
    non-null cell raises the type to its inferred type when that one is
    greater. *)
Definition widen (start : DataType) (cells : list string) : DataType :=
  foldl (λ ty cell,
           if is_empty cell then ty
           else let inferred := infer_data_type reads_double cell in
                if DataType_gt inferred ty then inferred else ty)
        start cells.

(** The least upper bound, under INT < FLOAT < STRING, of the inferred
    types of the non-null cells of a column. *)
Definition column_lub (df : vegaDataframe) (col_index : nat) : DataType :=
  widen INT (column_cells df col_index).

End ColumnTypeBound.

(** ** Statistics *)

Definition DBL_MAX : float := 0x1.fffffffffffffp+1023%float.
Definition DBL_LOWEST : float := (-0x1.fffffffffffffp+1023)%float.

(** [std::min(a, b)] is [(b < a) ? b : a]; [std::max(a, b)] is
    [(a < b) ? b : a]. *)
Definition std_min (a b : float) : float := if PrimFloat.ltb b a then b else a.
Definition std_max (a b : float) : float := if PrimFloat.ltb a b then b else a.

(** A [size_t] converted to [double] (counts stay below [2^63]). *)
Definition double_of_size (n : nat) : float :=
  PrimFloat.of_uint63 (Uint63.of_Z (Z.of_nat n)).

(** [static_cast<size_t>] of an integral [double]: defined only when
    the value fits. *)
Definition size_of_integer (q : Z) : outcome nat :=
  if decide (0 ≤ q < 2 ^ 64)%Z then Ret (Z.to_nat q) else Undef.

(** [static_cast<size_t>(std::floor(x))] and
    [static_cast<size_t>(std::ceil(x))], computed on the exact value
    [±m·2^e] of [x]; a NaN or an infinity has no defined conversion. *)
Definition floor_to_size (x : float) : outcome nat :=
  match Prim2SF x with
  | S754_zero _ => Ret 0
  | S754_finite s m e =>
      let v := if s then Z.neg m else Z.pos m in
      size_of_integer
        (if decide (0 ≤ e)%Z then v * 2 ^ e else v `div` 2 ^ (- e))%Z
  | _ => Undef
  end.

Definition ceil_to_size (x : float) : outcome nat :=
  match Prim2SF x with
  | S754_zero _ => Ret 0
  | S754_finite s m e =>
      let v := if s then Z.neg m else Z.pos m in
      size_of_integer
        (if decide (0 ≤ e)%Z then v * 2 ^ e else - ((- v) `div` 2 ^ (- e)))%Z
  | _ => Undef
  end.

Section Statistics.

(** [std::stod]: [Some v] when it returns [v], [None] when it throws
    ([std::invalid_argument] or [std::out_of_range]). *)
Context (stod : string → option float).

(** [std::ranges::sort] on a vector of doubles. *)
Context (sort : list float → list float).

(** The guard and the [try]/[catch] shared by the scanning loops:
    [col_idx < row.size() && !row[col_idx].empty()], then [std::stod];
    a cell that fails either is skipped. *)
Definition numeric_cell (col_idx : nat) (row : list string) : option float :=
  match row !! col_idx with
  | Some cell => if is_empty cell then None else stod cell
  | None => None
  end.

(** The valid values of a column, in row order. *)
Definition valid_values (df : vegaDataframe) (col_idx : nat) : list float :=
  omap (numeric_cell col_idx) (data_values df).

(** The common prologue: resolve the column, refuse a STRING column. *)
Definition numeric_column (df : vegaDataframe) (col_name : string) (refusal : string)
    : outcome nat :=
  col_idx ← find_column_index df col_name;
  ty ← vec_at (column_types df) col_idx;
  if decide (ty = STRING) then Throw refusal else Ret col_idx.

Definition mean (df : vegaDataframe) (col_name : string) : outcome float :=
  col_idx ← numeric_column df col_name "Cannot compute mean for string column";
  let '(sum, count) :=
    foldl (λ (acc : float * nat) row,
             match numeric_cell col_idx row with
             | Some v => (PrimFloat.add acc.1 v, S acc.2)
             | None => acc
             end)
          (0%float, 0) (data_values df) in
  if decide (count = 0) then Throw "No valid values to compute mean"
  else Ret (PrimFloat.div sum (double_of_size count)).

Definition median (df : vegaDataframe) (col_name : string) : outcome float :=
  col_idx ← numeric_column df col_name "Cannot compute median for string column";
  let values :=
    foldl (λ vs row,
             match numeric_cell col_idx row with
             | Some v => vs ++ [v]
             | None => vs
             end)
          [] (data_values df) in
  if decide (values = []) then Throw "No valid values to compute median"
  else
    let sorted := sort values in
    let n := length sorted in
    if decide (n `mod` 2 = 0) then
      a ← vec_at sorted (n `div` 2 - 1);
      b ← vec_at sorted (n `div` 2);
      Ret (PrimFloat.div (PrimFloat.add a b) 2%float)
    else vec_at sorted (n `div` 2).

Definition std_dev (df : vegaDataframe) (col_name : string) : outcome float :=
  col_idx ← numeric_column df col_name
              "Cannot compute standard deviation for string column";
  mean_val ← mean df col_name;
  let '(sum_squared_diff, count) :=
    foldl (λ (acc : float * nat) row,
             match numeric_cell col_idx row with
             | Some val =>
                 (PrimFloat.add acc.1
                    (PrimFloat.mul (PrimFloat.sub val mean_val)
                                   (PrimFloat.sub val mean_val)),
                  S acc.2)
             | None => acc
             end)
          (0%float, 0) (data_values df) in
  if decide (count ≤ 1)
  then Throw "Need at least 2 values to compute standard deviation"
  else Ret (PrimFloat.sqrt (PrimFloat.div sum_squared_diff (double_of_size (count - 1)))).

Definition min (df : vegaDataframe) (col_name : string) : outcome float :=
  col_idx ← numeric_column df col_name "Cannot compute min for string column";
  let '(min_val, found) :=
    foldl (λ (acc : float * bool) row,
             match numeric_cell col_idx row with
             | Some val => (std_min acc.1 val, true)
             | None => acc
             end)
          (DBL_MAX, false) (data_values df) in
  if found then Ret min_val else Throw "No valid values to compute min".

Definition max (df : vegaDataframe) (col_name : string) : outcome float :=
  col_idx ← numeric_column df col_name "Cannot compute max for string column";
  let '(max_val, found) :=
    foldl (λ (acc : float * bool) row,
             match numeric_cell col_idx row with
             | Some val => (std_max acc.1 val, true)
             | None => acc
             end)
          (DBL_LOWEST, false) (data_values df) in
  if found then Ret max_val else Throw "No valid values to compute max".

(** One requested quantile over the sorted valid values. *)
Definition quantile_one (values : list float) (quantile : float) : outcome float :=
  if PrimFloat.ltb quantile 0%float || PrimFloat.ltb 1%float quantile
  then Throw "Quantile must be between 0 and 1"
  else
    let pos := PrimFloat.mul quantile (double_of_size (length values - 1)) in
    lower ← floor_to_size pos;
    upper ← ceil_to_size pos;
    if decide (lower = upper) then vec_at values lower
    else
      let weight := PrimFloat.sub pos (double_of_size lower) in
      lo ← vec_at values lower;
      hi ← vec_at values upper;
      Ret (PrimFloat.add (PrimFloat.mul lo (PrimFloat.sub 1%float weight))
                         (PrimFloat.mul hi weight)).

Definition quantile (df : vegaDataframe) (col_name : string) (q : list float)
    : outcome (list float) :=
  col_idx ← numeric_column df col_name "Cannot compute quantiles for string column";
  let values :=
    foldl (λ vs row,
             match numeric_cell col_idx row with
             | Some v => vs ++ [v]
             | None => vs
             end)
          [] (data_values df) in
  if decide (values = []) then Throw "No valid values to compute quantiles"
  else map_each (quantile_one (sort values)) q.

End Statistics.

(** ** Grouping *)

(** [groups[key]] created on first use with the schema of the source
    table, then the row is appended to it. *)
Definition group_push `{Countable K} (df : vegaDataframe) (key : K) (row : list string)
    (groups : gmap K vegaDataframe) : gmap K vegaDataframe :=
  let g := match groups !! key with
           | Some g => g
           | None => mk_vegaDataframe (data_features df) [] [] (column_types df) []
           end in
  <[key := mk_vegaDataframe (data_features g) (data_values g ++ [row])
             (non_null_counts g) (column_types g) (null_positions g)]> groups.

(** [groupby(const std::string&)]: a row takes part only when it has a
    cell at the key position. *)
Definition groupby (df : vegaDataframe) (col_name : string)
    : outcome (gmap string vegaDataframe) :=
  col_idx ← find_column_index df col_name;
  let groups :=
    foldl (λ groups row,
             match row !! col_idx with
             | Some key => group_push df key row groups
             | None => groups
             end)
          ∅ (data_values df) in
  Ret (update_stats_after_modification <$> groups).

(** The key of a row over several columns: a missing cell reads as the
    empty text. *)
Definition row_key (col_indices : list nat) (row : list string) : list string :=
  (λ col_idx, default "" (row !! col_idx)) <$> col_indices.

(** [groupby(const std::vector<std::string>&)]. *)
Definition groupby_multi (df : vegaDataframe) (col_names : list string)
    : outcome (gmap (list string) vegaDataframe) :=
  col_indices ← map_each (find_column_index df) col_names;
  let groups :=
    foldl (λ groups row, group_push df (row_key col_indices row) row groups)
          ∅ (data_values df) in
  Ret (update_stats_after_modification <$> groups).

(** All rows held by the groups of a result, group after group in the
    enumeration order of the map; statements about them are up to
    permutation. *)
Definition group_rows `{Countable K} (groups : gmap K vegaDataframe) : list (list string) :=
  concat ((λ kv, data_values kv.2) <$> map_to_list groups).

(** ** Joining *)

(** The cells of a row except those at the positions in [skip]. *)
Definition cells_except (skip : list nat) (row : list string) : list string :=
  (indexed row) ≫= (λ ic, if decide (ic.1 ∈ skip) then [] else [ic.2]).

Definition types_except (skip : list nat) (tys : list DataType) : list DataType :=
  (indexed tys) ≫= (λ it, if decide (it.1 ∈ skip) then [] else [it.2]).

(** [merge(other, left_col, right_col, how)]. *)
Definition merge (df other : vegaDataframe) (left_col right_col how : string)
    : outcome vegaDataframe :=
  left_col_idx ← find_column_index df left_col;
  right_col_idx ← find_column_index other right_col;
  let features :=
    data_features df ++ filter (λ feature, feature ≠ right_col) (data_features other) in
  let types := column_types df ++ types_except [right_col_idx] (column_types other) in
  let matches (join_key : string) (left_row : list string) : list (list string) :=
    (data_values other) ≫= (λ right_row,
       match right_row !! right_col_idx with
       | Some cell =>
           if decide (cell = join_key)
           then [left_row ++ cells_except [right_col_idx] right_row]
           else []
       | None => []
       end) in
  let rows :=
    if decide (how = "inner") then
      (data_values df) ≫= (λ left_row,
         match left_row !! left_col_idx with
         | Some join_key => matches join_key left_row
         | None => []
         end)
    else if decide (how = "left") then
      (data_values df) ≫= (λ left_row,
         let join_key := default "" (left_row !! left_col_idx) in
         match matches join_key left_row with
         | [] => [left_row ++
                  ((seq 0 (length (data_features other))) ≫=
                     (λ i, if decide (i ≠ right_col_idx) then [""] else []))]
         | merged => merged
         end)
    else [] in
  Ret (update_stats_after_modification (mk_vegaDataframe features rows [] types [])).

(** [merge(other, on, how)]: only the inner join is implemented. *)
Definition merge_on (df other : vegaDataframe) (on : list string) (how : string)
    : outcome vegaDataframe :=
  indices ← map_each (λ col_name,
                        l ← find_column_index df col_name;
                        r ← find_column_index other col_name;
                        Ret (l, r)) on;
  let left_col_indices := indices.*1 in
  let right_col_indices := indices.*2 in
  let features :=
    data_features df ++
    ((indexed (data_features other)) ≫=
       (λ ix, if decide (ix.1 ∈ right_col_indices) then [] else [ix.2])) in
  let types := column_types df ++ types_except right_col_indices (column_types other) in
  let rows :=
    if decide (how = "inner") then
      (data_values df) ≫= (λ left_row,
         let left_key := row_key left_col_indices left_row in
         (data_values other) ≫= (λ right_row,
            if decide (left_key = row_key right_col_indices right_row)
            then [left_row ++ cells_except right_col_indices right_row]
            else []))
    else [] in
  Ret (update_stats_after_modification (mk_vegaDataframe features rows [] types [])).

(** ** Duplicates *)

(** One step of the marking loop: the row at [row_idx] is a duplicate
    when its key was seen before, otherwise its key is recorded. *)
Definition mark_step (check_columns : list nat)
    (st : list bool * gset (list string)) (r : nat * list string)
    : list bool * gset (list string) :=
  let key := row_key check_columns r.2 in
  if decide (key ∈ st.2)
  then (<[r.1 := true]> st.1, st.2)
  else (st.1, {[key]} ∪ st.2).

(** The columns that [duplicated] compares: all of them for an empty
    subset, otherwise the positions of the named columns. *)
Definition check_columns_of (df : vegaDataframe) (subset : list string)
    : outcome (list nat) :=
  if decide (subset = [])
  then Ret (seq 0 (length (data_features df)))
  else map_each (find_column_index df) subset.

(** [duplicated(subset, keep_first)].  The forward pass always runs;
    without [keep_first] its marks are cleared and the rows are scanned
    again from the last one. *)
Definition duplicated (df : vegaDataframe) (subset : list string) (keep_first : bool)
    : outcome (list bool) :=
  check_columns ← check_columns_of df subset;
  let cleared := replicate (length (data_values df)) false in
  let forward := foldl (mark_step check_columns) (cleared, ∅) (indexed (data_values df)) in
  if keep_first then Ret forward.1
  else
    Ret (foldl (mark_step check_columns) (cleared, ∅)
               (reverse (indexed (data_values df)))).1.

Definition drop_duplicates (df : vegaDataframe) (subset : list string) (keep_first : bool)
    : outcome vegaDataframe :=
  duplicate_mask ← duplicated df subset keep_first;
  rows ← for_each (λ rows (ir : nat * list string),
                     marked ← vec_at duplicate_mask ir.1;
                     Ret (if marked : bool then rows else rows ++ [ir.2]))
                  [] (indexed (data_values df));
  Ret (update_stats_after_modification
         (mk_vegaDataframe (data_features df) rows [] (column_types df) [])).

(** ** Element-wise arithmetic and comparison *)

Section Elementwise.

Context (stod : string → option float).

(** [std::to_string(double)]. *)
Context (to_string : float → string).

(** [safe_stod(str)] with its default [default_val = 0.0]. *)
Definition safe_stod (str : string) : float :=
  match stod str with
  | Some v => v
  | None => 0%float
  end.

(** The body of the inner loop of [divide] for the cell at column
    [jc.1] of a row, [other_row] being the row of [other] at the same
    position. *)
Definition divide_cell (df other : vegaDataframe) (other_row : list string)
    (jc : nat * string) : outcome string :=
  match other_row !! jc.1 with
  | None => Ret jc.2
  | Some other_cell =>
      ty ← vec_at (column_types df) jc.1;
      if decide (ty = STRING) then Ret jc.2
      else
        other_ty ← vec_at (column_types other) jc.1;
        if decide (other_ty = STRING) then Ret jc.2
        else
          let val1 := safe_stod jc.2 in
          let val2 := safe_stod other_cell in
          if negb (PrimFloat.eqb val2 0%float)
          then Ret (to_string (PrimFloat.div val1 val2))
          else Ret "inf"
  end.

Definition divide (df other : vegaDataframe) : outcome vegaDataframe :=
  if decide (shape df ≠ shape other)
  then Throw "DataFrames must have same shape for arithmetic operations"
  else
    rows ← map_each (λ ir : nat * list string,
                       other_row ← vec_at (data_values other) ir.1;
                       map_each (divide_cell df other other_row) (indexed ir.2))
                    (indexed (data_values df));
    Ret (mk_vegaDataframe (data_features df) rows (non_null_counts df)
                          (column_types df) (null_positions df)).

(** [eq]: text equality cell by cell; a cell without a partner is
    [false]. *)
Definition eq_cell (other_row : list string) (jc : nat * string) : bool :=
  match other_row !! jc.1 with
  | Some other_cell => bool_decide (jc.2 = other_cell)
  | None => false
  end.

Definition eq (df other : vegaDataframe) : outcome (list (list bool)) :=
  if decide (shape df ≠ shape other)
  then Throw "DataFrames must have same shape for comparison"
  else
    map_each (λ ir : nat * list string,
                other_row ← vec_at (data_values other) ir.1;
                Ret (eq_cell other_row <$> indexed ir.2))
             (indexed (data_values df)).

(** [lt]: numeric comparison where both columns are numeric, text
    comparison otherwise; the text branch reads [other]'s cell without
    a bounds check. *)
Definition lt_cell (df other : vegaDataframe) (other_row : list string)
    (jc : nat * string) : outcome bool :=
  let as_text := other_cell ← vec_at other_row jc.1;
                 Ret (String.ltb jc.2 other_cell) in
  match other_row !! jc.1 with
  | None => as_text
  | Some other_cell =>
      ty ← vec_at (column_types df) jc.1;
      if decide (ty = STRING) then as_text
      else
        other_ty ← vec_at (column_types other) jc.1;
        if decide (other_ty = STRING) then as_text
        else Ret (PrimFloat.ltb (safe_stod jc.2) (safe_stod other_cell))
  end.

Definition lt (df other : vegaDataframe) : outcome (list (list bool)) :=
  if decide (shape df ≠ shape other)
  then Throw "DataFrames must have same shape for comparison"
  else
    map_each (λ ir : nat * list string,
                other_row ← vec_at (data_values other) ir.1;
                map_each (lt_cell df other other_row) (indexed ir.2))
             (indexed (data_values df)).

(** The loop [for (auto& row : m) for (auto val : row) val = !val;]
    over a [std::vector<std::vector<bool>>].  Dereferencing an iterator
    of [std::vector<bool>] yields the proxy [std::vector<bool>::reference],
    so [auto val] is a copy of the proxy, not of the bit, and the
    assignment [val = !val] goes through the proxy's [operator=(bool)]
    into the vector: every stored bit is flipped. *)
Definition flip_all (m : list (list bool)) : list (list bool) :=
  (λ row : list bool, negb <$> row) <$> m.

Definition ne (df other : vegaDataframe) : outcome (list (list bool)) :=
  eq_result ← eq df other;
  Ret (flip_all eq_result).

(** [le]: [lt_result[i][j] || eq_result[i][j]] over the positions of
    [lt_result]; both matrices have the dimensions of [data_values]. *)
Definition le (df other : vegaDataframe) : outcome (list (list bool)) :=
  lt_result ← lt df other;
  eq_result ← eq df other;
  Ret (zip_with (zip_with orb) lt_result eq_result).

Definition gt (df other : vegaDataframe) : outcome (list (list bool)) :=
  le_result ← le df other;
  Ret (flip_all le_result).

Definition ge (df other : vegaDataframe) : outcome (list (list bool)) :=
  lt_result ← lt df other;
  Ret (flip_all lt_result).

End Elementwise.

(** ** Sampling *)

(** A 64-bit [size_t] value narrowed to [int] (two's complement). *)
Definition int_of_size (z : Z) : Z :=
  let m := (z `mod` 2 ^ 32)%Z in
  if decide (m < 2 ^ 31)%Z then m else (m - 2 ^ 32)%Z.

(** The upper bound given to [std::uniform_int_distribution<>]:
    [data_values.size() - 1] in [size_t] arithmetic, narrowed to the
    distribution's [int]. *)
Definition dis_upper (df : vegaDataframe) : Z :=
  int_of_size ((Z.of_nat (length (data_values df)) - 1) `mod` 2 ^ 64)%Z.

(** A value handed out by [dis(gen)] is within the distribution's
    bounds [0 .. dis_upper]. *)
Definition drawn_by (df : vegaDataframe) (d : Z) : Prop :=
  (0 ≤ d ≤ dis_upper df)%Z.

(** [size_t idx = dis(gen)]. *)
Definition size_of_int (d : Z) : nat := Z.to_nat (d `mod` 2 ^ 64)%Z.

(** [sample(n, replace)].  The random source is made explicit:
    [draws i] is the value of the [i]-th call [dis(gen)], [shuffled] is
    the vector [indices] as [std::ranges::shuffle] leaves it.  The
    result carries, next to the table, every row index that was read. *)
Definition sample (df : vegaDataframe) (n : nat) (replace : bool)
    (draws : nat → Z) (shuffled : list nat) : outcome (vegaDataframe * list nat) :=
  if bool_decide (length (data_values df) ≤ n) && negb replace
  then Ret (df, [])
  else
    picked ←
      (if replace
       then Ret ((λ i, size_of_int (draws i)) <$> seq 0 n)
       else map_each (λ i, vec_at shuffled i) (seq 0 n));
    rows ← map_each (vec_at (data_values df)) picked;
    Ret (update_stats_after_modification
           (mk_vegaDataframe (data_features df) rows [] (column_types df) []),
         picked).

(** ** Instances of the library parameters, for evaluation *)

(** A fragment of [std::stod], enough to run the functions above on
    concrete tables.  It agrees with [std::stod] on every text it is
    applied to below: an optional sign followed by one to fifteen
    decimal digits converts to that integer (exactly representable);
    [inf] and [nan] with an optional sign convert to the infinities and
    to a NaN; a text that starts with none of white space, sign, digit,
    point, [i], [I], [n] or [N] cannot be converted, and [std::stod]
    throws [std::invalid_argument].  Texts outside this fragment are
    never passed to it. *)
Definition stod_fragment (str : string) : option float :=
  let '(negative, body) :=
    match list_ascii_of_string str with
    | c :: rest =>
        if bool_decide (c = "-"%char) then (true, rest)
        else if bool_decide (c = "+"%char) then (false, rest)
        else (false, c :: rest)
    | [] => (false, [])
    end in
  let signed (v : float) := if negative : bool then PrimFloat.opp v else v in
  if bool_decide (string_of_list_ascii body = "inf") then Some (signed infinity)
  else if bool_decide (string_of_list_ascii body = "nan") then Some nan
  else
    match body with
    | [] => None
    | _ :: _ =>
        if forallb is_digit body && bool_decide (length body ≤ 15)
        then Some (signed (PrimFloat.of_uint63 (Uint63.of_Z (digits_value body))))
        else None
    end.

(** A sorting algorithm for [std::ranges::sort]'s contract. *)
Fixpoint insert_sorted (x : float) (l : list float) : list float :=
  match l with
  | [] => [x]
  | y :: l' => if PrimFloat.ltb x y then x :: l else y :: insert_sorted x l'
  end.

Definition insertion_sort (l : list float) : list float :=
  foldr insert_sorted [] l.

(** [std::to_string(double)], which formats with ["%f"]: six digits
    after the point, the exact binary value rounded half to even.  A
    NaN prints without its sign. *)
Definition six_digits (n : N) : string :=
  let s := pretty n in
  string_of_list_ascii (replicate (6 - String.length s) "0"%char) ++ s.

Definition to_string_f (x : float) : string :=
  match Prim2SF x with
  | S754_nan => "nan"
  | S754_infinity s => if s then "-inf" else "inf"
  | S754_zero s => if s then "-0.000000" else "0.000000"
  | S754_finite s m e =>
      let num := (Z.pos m * 10 ^ 6 * (if decide (0 ≤ e) then 2 ^ e else 1))%Z in
      let den := (if decide (0 ≤ e) then 1 else 2 ^ (- e))%Z in
      let q := (num `div` den)%Z in
      let r := (num `mod` den)%Z in
      let rounded :=
        if decide (2 * r < den)%Z then q
        else if decide (den < 2 * r)%Z then (q + 1)%Z
        else if Z.even q then q else (q + 1)%Z in
      (if s then "-" else "") ++
      pretty (Z.to_N (rounded `div` 10 ^ 6)) ++ "." ++
      six_digits (Z.to_N (rounded `mod` 10 ^ 6))
  end.

(** * The rest of the table interface

    The member functions below are translated in the same way.  One
    more convention: a loop that assigns through a checked index
    ([if (col_idx < row.size()) row[col_idx] = ...]) is written with
    [alter] or [<[_ := _]>], which leave a list alone past its end,
    exactly as the guarded assignment does. *)

(** ** Text utilities *)

(** The loop [while (std::getline(ss, token, delimiter))
    tokens.push_back(token)] over the unread part of the stream.  One
    call of [std::getline] moves characters into [token] up to the next
    delimiter, which it consumes; it fails, and ends the loop, only
    when it is entered at the end of the stream.  So a token that is
    cut short by the end of the stream is delivered when it holds a
    character, and an empty piece after the last delimiter is not. *)
Fixpoint getline_tokens (delimiter : ascii) (token : string) (unread : string)
    : list string :=
  match unread with
  | EmptyString => if is_empty token then [] else [token]
  | String c rest =>
      if bool_decide (c = delimiter)
      then token :: getline_tokens delimiter EmptyString rest
      else getline_tokens delimiter (String.append token (String c EmptyString)) rest
  end.

Definition split_string (str : string) (delimiter : ascii) : list string :=
  getline_tokens delimiter EmptyString str.

Definition join_strings (strings : list string) (delimiter : string) : string :=
  match strings with
  | [] => EmptyString
  | first :: others =>
      foldl (λ result s, String.append result (String.append delimiter s)) first others
  end.

(** The characters [" \t\r\n"]. *)
Definition whitespace : list ascii :=
  [" "%char; "009"%char; "013"%char; "010"%char].

(** [str.find_first_not_of(chars)] and [str.find_last_not_of(chars)];
    [None] stands for [npos]. *)
Definition find_first_not_of (str chars : list ascii) : option nat :=
  fst <$> list_find (λ c, c ∉ chars) str.

Definition find_last_not_of (str chars : list ascii) : option nat :=
  (λ ic : nat * ascii, length str - 1 - ic.1) <$> list_find (λ c, c ∉ chars) (reverse str).

(** [str.substr(pos, count)] for [pos] within the string. *)
Definition substr (str : list ascii) (pos count : nat) : list ascii :=
  take count (drop pos str).

Definition trim_whitespace (str : string) : string :=
  let cs := list_ascii_of_string str in
  match find_first_not_of cs whitespace with
  | None => EmptyString
  | Some start =>
      match find_last_not_of cs whitespace with
      | Some last => string_of_list_ascii (substr cs start (last - start + 1))
      | None =>
          (* not reached: [npos - start + 1] would wrap to a count that
             runs to the end of the string *)
          string_of_list_ascii (drop start cs)
      end
  end.

(** ** Reading a CSV stream *)

Section ReadCsv.

Context (reads_double : string → bool).

(** The header loop: every token is trimmed, the empty ones are
    dropped. *)
Definition header_features (header_line : string) : list string :=
  filter (λ token, is_empty token = false)
         (trim_whitespace <$> split_string header_line ","%char).

(** The body of the loop over the columns of one data line.  The state
    is the table under construction and [data_row].  The three
    statistics vectors were sized to [column_count] before the loop, so
    the position [i < column_count] is within each of them. *)
Definition read_cell (row_index : nat) (row_tokens : list string)
    (st : vegaDataframe * list string) (i : nat) : vegaDataframe * list string :=
  let df := st.1 in
  let cell := match row_tokens !! i with
              | Some token => trim_whitespace token
              | None => EmptyString
              end in
  (if is_empty cell then
     mk_vegaDataframe (data_features df) (data_values df) (non_null_counts df)
                      (column_types df)
                      (alter (λ ps, ps ++ [row_index]) i (null_positions df))
   else
     let inferred_type := infer_data_type reads_double cell in
     mk_vegaDataframe (data_features df) (data_values df)
                      (alter S i (non_null_counts df))
                      (alter (λ ty, if DataType_gt inferred_type ty
                                    then inferred_type else ty) i (column_types df))
                      (null_positions df),
   st.2 ++ [cell]).

(** One turn of the loop over the data lines. *)
Definition read_line (df : vegaDataframe) (line : nat * string) : vegaDataframe :=
  let row_tokens := split_string line.2 ","%char in
  let st := foldl (read_cell line.1 row_tokens) (df, [])
                  (seq 0 (length (data_features df))) in
  mk_vegaDataframe (data_features st.1) (data_values st.1 ++ [st.2])
                   (non_null_counts st.1) (column_types st.1) (null_positions st.1).

(** [read_csv] from the point where the stream is open; [content] is
    the text of the file.  [std::getline] on the stream splits it at
    the line feeds, as [split_string] does at its delimiter; the first
    line is the header. *)
Definition read_csv (content : string) : vegaDataframe :=
  let lines := split_string content "010"%char in
  let features := match lines with
                  | header_line :: _ => header_features header_line
                  | [] => []
                  end in
  let column_count := length features in
  foldl read_line
        (mk_vegaDataframe features [] (replicate column_count 0)
                          (replicate column_count INT) (replicate column_count []))
        (indexed (tail lines)).

End ReadCsv.

(** ** Shape and structure *)

Definition isnull (df : vegaDataframe) : list nat :=
  length <$> null_positions df.

Definition notnull (df : vegaDataframe) : list nat :=
  non_null_counts df.

Definition count_nulls (df : vegaDataframe) : nat :=
  foldl (λ total positions, total + length positions) 0 (null_positions df).

(** ** More column operations *)

(** [get_column(size_t)]. *)
Definition get_column_at (df : vegaDataframe) (col_index : nat) : outcome (list string) :=
  if decide (length (data_features df) ≤ col_index)
  then Throw "Column index out of range"
  else Ret (column_cells df col_index).

(** [get_column(const std::string&)]. *)
Definition get_column (df : vegaDataframe) (col_name : string) : outcome (list string) :=
  col_idx ← find_column_index df col_name;
  get_column_at df col_idx.

(** [v.insert(v.begin() + pos, x)] and [v.erase(v.begin() + pos)]; an
    iterator past the end of the vector is undefined. *)
Definition vec_insert {A : Type} (pos : nat) (x : A) (v : list A) : outcome (list A) :=
  if decide (pos ≤ length v) then Ret (take pos v ++ x :: drop pos v) else Undef.

Definition vec_erase {A : Type} (pos : nat) (v : list A) : outcome (list A) :=
  if decide (pos < length v) then Ret (delete pos v) else Undef.

(** The loop body of [insert_column] for row [i]. *)
Definition insert_column_step (pos : nat) (df : vegaDataframe) (iv : nat * string)
    : outcome vegaDataframe :=
  row ← vec_at (data_values df) iv.1;
  row' ← vec_insert pos iv.2 row;
  let rows := <[iv.1 := row']> (data_values df) in
  if is_empty iv.2 then
    nulls ← vec_modify (λ ps, ps ++ [iv.1]) pos (null_positions df);
    Ret (mk_vegaDataframe (data_features df) rows (non_null_counts df)
                          (column_types df) nulls)
  else
    counts ← vec_modify S pos (non_null_counts df);
    Ret (mk_vegaDataframe (data_features df) rows counts
                          (column_types df) (null_positions df)).

Definition insert_column (df : vegaDataframe) (pos : nat) (col_name : string)
    (values : list string) : outcome vegaDataframe :=
  if decide (length (data_features df) < pos)
  then Throw "Insert position out of range"
  else if decide (length values ≠ length (data_values df))
  then Throw "Column size does not match number of rows"
  else
    features ← vec_insert pos col_name (data_features df);
    types ← vec_insert pos STRING (column_types df);
    counts ← vec_insert pos 0 (non_null_counts df);
    nulls ← vec_insert pos [] (null_positions df);
    for_each (insert_column_step pos)
             (mk_vegaDataframe features (data_values df) counts types nulls)
             (indexed values).

Definition drop_column (df : vegaDataframe) (col_name : string) : outcome vegaDataframe :=
  col_idx ← find_column_index df col_name;
  features ← vec_erase col_idx (data_features df);
  types ← vec_erase col_idx (column_types df);
  counts ← vec_erase col_idx (non_null_counts df);
  nulls ← vec_erase col_idx (null_positions df);
  Ret (mk_vegaDataframe
         features
         ((λ row, if decide (col_idx < length row) then delete col_idx row else row)
            <$> data_values df)
         counts types nulls).

(** ** Row operations *)

(** [filter_rows(condition)]. *)
Definition filter_rows_if (df : vegaDataframe) (condition : list string → bool)
    : vegaDataframe :=
  update_stats_after_modification
    (mk_vegaDataframe (data_features df) (filter (λ row, condition row) (data_values df))
                      [] (column_types df) []).

(** [filter_rows(col_name, value)]; its condition is
    [col_idx < row.size() && row[col_idx] == value]. *)
Definition filter_rows (df : vegaDataframe) (col_name value : string)
    : outcome vegaDataframe :=
  col_idx ← find_column_index df col_name;
  Ret (filter_rows_if df (λ row, bool_decide (row !! col_idx = Some value))).

Definition query (df : vegaDataframe) (expression : string) : outcome vegaDataframe :=
  match split_string expression " "%char with
  | col_name :: op :: value :: _ =>
      if decide (op = "==") then filter_rows df col_name value else Ret df
  | _ => Ret df
  end.

Definition drop_row (df : vegaDataframe) (row_index : nat) : outcome vegaDataframe :=
  if decide (length (data_values df) ≤ row_index)
  then Throw "Row index out of range"
  else Ret (update_stats_after_modification
              (mk_vegaDataframe (data_features df) (delete row_index (data_values df))
                                (non_null_counts df) (column_types df)
                                (null_positions df))).

(** [std::sort(v.rbegin(), v.rend())] leaves the vector in descending
    order; on numbers the sorted arrangement is unique. *)
Fixpoint insert_descending (x : nat) (v : list nat) : list nat :=
  match v with
  | [] => [x]
  | y :: v' => if decide (y ≤ x) then x :: v else y :: insert_descending x v'
  end.

Definition sort_descending (v : list nat) : list nat :=
  foldr insert_descending [] v.

Definition drop_rows (df : vegaDataframe) (row_indices : list nat)
    : outcome vegaDataframe :=
  for_each drop_row df (sort_descending row_indices).

(** ** Indexing and selection *)

(** The shared row loop of [loc] and [iloc]: requested rows past the
    end are skipped, a missing cell reads as the empty text. *)
Definition select_rows (df : vegaDataframe) (rows col_indices : list nat)
    : list (list string) :=
  rows ≫= (λ row_idx,
    match data_values df !! row_idx with
    | Some row => [row_key col_indices row]
    | None => []
    end).

Definition loc (df : vegaDataframe) (rows : list nat) (cols : list string)
    : outcome vegaDataframe :=
  col_indices ← map_each (find_column_index df) cols;
  types ← map_each (vec_at (column_types df)) col_indices;
  Ret (update_stats_after_modification
         (mk_vegaDataframe cols (select_rows df rows col_indices) [] types [])).

Definition iloc (df : vegaDataframe) (rows cols : list nat) : outcome vegaDataframe :=
  schema ← map_each (λ col_idx,
                       feature ← vec_at (data_features df) col_idx;
                       ty ← vec_at (column_types df) col_idx;
                       Ret (feature, ty))
                    (filter (λ col_idx, col_idx < length (data_features df)) cols);
  Ret (update_stats_after_modification
         (mk_vegaDataframe schema.*1 (select_rows df rows cols) [] schema.*2 [])).

Definition iat (df : vegaDataframe) (row col : nat) : outcome string :=
  if decide (length (data_values df) ≤ row) then Throw "Row index out of range"
  else if decide (length (data_features df) ≤ col) then Throw "Column index out of range"
  else
    cells ← vec_at (data_values df) row;
    Ret (default EmptyString (cells !! col)).

(** [at(row, col)]; the name [at] is a keyword here. *)
Definition at_ (df : vegaDataframe) (row : nat) (col : string) : outcome string :=
  col_idx ← find_column_index df col;
  iat df row col_idx.

(** ** Counting values *)

Definition count (df : vegaDataframe) (col_name : string) : outcome nat :=
  col_idx ← find_column_index df col_name;
  vec_at (non_null_counts df) col_idx.

(** [counts[row[col_idx]]++] on a [std::map], under the guard
    [col_idx < row.size() && !row[col_idx].empty()]: a key seen for the
    first time starts from zero. *)
Definition value_counts_step (col_idx : nat) (counts : gmap string nat)
    (row : list string) : gmap string nat :=
  match row !! col_idx with
  | Some cell =>
      if is_empty cell then counts
      else <[cell := S (default 0 (counts !! cell))]> counts
  | None => counts
  end.

Definition value_counts (df : vegaDataframe) (col_name : string)
    : outcome (gmap string nat) :=
  col_idx ← find_column_index df col_name;
  Ret (foldl (value_counts_step col_idx) ∅ (data_values df)).

(** The [std::set] that [unique] fills under the same guard; [unique]
    returns its elements in order, and [nunique] is the number of
    them. *)
Definition unique_step (col_idx : nat) (unique_set : gset string) (row : list string)
    : gset string :=
  match row !! col_idx with
  | Some cell => if is_empty cell then unique_set else {[cell]} ∪ unique_set
  | None => unique_set
  end.

Definition unique_set (df : vegaDataframe) (col_name : string) : outcome (gset string) :=
  col_idx ← find_column_index df col_name;
  Ret (foldl (unique_step col_idx) ∅ (data_values df)).

Definition nunique (df : vegaDataframe) (col_name : string) : outcome nat :=
  unique_vals ← unique_set df col_name;
  Ret (size unique_vals).

(** ** Missing data *)

Definition dropna (df : vegaDataframe) (how : string) : vegaDataframe :=
  let keeps (row : list string) : bool :=
    let has_null := existsb is_empty row in
    let all_null := forallb is_empty row in
    if bool_decide (how = "any") && negb has_null then true
    else if bool_decide (how = "all") && negb all_null then true
    else false in
  update_stats_after_modification
    (mk_vegaDataframe (data_features df) (filter (λ row, keeps row) (data_values df))
                      [] (column_types df) []).

(** The loop body shared by [fillna_value] and the imputers that write
    one value: [if (col_idx < row.size() && row[col_idx].empty())
    row[col_idx] = value]. *)
Definition fill_cell (col_idx : nat) (value : string) (row : list string) : list string :=
  match row !! col_idx with
  | Some cell => if is_empty cell then <[col_idx := value]> row else row
  | None => row
  end.

Definition fillna_value (df : vegaDataframe) (col_name value : string)
    : outcome vegaDataframe :=
  col_idx ← find_column_index df col_name;
  Ret (update_stats_after_modification
         (mk_vegaDataframe (data_features df) (fill_cell col_idx value <$> data_values df)
                           (non_null_counts df) (column_types df) (null_positions df))).

(** The forward loop of [fillna_method]: the state is [last_valid]. *)
Definition ffill_row (col_idx : nat) (last_valid : string) (row : list string)
    : string * list string :=
  match row !! col_idx with
  | Some cell =>
      if is_empty cell then
        (last_valid,
         if is_empty last_valid then row else <[col_idx := last_valid]> row)
      else (cell, row)
  | None => (last_valid, row)
  end.

(** The state of the forward loop after the rows [rows]: [last_valid]
    and the rows as the loop leaves them. *)
Definition ffill_state (col_idx : nat) (rows : list (list string))
    : string * list (list string) :=
  foldl (λ (st : string * list (list string)) row,
           let step := ffill_row col_idx st.1 row in
           (step.1, st.2 ++ [step.2]))
        (EmptyString, []) rows.

Definition ffill_rows (col_idx : nat) (rows : list (list string)) : list (list string) :=
  (ffill_state col_idx rows).2.

(** The backward loop, [for (int i = static_cast<int>(data_values.size()) - 1;
    i >= 0; --i)], reads and writes [data_values[i]]; the state is
    [next_valid] and the rows. *)
Definition bfill_step (col_idx : nat) (st : string * list (list string)) (i : nat)
    : outcome (string * list (list string)) :=
  row ← vec_at st.2 i;
  match row !! col_idx with
  | Some cell =>
      if is_empty cell then
        if is_empty st.1 then Ret st
        else Ret (st.1, <[i := <[col_idx := st.1]> row]> st.2)
      else Ret (cell, st.2)
  | None => Ret st
  end.

(** The row count narrowed to [int]; [INT_MIN - 1] overflows. *)
Definition bfill_rows (col_idx : nat) (rows : list (list string))
    : outcome (list (list string)) :=
  let size := int_of_size (Z.of_nat (length rows)) in
  if decide (size - 1 < - 2 ^ 31)%Z then Undef
  else
    st ← for_each (bfill_step col_idx) (EmptyString, rows)
                  (reverse (seq 0 (Z.to_nat size)));
    Ret st.2.

Definition fillna_method (df : vegaDataframe) (col_name method : string)
    : outcome vegaDataframe :=
  col_idx ← find_column_index df col_name;
  rows ← (if bool_decide (method = "ffill") || bool_decide (method = "pad")
          then Ret (ffill_rows col_idx (data_values df))
          else if bool_decide (method = "bfill") || bool_decide (method = "backfill")
          then bfill_rows col_idx (data_values df)
          else Ret (data_values df));
  Ret (update_stats_after_modification
         (mk_vegaDataframe (data_features df) rows (non_null_counts df)
                           (column_types df) (null_positions df))).

(** *** Imputers *)

(** The abstract class [Imputer] with its virtual [impute]; a mutated
    table is returned. *)
Class Imputer (T : Type) : Type :=
  impute : T → vegaDataframe → string → outcome vegaDataframe.

Record ConstantImputer : Type := mk_ConstantImputer { fill_value : string }.

(** [ConstantImputer::impute] does not refresh the statistics: it
    clears the null positions of the column and sets its count to the
    number of rows. *)
#[global] Instance ConstantImputer_impute : Imputer ConstantImputer :=
  λ self df column,
    col_idx ← find_column_index df column;
    let rows := fill_cell col_idx (fill_value self) <$> data_values df in
    nulls ← vec_modify (λ _, []) col_idx (null_positions df);
    counts ← vec_modify (λ _, length (data_values df)) col_idx (non_null_counts df);
    Ret (mk_vegaDataframe (data_features df) rows counts (column_types df) nulls).

Definition fillna_with_imputer {T : Type} `{Imputer T} (df : vegaDataframe)
    (col_name : string) (imputer : T) : outcome vegaDataframe :=
  impute imputer df col_name.

(** ** Row order *)

(** [sort_index(ascending)]: there is no explicit index, the rows are
    reversed for a descending order. *)
Definition sort_index (df : vegaDataframe) (ascending : bool) : vegaDataframe :=
  update_stats_after_modification
    (mk_vegaDataframe (data_features df)
                      (if ascending then data_values df else reverse (data_values df))
                      (non_null_counts df) (column_types df) (null_positions df)).

(** ** Combining tables *)

(** One turn of the loop of [concat] for [axis == 0]. *)
Definition concat_rows (result df : vegaDataframe) : outcome vegaDataframe :=
  if decide (data_features df ≠ data_features result)
  then Throw "Column names don't match for vertical concatenation"
  else Ret (mk_vegaDataframe (data_features result) (data_values result ++ data_values df)
                             (non_null_counts result) (column_types result)
                             (null_positions result)).

(** One turn of the loop for [axis == 1]; [df.data_values[row_idx]] is
    read for every row of the result. *)
Definition concat_columns (result df : vegaDataframe) : outcome vegaDataframe :=
  if decide (length (data_values df) ≠ length (data_values result))
  then Throw "Row counts don't match for horizontal concatenation"
  else
    rows ← map_each (λ ir : nat * list string,
                       other_row ← vec_at (data_values df) ir.1;
                       Ret (ir.2 ++ other_row))
                    (indexed (data_values result));
    Ret (mk_vegaDataframe (data_features result ++ data_features df) rows
                          (non_null_counts result)
                          (column_types result ++ column_types df)
                          (null_positions result)).

(** [vegaDataframe::concat(dataframes, axis, ignore_index)]. *)
Definition concat (dataframes : list vegaDataframe) (axis : Z) (ignore_index : bool)
    : outcome vegaDataframe :=
  match dataframes with
  | [] => Ret (mk_vegaDataframe [] [] [] [] [])
  | first :: others =>
      result ← (if decide (axis = 0)%Z then for_each concat_rows first others
                else if decide (axis = 1)%Z then for_each concat_columns first others
                else Ret first);
      Ret (update_stats_after_modification result)
  end.

(** ** Reshaping *)

(** [std::to_string] of a [size_t]: its decimal digits. *)
Definition size_to_string (n : nat) : string := pretty n.

Definition transpose (df : vegaDataframe) : vegaDataframe :=
  let features :=
    (λ i, String.append "row_" (size_to_string i)) <$> seq 0 (length (data_values df)) in
  update_stats_after_modification
    (mk_vegaDataframe
       features
       ((λ col, (λ row : list string, default EmptyString (row !! col)) <$> data_values df)
          <$> seq 0 (length (data_features df)))
       [] (replicate (length features) STRING) []).

(** ** Tables used in the examples *)

(** What [read_json] builds from the objects
    [{"a": "1", "b": "2"}] and [{"a": "x"}]: the schema comes from the
    first object, the second row has a single cell. *)
Definition ragged_table : vegaDataframe :=
  update_stats_after_modification
    (mk_vegaDataframe ["a"; "b"] [["1"; "2"]; ["x"]] [] [STRING; STRING] []).

(** The tables of the join scenario: [A] with columns [key], [v1] and
    rows [k,1], [k,2]; [B] with columns [key], [v2] and the row [k,9]. *)
Definition table_A : vegaDataframe :=
  update_stats_after_modification
    (mk_vegaDataframe ["key"; "v1"] [["k"; "1"]; ["k"; "2"]] [] [STRING; INT] []).

Definition table_B : vegaDataframe :=
  update_stats_after_modification
    (mk_vegaDataframe ["key"; "v2"] [["k"; "9"]] [] [STRING; INT] []).

(** A table with one text column and one numeric column, one row. *)
Definition table_one_row : vegaDataframe :=
  update_stats_after_modification
    (mk_vegaDataframe ["name"; "n"] [["a"; "1"]] [] [STRING; INT] []).

(** One row with the numeric cell [6], one with the numeric cell [0],
    and the table that [divide] returns for the first over the second:
    its numeric column holds the text [inf]. *)
Definition table_six : vegaDataframe :=
  update_stats_after_modification
    (mk_vegaDataframe ["x"] [["6"]] [] [INT] []).

Definition table_zero : vegaDataframe :=
  update_stats_after_modification
    (mk_vegaDataframe ["x"] [["0"]] [] [INT] []).

Definition table_inf : vegaDataframe :=
  mk_vegaDataframe ["x"] [["inf"]] [1] [INT] [[]].

(** A FLOAT column whose only cell is the text [-inf]. *)

Definition table_neg_inf : vegaDataframe :=
  update_stats_after_modification
    (mk_vegaDataframe ["x"] [["-inf"]] [] [FLOAT] []).

(** A run of the random source: the draws 0, 1, 0, 1, ... *)
Definition alternating_draws (i : nat) : Z := Z.of_nat (i `mod` 2).

(** Two tables of the same shape, a text column and a numeric column;
    the divisor holds a zero. *)
Definition table_num : vegaDataframe :=
  update_stats_after_modification
    (mk_vegaDataframe ["name"; "n"] [["a"; "6"]; ["b"; "8"]] [] [STRING; INT] []).

Definition table_den : vegaDataframe :=
  update_stats_after_modification
    (mk_vegaDataframe ["name"; "n"] [["x"; "0"]; ["y"; "2"]] [] [STRING; INT] []).

(** A numeric column with a null cell and an unparseable cell among
    its values. *)
Definition table_scores : vegaDataframe :=
  update_stats_after_modification
    (mk_vegaDataframe ["id"; "score"]
       [["1"; "3"]; ["2"; ""]; ["3"; "1"]; ["4"; "abc"]; ["5"; "2"]]
       [] [INT; INT] []).

(** A FLOAT column whose only cell is the text [nan]. *)
Definition table_nan : vegaDataframe :=
  update_stats_after_modification
    (mk_vegaDataframe ["x"] [["nan"]] [] [FLOAT] []).

(** A FLOAT column without a valid value: a null cell, an unparseable
    cell and a row that ends before the column. *)
Definition table_no_values : vegaDataframe :=
  update_stats_after_modification
    (mk_vegaDataframe ["id"; "x"] [["1"; ""]; ["2"; "abc"]; ["3"]] [] [INT; FLOAT] []).

(** A FLOAT column that holds a finite value and both infinities,
    beside a null and an unparseable cell. *)
Definition table_spread : vegaDataframe :=
  update_stats_after_modification
    (mk_vegaDataframe ["x"] [["1"]; ["inf"]; [""]; ["abc"]; ["-inf"]] [] [FLOAT] []).

(** ** Auxiliary notions used in the statements *)

(** The number of cells accounted for in column [c]. *)
Definition tally (st : list nat * list (list nat)) (c : nat) : nat :=
  default 0 (st.1 !! c) + length (default [] (st.2 !! c)).


(** The marks of the forward pass of [duplicated], row by row: a row is
    marked when its key is among the keys seen so far. *)
Fixpoint scan_marks (check_columns : list nat) (seen : gset (list string))
    (rows : list (list string)) : list bool :=
  match rows with
  | [] => []
  | r :: rest =>
      if decide (row_key check_columns r ∈ seen)
      then true :: scan_marks check_columns seen rest
      else false :: scan_marks check_columns ({[row_key check_columns r]} ∪ seen) rest
  end.

(** The rows that the forward pass leaves unmarked. *)
Fixpoint scan_keep (check_columns : list nat) (seen : gset (list string))
    (rows : list (list string)) : list (list string) :=
  match rows with
  | [] => []
  | r :: rest =>
      if decide (row_key check_columns r ∈ seen)
      then scan_keep check_columns seen rest
      else r :: scan_keep check_columns ({[row_key check_columns r]} ∪ seen) rest
  end.

(** The valid values of a column in the words of the specification:
    of the cells that the rows hold at the column, in row order, the
    null ones (the empty texts) are left out, and of the others those
    that [std::stod] cannot convert; what remains is converted.  A row
    that ends before the column holds no cell there. *)
Definition cells_present (rows : list (list string)) (c : nat) : list string :=
  omap (λ row, row !! c) rows.

Definition non_null_cells (rows : list (list string)) (c : nat) : list string :=
  filter (λ cell, cell ≠ "") (cells_present rows c).

Definition parsed_values (stod : string → option float)
    (rows : list (list string)) (c : nat) : list float :=
  omap stod (non_null_cells rows c).

(** The statistics as functions of the valid values of a column. *)
Definition mean_of (vs : list float) : float :=
  PrimFloat.div (foldl PrimFloat.add 0%float vs) (double_of_size (length vs)).

Definition squared_deviations (m : float) (vs : list float) : float :=
  foldl (λ acc v, PrimFloat.add acc (PrimFloat.mul (PrimFloat.sub v m) (PrimFloat.sub v m)))
        0%float vs.

(** The sample standard deviation: the divisor is [n - 1]. *)
Definition sample_std_dev (vs : list float) : float :=
  PrimFloat.sqrt (PrimFloat.div (squared_deviations (mean_of vs) vs)
                                (double_of_size (length vs - 1))).

Definition median_of (sorted : list float) : option float :=
  let n := length sorted in
  if decide (n `mod` 2 = 0) then
    a ← sorted !! (n `div` 2 - 1);
    b ← sorted !! (n `div` 2);
    Some (PrimFloat.div (PrimFloat.add a b) 2%float)
  else sorted !! (n `div` 2).

(** The order of binary64 values, read off their sign, exponent and
    mantissa: a key ordered lexicographically.  A NaN has no key. *)
Definition sf_key (f : spec_float) : option (Z * Z * Z) :=
  match f with
  | S754_nan => None
  | S754_infinity true => Some (-2, 0, 0)%Z
  | S754_infinity false => Some (2, 0, 0)%Z
  | S754_zero _ => Some (0, 0, 0)%Z
  | S754_finite false m e => Some (1, e, Z.pos m)%Z
  | S754_finite true m e => Some (-1, - e, Z.neg m)%Z
  end.

Definition key_lt (a b : Z * Z * Z) : Prop :=
  (a.1.1 < b.1.1 ∨
   (a.1.1 = b.1.1 ∧ (a.1.2 < b.1.2 ∨ (a.1.2 = b.1.2 ∧ a.2 < b.2))))%Z.

Definition key_le (a b : Z * Z * Z) : Prop := key_lt a b ∨ a = b.

(** [a <= b] on doubles, neither being a NaN. *)
Definition double_le (a b : float) : Prop :=
  ∃ ka kb, sf_key (Prim2SF a) = Some ka ∧ sf_key (Prim2SF b) = Some kb ∧ key_le ka kb.

(** [a == b] on doubles (the two zeros are equal). *)
Definition double_eq (a b : float) : Prop :=
  ∃ k, sf_key (Prim2SF a) = Some k ∧ sf_key (Prim2SF b) = Some k.

(** The statistics of a column as functions of the rows: whether a row
    holds a non-empty cell, or an empty cell, at position [c]; the
    number of rows of the first kind, and the positions of the rows of
    the second kind in increasing order. *)
Definition nonnull_at (c : nat) (row : list string) : bool :=
  match row !! c with
  | Some cell => negb (is_empty cell)
  | None => false
  end.

Definition null_at (c : nat) (row : list string) : bool :=
  match row !! c with
  | Some cell => is_empty cell
  | None => false
  end.

Definition count_nonnull (rows : list (list string)) (c : nat) : nat :=
  length (filter (λ row, nonnull_at c row) rows).

Definition null_rows (rows : list (list string)) (c : nat) : list nat :=
  (filter (λ ir : nat * list string, null_at c ir.2) (indexed rows)).*1.

(** A table whose rows all have one cell per column. *)
Definition rectangular (df : vegaDataframe) : Prop :=
  Forall (λ row, length row = length (data_features df)) (data_values df).

(** A table whose statistics are those a refresh would compute. *)
Definition fresh (df : vegaDataframe) : Prop :=
  update_stats_after_modification df = df.

(** The cell that the column loop of [read_csv] stores at position [i]
    of a data line. *)
Definition cell_at (row_tokens : list string) (i : nat) : string :=
  match row_tokens !! i with
  | Some token => trim_whitespace token
  | None => ""
  end.

(** What [read_csv] maintains from line to line: the rows have one
    cell per column, the statistics are those of the rows, and the type
    of a column is the widening of [INT] by its cells. *)
Definition loaded (reads_double : string → bool) (df : vegaDataframe) : Prop :=
  rectangular df ∧
  non_null_counts df =
    count_nonnull (data_values df) <$> seq 0 (length (data_features df)) ∧
  null_positions df =
    null_rows (data_values df) <$> seq 0 (length (data_features df)) ∧
  column_types df =
    column_lub reads_double df <$> seq 0 (length (data_features df)).

(** The last character of a text. *)
Definition last_char (s : string) : option ascii := last (list_ascii_of_string s).

(** The characters of a text, and whether they are all white space. *)
Definition chars (s : string) : list ascii := list_ascii_of_string s.

Definition blank (cs : list ascii) : Prop := Forall (λ c, c ∈ whitespace) cs.

(** A run of characters that neither starts nor ends with white
    space. *)
Definition trimmed (cs : list ascii) : Prop :=
  match cs with
  | [] => True
  | c :: _ => (c ∉ whitespace) ∧ (∃ c', last cs = Some c' ∧ (c' ∉ whitespace))
  end.


(** The rows whose position is not among [row_indices], in order. *)
Definition rows_except (row_indices : list nat) (rows : list (list string))
    : list (list string) :=
  (filter (λ ir : nat * list string, ir.1 ∉ row_indices) (indexed rows)).*2.

(** A list in descending order: every element is at least those that
    follow it. *)
Fixpoint descending (v : list nat) : Prop :=
  match v with
  | [] => True
  | x :: v' => Forall (λ y, y ≤ x) v' ∧ descending v'
  end.


(** The last non-empty cell that the rows hold at column [c], the empty
    text when there is none. *)
Definition last_valid_cell (c : nat) (rows : list (list string)) : string :=
  default "" (last (filter (λ cell, cell ≠ "") (omap (λ row : list string, row !! c) rows))).

(** A forward fill, row by row: an empty cell at column [c] takes the
    last non-empty cell above it, when there is one. *)
Definition forward_filled (c : nat) (rows : list (list string)) (i : nat)
    (row : list string) : list string :=
  match row !! c with
  | Some cell => if is_empty cell then <[c := last_valid_cell c (take i rows)]> row else row
  | None => row
  end.


(** The rows at position [i] of the tables, side by side. *)
Definition rows_side_by_side (dfs : list vegaDataframe) (i : nat) : list string :=
  dfs ≫= (λ df, default [] (data_values df !! i)).


(** The number of rows whose cell at column [c] is [v]. *)
Definition occurrences (c : nat) (v : string) (rows : list (list string)) : nat :=
  length (filter (λ row : list string, row !! c = Some v) rows).

(** The sum of the counts held by a [value_counts] result. *)
Definition total_count (counts : gmap string nat) : nat :=
  map_fold (λ _ n total, n + total) 0 counts.

(** The rows that the inner loop of [merge] produces for one row of the
    left table and a join key. *)
Definition merge_matches (other : vegaDataframe) (right_col_idx : nat)
    (join_key : string) (left_row : list string) : list (list string) :=
  (data_values other) ≫= (λ right_row,
     match right_row !! right_col_idx with
     | Some cell =>
         if decide (cell = join_key)
         then [left_row ++ cells_except [right_col_idx] right_row]
         else []
     | None => []
     end).


(** * Facts about outcomes and loops *)

Lemma vec_at_Some {A} (v : list A) (i : nat) (a : A) :
  v !! i = Some a → vec_at v i = Ret a.
Proof. unfold vec_at. by intros ->. Qed.

Lemma map_each_cons {X Y} (f : X → outcome Y) (x : X) (xs : list X) :
  map_each f (x :: xs) = f x ≫= λ y, map_each f xs ≫= λ ys, Ret (y :: ys).
Proof. reflexivity. Qed.

Lemma outcome_bind_Ret {A B} (a : A) (f : A → outcome B) : Ret a ≫= f = f a.
Proof. reflexivity. Qed.

(** * Statistics refresh *)

Lemma stats_cell_length row st jc :
  length (stats_cell row st jc).1 = length st.1 ∧
  length (stats_cell row st jc).2 = length st.2.
Proof.
  unfold stats_cell. destruct (is_empty jc.2); simpl;
    rewrite ?length_alter; done.
Qed.

Lemma tally_stats_cell row st j cell c :
  j < length st.1 → j < length st.2 →
  tally (stats_cell row st (j, cell)) c =
  tally st c + (if decide (c = j) then 1 else 0).
Proof.
  intros H1 H2. unfold tally, stats_cell. simpl.
  destruct (lookup_lt_is_Some_2 _ _ H1) as [n Hn].
  destruct (lookup_lt_is_Some_2 _ _ H2) as [ps Hps].
  destruct (is_empty cell); simpl; case_decide as Hc; subst.
  - rewrite list_lookup_alter_eq, Hps, Hn. simpl. rewrite length_app. simpl. lia.
  - rewrite list_lookup_alter_ne by done. lia.
  - rewrite list_lookup_alter_eq, Hps, Hn. simpl. lia.
  - rewrite list_lookup_alter_ne by done. lia.
Qed.

Lemma tally_stats_cells row c cells : ∀ k m st,
  k + m ≤ length st.1 → k + m ≤ length st.2 →
  let st' := foldl (stats_cell row) st (zip (seq k m) cells) in
  length st'.1 = length st.1 ∧ length st'.2 = length st.2 ∧
  tally st' c =
  tally st c + (if decide (k ≤ c < k + m `min` length cells) then 1 else 0).
Proof.
  induction cells as [|cell cells IH]; intros k m st H1 H2; simpl.
  - destruct m; simpl; (split; [done|split; [done|]]);
      case_decide; lia.
  - destruct m as [|m]; simpl.
    + split; [done|split; [done|]]. case_decide; lia.
    + destruct (stats_cell_length row st (k, cell)) as [L1 L2].
      destruct (IH (S k) m (stats_cell row st (k, cell))) as (E1 & E2 & E3);
        [lia | lia |].
      split; [congruence|]. split; [congruence|].
      rewrite E3, tally_stats_cell by lia.
      repeat case_decide; lia.
Qed.

Lemma tally_stats_rows cc c : ∀ (l : list (nat * list string)) st,
  c < cc → length st.1 = cc → length st.2 = cc →
  let st' := foldl (stats_row cc) st l in
  length st'.1 = cc ∧ length st'.2 = cc ∧
  tally st' c = tally st c + length (filter (λ r, c < length r) l.*2).
Proof.
  induction l as [|r l IH]; intros st Hc H1 H2 st'.
  - subst st'. simpl. split; [done|split; [done|lia]].
  - destruct (tally_stats_cells r.1 c r.2 0 cc st) as (E1 & E2 & E3); [lia..|].
    fold (stats_row cc st r) in E1, E2, E3.
    destruct (IH (stats_row cc st r)) as (F1 & F2 & F3); [done|congruence..|].
    change st' with (foldl (stats_row cc) (stats_row cc st r) l).
    split; [done|]. split; [done|].
    rewrite F3, E3, fmap_cons, filter_cons.
    repeat case_decide; rewrite ?length_cons; lia.
Qed.

Lemma tally_initial cc c :
  tally (replicate cc 0, replicate cc []) c = 0.
Proof.
  unfold tally. simpl.
  destruct (decide (c < cc)).
  - rewrite !lookup_replicate_2 by done. done.
  - rewrite !lookup_ge_None_2 by (rewrite length_replicate; lia). done.
Qed.

Lemma indexed_snd {A} (l : list A) : (indexed l).*2 = l.
Proof. unfold indexed. apply snd_zip. rewrite length_seq. done. Qed.

Lemma indexed_length {A} (l : list A) : length (indexed l) = length l.
Proof. rewrite <- (indexed_snd l) at 2. by rewrite length_fmap. Qed.

(** After a refresh, the two statistics of column [c] together account
    for exactly the rows that hold a cell at position [c]. *)
Lemma update_stats_counts df c :
  c < length (data_features df) →
  ∃ n ps,
    non_null_counts (update_stats_after_modification df) !! c = Some n ∧
    null_positions (update_stats_after_modification df) !! c = Some ps ∧
    n + length ps = length (filter (λ r, c < length r) (data_values df)).
Proof.
  intros Hc. unfold update_stats_after_modification. simpl.
  unfold stats_of.
  destruct (tally_stats_rows (length (data_features df)) c
              (indexed (data_values df))
              (replicate (length (data_features df)) 0,
               replicate (length (data_features df)) []))
    as (E1 & E2 & E3); [done| simpl; by rewrite length_replicate..|].
  rewrite tally_initial in E3.
  rewrite indexed_snd in E3.
  rewrite <- E1 in Hc at 1. destruct (lookup_lt_is_Some_2 _ _ Hc) as [n Hn].
  assert (Hc' : c < length (data_features df)) by (rewrite <- E1; by eapply lookup_lt_Some).
  rewrite <- E2 in Hc'. destruct (lookup_lt_is_Some_2 _ _ Hc') as [ps Hps].
  exists n, ps. split; [done|]. split; [done|].
  unfold tally in E3. rewrite Hn, Hps in E3. simpl in E3. lia.
Qed.

(** On a table whose rows all reach column [c], the statistics of [c]
    add up to the number of rows. *)
Lemma update_stats_full_rows df c :
  c < length (data_features df) →
  Forall (λ r, c < length r) (data_values df) →
  ∃ n ps,
    non_null_counts (update_stats_after_modification df) !! c = Some n ∧
    null_positions (update_stats_after_modification df) !! c = Some ps ∧
    n + length ps = length (data_values df).
Proof.
  intros Hc Hfull.
  destruct (update_stats_counts df c Hc) as (n & ps & Hn & Hps & Hsum).
  exists n, ps. split; [done|]. split; [done|].
  rewrite Hsum. f_equal. clear -Hfull.
  induction Hfull as [|r l Hr _ IH]; [done|].
  rewrite filter_cons. case_decide; [by f_equal | done].
Qed.

(** C1 (update_stats_after_modification).  Claimed: after a refresh,
    for every column the non-null count plus the number of null
    positions equals the number of rows, short rows included.  On the
    table read from two JSON objects of which the second lacks the
    field [b], the refresh leaves column [b] with one non-null cell and
    no null position, although the table has two rows: the missing
    trailing cell of the second row is not counted as a null. *)
Theorem update_stats_skips_missing_cells :
  length (data_values ragged_table) = 2 ∧
  length (data_features ragged_table) = 2 ∧
  non_null_counts ragged_table = [2; 1] ∧
  null_positions ragged_table = [[]; []] ∧
  ragged_table = update_stats_after_modification ragged_table.
Proof. repeat split. Qed.

(** * Grouping *)

Lemma group_rows_empty `{Countable K} :
  group_rows (∅ : gmap K vegaDataframe) = [].
Proof. unfold group_rows. by rewrite map_to_list_empty. Qed.

Lemma group_rows_fmap_stats `{Countable K} (groups : gmap K vegaDataframe) :
  group_rows (update_stats_after_modification <$> groups) = group_rows groups.
Proof.
  unfold group_rows. rewrite map_to_list_fmap, <- list_fmap_compose.
  reflexivity.
Qed.

(** Appending a row to its group adds exactly that row to the rows held
    by the groups. *)
Lemma group_rows_push `{Countable K} df (key : K) row (groups : gmap K vegaDataframe) :
  group_rows (group_push df key row groups) ≡ₚ row :: group_rows groups.
Proof.
  unfold group_rows, group_push.
  destruct (groups !! key) as [g|] eqn:Hg.
  - rewrite <- (insert_delete_eq groups key _).
    rewrite map_to_list_insert by apply lookup_delete_eq.
    rewrite <- (insert_id groups key g Hg) at 2.
    rewrite <- (insert_delete_eq groups key g).
    rewrite map_to_list_insert by apply lookup_delete_eq.
    rewrite !fmap_cons. simpl.
    rewrite <- app_assoc. simpl.
    by rewrite <- Permutation_middle.
  - rewrite map_to_list_insert by done.
    rewrite fmap_cons. simpl. done.
Qed.

Lemma group_rows_foldl `{Countable K} df (key_of : list string → K) rows :
  ∀ groups : gmap K vegaDataframe,
  group_rows (foldl (λ groups row, group_push df (key_of row) row groups) groups rows)
  ≡ₚ group_rows groups ++ rows.
Proof.
  induction rows as [|row rows IH]; intros groups; simpl.
  - by rewrite app_nil_r.
  - rewrite IH, group_rows_push. by rewrite <- Permutation_middle.
Qed.

(** The grouping on a list of key columns is a partition of the rows:
    the rows of all groups are the rows of the table, each exactly
    once. *)
Lemma groupby_multi_partition df col_names groups :
  groupby_multi df col_names = Ret groups →
  group_rows groups ≡ₚ data_values df.
Proof.
  unfold groupby_multi. intros Hg.
  destruct (map_each (find_column_index df) col_names) as [col_indices| |];
    simpl in Hg; [|done..].
  injection Hg as <-.
  rewrite group_rows_fmap_stats.
  rewrite (group_rows_foldl df (row_key col_indices)).
  by rewrite group_rows_empty.
Qed.

Lemma group_rows_foldl_single df col_idx rows :
  ∀ groups : gmap string vegaDataframe,
  group_rows (foldl (λ groups row,
                       match row !! col_idx with
                       | Some key => group_push df key row groups
                       | None => groups
                       end) groups rows)
  ≡ₚ group_rows groups ++ filter (λ row, col_idx < length row) rows.
Proof.
  induction rows as [|row rows IH]; intros groups; simpl.
  - by rewrite app_nil_r.
  - rewrite IH, filter_cons. destruct (row !! col_idx) as [key|] eqn:Hk.
    + apply lookup_lt_Some in Hk as Hlt. rewrite decide_True by done.
      rewrite group_rows_push. by rewrite <- Permutation_middle.
    + apply lookup_ge_None in Hk. rewrite decide_False by lia. done.
Qed.

(** The grouping on a single key column holds exactly the rows that
    have a cell at the key position. *)
Lemma groupby_rows df col_name col_idx groups :
  find_column_index df col_name = Ret col_idx →
  groupby df col_name = Ret groups →
  group_rows groups ≡ₚ filter (λ row, col_idx < length row) (data_values df).
Proof.
  unfold groupby. intros -> Hg. simpl in Hg. injection Hg as <-.
  rewrite group_rows_fmap_stats, group_rows_foldl_single.
  by rewrite group_rows_empty.
Qed.

(** C2 (groupby).  Claimed: every row of the table, also a row that
    ends before the key column, lands in exactly one group.  The table
    read from JSON has the rows [1,2] and [x]; grouped by the single key
    [b], the groups hold the row [1,2] only, so the row [x] is in no
    group.  Grouped by the key list [[b]], the same table yields both
    rows, the short one under the empty key. *)
Theorem groupby_single_key_loses_short_rows :
  data_values ragged_table = [["1"; "2"]; ["x"]] ∧
  group_rows <$> groupby ragged_table "b" = Ret [["1"; "2"]] ∧
  ∃ rows, group_rows <$> groupby_multi ragged_table ["b"] = Ret rows ∧
          rows ≡ₚ data_values ragged_table.
Proof.
  split; [reflexivity|]. split; [vm_compute; reflexivity|].
  exists [["x"]; ["1"; "2"]]. split; [vm_compute; reflexivity|].
  apply Permutation_swap.
Qed.

(** * Column types after add_column *)

Lemma vec_modify_Ret {A} (f : A → A) (i : nat) (v : list A) :
  i < length v → vec_modify f i v = Ret (alter f i v).
Proof. intros Hi. unfold vec_modify. by rewrite decide_True. Qed.

Lemma add_column_step_Ret col_idx df i v pre row rest :
  data_values df = pre ++ row :: rest → length pre = i →
  col_idx < length (non_null_counts df) →
  col_idx < length (null_positions df) →
  ∃ df',
    add_column_step col_idx df (i, v) = Ret df' ∧
    data_features df' = data_features df ∧
    column_types df' = column_types df ∧
    data_values df' = (pre ++ [row ++ [v]]) ++ rest ∧
    length (non_null_counts df') = length (non_null_counts df) ∧
    length (null_positions df') = length (null_positions df).
Proof.
  intros Hrows Hi Hc Hn. unfold add_column_step. cbn [fst snd].
  assert (Hi' : i < length (data_values df)).
  { rewrite Hrows, length_app. simpl. lia. }
  rewrite (vec_modify_Ret _ _ _ Hi').
  assert (Halter : alter (λ r, r ++ [v]) i (data_values df)
                   = (pre ++ [row ++ [v]]) ++ rest).
  { rewrite Hrows. rewrite alter_app_r_alt by lia.
    replace (i - length pre) with 0 by lia. simpl. by rewrite <- app_assoc. }
  simpl. destruct (is_empty v).
  - rewrite vec_modify_Ret by done. simpl. eexists. split; [reflexivity|].
    cbn. rewrite length_alter. done.
  - rewrite vec_modify_Ret by done. simpl. eexists. split; [reflexivity|].
    cbn. rewrite length_alter. done.
Qed.

Lemma add_column_loop col_idx : ∀ values k df pre rest,
  data_values df = pre ++ rest → length pre = k →
  length rest = length values →
  col_idx < length (non_null_counts df) →
  col_idx < length (null_positions df) →
  ∃ df',
    for_each (add_column_step col_idx) df (zip (seq k (length values)) values) = Ret df' ∧
    data_features df' = data_features df ∧
    column_types df' = column_types df ∧
    data_values df' = pre ++ zip_with (λ r v, r ++ [v]) rest values.
Proof.
  induction values as [|v values IH]; intros k df pre rest Hrows Hk Hlen Hc Hn.
  - destruct rest; [|done]. exists df. simpl. by rewrite Hrows.
  - destruct rest as [|row rest]; [done|]. injection Hlen as Hlen.
    destruct (add_column_step_Ret col_idx df k v pre row rest Hrows Hk Hc Hn)
      as (df1 & Hstep & Hf1 & Ht1 & Hv1 & Hc1 & Hn1).
    destruct (IH (S k) df1 (pre ++ [row ++ [v]]) rest) as (df' & Hloop & Hf & Ht & Hv);
      [done|rewrite length_app; simpl; lia|done|lia|lia|].
    exists df'. cbn [length seq zip zip_with for_each].
    rewrite Hstep. simpl. split; [exact Hloop|].
    split; [congruence|]. split; [congruence|].
    rewrite Hv. by rewrite <- app_assoc.
Qed.





(** * Descriptive statistics *)

Section StatisticsFacts.

Context (stod : string → option float) (sort : list float → list float).

(** A scanning loop that skips the cells [numeric_cell] rejects is a
    fold over the valid values of the column. *)
Lemma scan_valid_values {S} (g : S → float → S) (df : vegaDataframe) (col_idx : nat) :
  ∀ (start : S),
  foldl (λ acc row,
           match numeric_cell stod col_idx row with
           | Some v => g acc v
           | None => acc
           end) start (data_values df)
  = foldl g start (valid_values stod df col_idx).
Proof.
  unfold valid_values. induction (data_values df) as [|row rows IH]; intros start.
  - done.
  - cbn [foldl omap list_omap]. rewrite IH.
    by destruct (numeric_cell stod col_idx row).
Qed.

Lemma foldl_counting {S} (g : S → float → S) (vs : list float) : ∀ (s : S) (c : nat),
  foldl (λ (acc : S * nat) v, (g acc.1 v, Datatypes.S acc.2)) (s, c) vs
  = (foldl g s vs, c + length vs).
Proof.
  induction vs as [|v vs IH]; intros s c; simpl.
  - by rewrite Nat.add_0_r.
  - rewrite IH. f_equal. lia.
Qed.

Lemma foldl_finding (g : float → float → float) (vs : list float) : ∀ (m : float) (b : bool),
  foldl (λ (acc : float * bool) v, (g acc.1 v, true)) (m, b) vs
  = (foldl g m vs, if vs is [] then b else true).
Proof.
  induction vs as [|v vs IH]; intros m b; simpl; [done|].
  rewrite IH. by destruct vs.
Qed.

Lemma foldl_collecting (vs : list float) : ∀ (acc : list float),
  foldl (λ acc v, acc ++ [v]) acc vs = acc ++ vs.
Proof.
  induction vs as [|v vs IH]; intros acc; simpl.
  - by rewrite app_nil_r.
  - by rewrite IH, <- app_assoc.
Qed.

Lemma numeric_column_refuses df col_name col_idx refusal :
  find_column_index df col_name = Ret col_idx →
  column_types df !! col_idx = Some STRING →
  numeric_column df col_name refusal = Throw refusal.
Proof.
  intros Hidx Hty. unfold numeric_column.
  rewrite Hidx. simpl. by rewrite (vec_at_Some _ _ _ Hty).
Qed.

Lemma numeric_column_accepts df col_name col_idx ty refusal :
  find_column_index df col_name = Ret col_idx →
  column_types df !! col_idx = Some ty → ty ≠ STRING →
  numeric_column df col_name refusal = Ret col_idx.
Proof.
  intros Hidx Hty Hne. unfold numeric_column.
  rewrite Hidx. simpl. rewrite (vec_at_Some _ _ _ Hty). by destruct ty.
Qed.

Lemma mean_numeric df col_name col_idx ty :
  find_column_index df col_name = Ret col_idx →
  column_types df !! col_idx = Some ty → ty ≠ STRING →
  mean stod df col_name =
  let vs := valid_values stod df col_idx in
  if decide (vs = []) then Throw "No valid values to compute mean"
  else Ret (mean_of vs).
Proof.
  intros Hidx Hty Hne. unfold mean.
  rewrite (numeric_column_accepts _ _ _ _ _ Hidx Hty Hne). simpl.
  rewrite (scan_valid_values (λ acc v, (PrimFloat.add acc.1 v, S acc.2))).
  rewrite (foldl_counting PrimFloat.add). simpl.
  by destruct (valid_values stod df col_idx).
Qed.

Lemma min_numeric df col_name col_idx ty :
  find_column_index df col_name = Ret col_idx →
  column_types df !! col_idx = Some ty → ty ≠ STRING →
  min stod df col_name =
  let vs := valid_values stod df col_idx in
  if decide (vs = []) then Throw "No valid values to compute min"
  else Ret (foldl std_min DBL_MAX vs).
Proof.
  intros Hidx Hty Hne. unfold min.
  rewrite (numeric_column_accepts _ _ _ _ _ Hidx Hty Hne). simpl.
  rewrite (scan_valid_values (λ acc v, (std_min acc.1 v, true))).
  rewrite (foldl_finding std_min). simpl.
  by destruct (valid_values stod df col_idx).
Qed.

Lemma max_numeric df col_name col_idx ty :
  find_column_index df col_name = Ret col_idx →
  column_types df !! col_idx = Some ty → ty ≠ STRING →
  max stod df col_name =
  let vs := valid_values stod df col_idx in
  if decide (vs = []) then Throw "No valid values to compute max"
  else Ret (foldl std_max DBL_LOWEST vs).
Proof.
  intros Hidx Hty Hne. unfold max.
  rewrite (numeric_column_accepts _ _ _ _ _ Hidx Hty Hne). simpl.
  rewrite (scan_valid_values (λ acc v, (std_max acc.1 v, true))).
  rewrite (foldl_finding std_max). simpl.
  by destruct (valid_values stod df col_idx).
Qed.


Lemma median_numeric df col_name col_idx ty :
  (∀ l, length (sort l) = length l) →
  find_column_index df col_name = Ret col_idx →
  column_types df !! col_idx = Some ty → ty ≠ STRING →
  let vs := valid_values stod df col_idx in
  if decide (vs = []) then
    median stod sort df col_name = Throw "No valid values to compute median"
  else
    ∃ m, median stod sort df col_name = Ret m ∧ median_of (sort vs) = Some m.
Proof.
  intros Hsort Hidx Hty Hne. unfold median.
  rewrite (numeric_column_accepts _ _ _ _ _ Hidx Hty Hne), outcome_bind_Ret.
  cbv zeta.
  rewrite (scan_valid_values (λ acc v, acc ++ [v])), foldl_collecting, app_nil_l.
  destruct (valid_values stod df col_idx) as [|v vs] eqn:Hvs; [done|].
  rewrite decide_False by done. rewrite decide_False by done.
  unfold median_of. specialize (Hsort (v :: vs)).
  set (sorted := sort (v :: vs)) in *. cbn [length] in Hsort.
  assert (Hhalf : length sorted `div` 2 < length sorted).
  { apply Nat.div_lt; lia. }
  destruct (lookup_lt_is_Some_2 sorted _ Hhalf) as [b Hb].
  case_decide.
  - assert (Hprev : length sorted `div` 2 - 1 < length sorted) by lia.
    destruct (lookup_lt_is_Some_2 sorted _ Hprev) as [a Ha].
    rewrite (vec_at_Some _ _ _ Ha), (vec_at_Some _ _ _ Hb), Ha, Hb.
    by eexists.
  - rewrite (vec_at_Some _ _ _ Hb), Hb. by eexists.
Qed.

Lemma std_dev_numeric df col_name col_idx ty :
  find_column_index df col_name = Ret col_idx →
  column_types df !! col_idx = Some ty → ty ≠ STRING →
  std_dev stod df col_name =
  let vs := valid_values stod df col_idx in
  if decide (vs = []) then Throw "No valid values to compute mean"
  else if decide (length vs ≤ 1)
       then Throw "Need at least 2 values to compute standard deviation"
       else Ret (sample_std_dev vs).
Proof.
  intros Hidx Hty Hne. unfold std_dev.
  rewrite (numeric_column_accepts _ _ _ _ _ Hidx Hty Hne). simpl.
  rewrite (mean_numeric _ _ _ _ Hidx Hty Hne). simpl.
  destruct (decide (valid_values stod df col_idx = [])) as [Hnil|Hcons]; [done|].
  simpl.
  rewrite (scan_valid_values
             (λ acc val, (PrimFloat.add acc.1
                            (PrimFloat.mul
                               (PrimFloat.sub val (mean_of (valid_values stod df col_idx)))
                               (PrimFloat.sub val (mean_of (valid_values stod df col_idx)))),
                          S acc.2))).
  rewrite (foldl_counting
             (λ acc val, PrimFloat.add acc
                           (PrimFloat.mul
                              (PrimFloat.sub val (mean_of (valid_values stod df col_idx)))
                              (PrimFloat.sub val (mean_of (valid_values stod df col_idx)))))).
  simpl. by case_decide.
Qed.

(** The valid values that the scanning loops keep are those of the
    specification. *)
Lemma valid_values_parsed df col_idx :
  valid_values stod df col_idx = parsed_values stod (data_values df) col_idx.
Proof.
  unfold valid_values, parsed_values, non_null_cells, cells_present.
  induction (data_values df) as [|row rows IH]; [done|].
  cbn [omap list_omap]. unfold numeric_cell at 1.
  destruct (row !! col_idx) as [cell|]; [|exact IH].
  rewrite filter_cons. case_decide as Hcell.
  - cbn [omap list_omap]. rewrite <- IH.
    destruct cell; [by destruct Hcell|done].
  - rewrite <- IH. by rewrite Hcell.
Qed.

(** C4 (mean, median, min, max, std_dev).  On a column recorded as
    STRING each of the five refuses with its type error.  On any other
    column the null cells, the cells that do not parse and the cells
    missing from short rows are skipped, [vs] being the values of the
    remaining cells: [mean], [median], [min] and [max] fail with "No
    valid values" exactly when no valid value remains and otherwise
    return the statistic of the valid values; [std_dev] fails exactly
    when fewer than two valid values remain (with the error of [mean]
    when none does) and otherwise returns the sample standard
    deviation, whose divisor is [n - 1]. *)
Theorem statistics_error_policy
    (df : vegaDataframe) (col_name : string) (col_idx : nat) (ty : DataType) :
  (∀ l, length (sort l) = length l) →
  find_column_index df col_name = Ret col_idx →
  column_types df !! col_idx = Some ty →
  let vs := parsed_values stod (data_values df) col_idx in
  (ty = STRING →
     mean stod df col_name = Throw "Cannot compute mean for string column" ∧
     median stod sort df col_name = Throw "Cannot compute median for string column" ∧
     min stod df col_name = Throw "Cannot compute min for string column" ∧
     max stod df col_name = Throw "Cannot compute max for string column" ∧
     std_dev stod df col_name =
       Throw "Cannot compute standard deviation for string column") ∧
  (ty ≠ STRING →
     (vs = [] →
        mean stod df col_name = Throw "No valid values to compute mean" ∧
        median stod sort df col_name = Throw "No valid values to compute median" ∧
        min stod df col_name = Throw "No valid values to compute min" ∧
        max stod df col_name = Throw "No valid values to compute max" ∧
        std_dev stod df col_name = Throw "No valid values to compute mean") ∧
     (vs ≠ [] →
        mean stod df col_name = Ret (mean_of vs) ∧
        (∃ m, median stod sort df col_name = Ret m ∧ median_of (sort vs) = Some m) ∧
        min stod df col_name = Ret (foldl std_min DBL_MAX vs) ∧
        max stod df col_name = Ret (foldl std_max DBL_LOWEST vs)) ∧
     (length vs = 1 →
        std_dev stod df col_name =
          Throw "Need at least 2 values to compute standard deviation") ∧
     (2 ≤ length vs →
        std_dev stod df col_name = Ret (sample_std_dev vs))).
Proof.
  intros Hsort Hidx Hty vs. split.
  - intros ->. unfold mean, median, min, max, std_dev.
    by rewrite !(numeric_column_refuses _ _ _ _ Hidx Hty).
  - intros Hne.
    pose proof (mean_numeric _ _ _ _ Hidx Hty Hne) as Hmean.
    pose proof (median_numeric _ _ _ _ Hsort Hidx Hty Hne) as Hmedian.
    pose proof (min_numeric _ _ _ _ Hidx Hty Hne) as Hmin.
    pose proof (max_numeric _ _ _ _ Hidx Hty Hne) as Hmax.
    pose proof (std_dev_numeric _ _ _ _ Hidx Hty Hne) as Hstd.
    simpl in Hmean, Hmedian, Hmin, Hmax, Hstd.
    rewrite valid_values_parsed in Hmean, Hmedian, Hmin, Hmax, Hstd.
    fold vs in Hmean, Hmedian, Hmin, Hmax, Hstd.
    destruct (decide (vs = [])) as [Hnil|Hcons].
    + repeat split; try done.
      * intros Hone. rewrite Hnil in Hone. done.
      * intros Htwo. rewrite Hnil in Htwo. simpl in Htwo. lia.
    + repeat split; try done.
      * intros Hone. rewrite Hstd. rewrite decide_True by lia. done.
      * intros Htwo. rewrite Hstd. rewrite decide_False by lia. done.
Qed.

End StatisticsFacts.

Lemma insert_sorted_length (x : float) (l : list float) :
  length (insert_sorted x l) = S (length l).
Proof.
  induction l as [|y l IH]; simpl; [done|].
  destruct (PrimFloat.ltb x y); simpl; by rewrite ?IH.
Qed.

Lemma insertion_sort_length (l : list float) :
  length (insertion_sort l) = length l.
Proof.
  induction l as [|x l IH]; simpl; [done|].
  by rewrite insert_sorted_length, IH.
Qed.

(** The column [score], with a null and an unparseable cell beside the
    values 3, 1 and 2; the STRING column [key]; a column without a
    valid value; and a column with a single one. *)
Lemma statistics_error_policy_witness :
  (parsed_values stod_fragment (data_values table_scores) 1 = [3%float; 1%float; 2%float] ∧
   mean stod_fragment table_scores "score" = Ret 2%float ∧
   median stod_fragment insertion_sort table_scores "score" = Ret 2%float ∧
   min stod_fragment table_scores "score" = Ret 1%float ∧
   max stod_fragment table_scores "score" = Ret 3%float ∧
   std_dev stod_fragment table_scores "score" = Ret 1%float) ∧
  (column_types table_A !! 0 = Some STRING ∧
   mean stod_fragment table_A "key" = Throw "Cannot compute mean for string column" ∧
   median stod_fragment insertion_sort table_A "key"
     = Throw "Cannot compute median for string column" ∧
   min stod_fragment table_A "key" = Throw "Cannot compute min for string column" ∧
   max stod_fragment table_A "key" = Throw "Cannot compute max for string column" ∧
   std_dev stod_fragment table_A "key"
     = Throw "Cannot compute standard deviation for string column") ∧
  (parsed_values stod_fragment (data_values table_no_values) 1 = [] ∧
   mean stod_fragment table_no_values "x" = Throw "No valid values to compute mean" ∧
   median stod_fragment insertion_sort table_no_values "x"
     = Throw "No valid values to compute median" ∧
   min stod_fragment table_no_values "x" = Throw "No valid values to compute min" ∧
   max stod_fragment table_no_values "x" = Throw "No valid values to compute max" ∧
   std_dev stod_fragment table_no_values "x" = Throw "No valid values to compute mean") ∧
  (parsed_values stod_fragment (data_values table_six) 0 = [6%float] ∧
   mean stod_fragment table_six "x" = Ret 6%float ∧
   std_dev stod_fragment table_six "x"
     = Throw "Need at least 2 values to compute standard deviation").
Proof.
  split; [|split; [|split]].
  - pose proof (statistics_error_policy stod_fragment insertion_sort table_scores "score"
                  1 INT insertion_sort_length eq_refl eq_refl) as [_ Hnumeric].
    destruct Hnumeric as (_ & Hsome & _ & Htwo); [discriminate|].
    destruct Hsome as (Hmean & (m & Hmedian & Hm) & Hmin & Hmax); [discriminate|].
    split; [reflexivity|].
    split; [exact Hmean|].
    split; [rewrite Hmedian; f_equal; vm_compute in Hm; congruence|].
    split; [exact Hmin|]. split; [exact Hmax|].
    apply Htwo. vm_compute. lia.
  - pose proof (statistics_error_policy stod_fragment insertion_sort table_A "key"
                  0 STRING insertion_sort_length eq_refl eq_refl) as [Hstring _].
    split; [reflexivity|]. exact (Hstring eq_refl).
  - pose proof (statistics_error_policy stod_fragment insertion_sort table_no_values "x"
                  1 FLOAT insertion_sort_length eq_refl eq_refl) as [_ Hnumeric].
    destruct Hnumeric as (Hnone & _); [discriminate|].
    split; [reflexivity|]. exact (Hnone eq_refl).
  - pose proof (statistics_error_policy stod_fragment insertion_sort table_six "x"
                  0 INT insertion_sort_length eq_refl eq_refl) as [_ Hnumeric].
    destruct Hnumeric as (_ & Hsome & Hone & _); [discriminate|].
    destruct Hsome as (Hmean & _); [discriminate|].
    split; [reflexivity|]. split; [exact Hmean|]. exact (Hone eq_refl).
Defined.

(** * Joining *)

(** C5 (merge, inner).  The tables [A] (columns [key], [v1]; rows [k,1]
    and [k,2]) and [B] (columns [key], [v2]; row [k,9]) merged on [key]
    with [how = "inner"] give the columns [key], [v1], [v2] and exactly
    the rows [k,1,9] and [k,2,9], in that order; both overloads of
    [merge] agree. *)
Theorem merge_inner_scenario :
  data_features table_A = ["key"; "v1"] ∧
  data_values table_A = [["k"; "1"]; ["k"; "2"]] ∧
  data_features table_B = ["key"; "v2"] ∧
  data_values table_B = [["k"; "9"]] ∧
  ∃ result,
    merge table_A table_B "key" "key" "inner" = Ret result ∧
    merge_on table_A table_B ["key"] "inner" = Ret result ∧
    data_features result = ["key"; "v1"; "v2"] ∧
    data_values result = [["k"; "1"; "9"]; ["k"; "2"; "9"]].
Proof.
  do 4 (split; [reflexivity|]).
  eexists. split; [vm_compute; reflexivity|].
  split; [vm_compute; reflexivity|]. split; reflexivity.
Qed.


(** * Quantiles against the extremes *)

(** ** The order of doubles *)

Lemma SFcompare_key (f g : spec_float) (kf kg : Z * Z * Z) :
  sf_key f = Some kf → sf_key g = Some kg →
  (SFltb f g = true ↔ key_lt kf kg) ∧
  (SFeqb f g = true ↔ kf = kg) ∧
  (SFleb f g = true ↔ key_le kf kg).
Proof.
  unfold SFltb, SFeqb, SFleb, key_le, key_lt.
  destruct f as [[]|[]| |[] mf ef], g as [[]|[]| |[] mg eg];
    simpl; intros [= <-] [= <-]; simpl;
    try (repeat split; intros; try done; try lia; intuition (try congruence; try lia); fail).
  all: destruct (Z.compare_spec ef eg) as [He|He|He];
    [change (Pos.compare_cont Eq mf mg) with (Pos.compare mf mg);
     destruct (Pos.compare_spec mf mg) as [Hm|Hm|Hm]| |];
    simpl; subst;
    repeat split; intros; try done; try lia;
    intuition (try congruence; try lia); simplify_eq; lia.
Qed.

Lemma sf_key_total (f : spec_float) : f ≠ S754_nan → ∃ k, sf_key f = Some k.
Proof. destruct f as [[]|[]| |[] m e]; intros; try done; by eexists. Qed.

Lemma SFleb_keys (f g : spec_float) :
  SFleb f g = true → ∃ kf kg, sf_key f = Some kf ∧ sf_key g = Some kg.
Proof.
  destruct f as [[]|[]| |[] mf ef], g as [[]|[]| |[] mg eg];
    try (intros; discriminate); intros _; by eexists _, _.
Qed.

Lemma SFeqb_keys (f g : spec_float) :
  SFeqb f g = true → ∃ kf kg, sf_key f = Some kf ∧ sf_key g = Some kg.
Proof.
  destruct f as [[]|[]| |[] mf ef], g as [[]|[]| |[] mg eg];
    try (intros; discriminate); intros _; by eexists _, _.
Qed.

Lemma leb_double_le (a b : float) : PrimFloat.leb a b = true ↔ double_le a b.
Proof.
  rewrite FloatAxioms.leb_spec. unfold double_le. split.
  - intros Hle. destruct (SFleb_keys _ _ Hle) as (ka & kb & Ha & Hb).
    exists ka, kb. split; [done|]. split; [done|].
    by apply (SFcompare_key _ _ _ _ Ha Hb).
  - intros (ka & kb & Ha & Hb & Hle). by apply (SFcompare_key _ _ _ _ Ha Hb).
Qed.

Lemma eqb_double_eq (a b : float) : PrimFloat.eqb a b = true ↔ double_eq a b.
Proof.
  rewrite FloatAxioms.eqb_spec. unfold double_eq. split.
  - intros Heq. destruct (SFeqb_keys _ _ Heq) as (ka & kb & Ha & Hb).
    apply (SFcompare_key _ _ _ _ Ha Hb) in Heq as ->. by exists kb.
  - intros (k & Ha & Hb). by apply (SFcompare_key _ _ _ _ Ha Hb).
Qed.

Lemma key_le_total (a b : Z * Z * Z) : ¬ key_lt b a → key_le a b.
Proof.
  destruct a as [[a1 a2] a3], b as [[b1 b2] b3]. unfold key_le, key_lt. simpl.
  intros Hn.
  destruct (decide (a1 = b1)) as [->|]; [|left; lia].
  destruct (decide (a2 = b2)) as [->|]; [|left; lia].
  destruct (decide (a3 = b3)) as [->|]; [by right|left; lia].
Qed.

Lemma key_le_trans (a b c : Z * Z * Z) : key_le a b → key_le b c → key_le a c.
Proof.
  destruct a as [[a1 a2] a3], b as [[b1 b2] b3], c as [[c1 c2] c3].
  unfold key_le, key_lt. simpl. intros [H1|[= -> -> ->]] [H2|[= <- <- <-]]; auto.
  left. lia.
Qed.

Lemma key_le_antisym (a b : Z * Z * Z) : key_le a b → key_le b a → a = b.
Proof.
  destruct a as [[a1 a2] a3], b as [[b1 b2] b3].
  unfold key_le, key_lt. simpl. intros [H1|H1] [H2|H2]; try done. lia.
Qed.

(** Neither operand being a NaN, [!(b < a)] is [a <= b]. *)
Lemma not_ltb_double_le (a b : float) :
  double_le a a → double_le b b → PrimFloat.ltb b a = false → double_le a b.
Proof.
  intros (ka & ? & Ha & _) (kb & ? & Hb & _) Hlt. rewrite FloatAxioms.ltb_spec in Hlt.
  exists ka, kb. split; [done|]. split; [done|].
  apply key_le_total. intros Hk.
  apply (SFcompare_key _ _ _ _ Hb Ha) in Hk. congruence.
Qed.

Lemma ltb_double_le (a b : float) : PrimFloat.ltb a b = true → double_le a b.
Proof.
  rewrite FloatAxioms.ltb_spec. intros Hlt.
  assert (Hle : SFleb (Prim2SF a) (Prim2SF b) = true).
  { unfold SFltb in Hlt. unfold SFleb.
    by destruct (SFcompare (Prim2SF a) (Prim2SF b)) as [[]|]. }
  destruct (SFleb_keys _ _ Hle) as (ka & kb & Ha & Hb).
  exists ka, kb. split; [done|]. split; [done|].
  left. by apply (SFcompare_key _ _ _ _ Ha Hb).
Qed.

Lemma double_le_refl_l (a b : float) : double_le a b → double_le a a.
Proof. intros (ka & kb & Ha & _). exists ka, ka. split; [done|]. split; [done|]. by right. Qed.

Lemma double_le_refl_r (a b : float) : double_le a b → double_le b b.
Proof. intros (ka & kb & _ & Hb & _). exists kb, kb. split; [done|]. split; [done|]. by right. Qed.

Lemma double_le_trans (a b c : float) : double_le a b → double_le b c → double_le a c.
Proof.
  intros (ka & kb & Ha & Hb & Hab) (kb' & kc & Hb' & Hc & Hbc).
  rewrite Hb in Hb'. injection Hb' as <-.
  exists ka, kc. split; [done|]. split; [done|]. by eapply key_le_trans.
Qed.

Lemma double_le_antisym (a b : float) : double_le a b → double_le b a → double_eq a b.
Proof.
  intros (ka & kb & Ha & Hb & Hab) (kb' & ka' & Hb' & Ha' & Hba).
  rewrite Hb in Hb'. injection Hb' as <-. rewrite Ha in Ha'. injection Ha' as <-.
  exists ka. split; [done|]. by rewrite (key_le_antisym _ _ Hab Hba).
Qed.

Lemma double_eq_le (a b : float) : double_eq a b → double_le b a.
Proof. intros (k & Ha & Hb). exists k, k. split; [done|]. split; [done|]. by right. Qed.

(** ** The scans of [min] and [max] *)

Lemma foldl_std_min (vs : list float) : ∀ start,
  double_le start start → Forall (λ v, double_le v v) vs →
  let m := foldl std_min start vs in
  double_le m start ∧ Forall (double_le m) vs ∧ (m = start ∨ m ∈ vs).
Proof.
  induction vs as [|v vs IH]; intros start Hstart Hvs; simpl.
  - split; [done|]. split; [constructor|by left].
  - apply Forall_cons in Hvs as [Hv Hvs].
    destruct (PrimFloat.ltb v start) eqn:Hlt.
    + replace (std_min start v) with v by (unfold std_min; by rewrite Hlt).
      destruct (IH v Hv Hvs) as (Hm & Hall & Hin).
      apply ltb_double_le in Hlt.
      split; [by eapply double_le_trans|]. split; [by constructor|].
      right. destruct Hin as [->|Hin]; [by left|by right].
    + replace (std_min start v) with start by (unfold std_min; by rewrite Hlt).
      destruct (IH start Hstart Hvs) as (Hm & Hall & Hin).
      apply (not_ltb_double_le _ _ Hstart Hv) in Hlt.
      split; [done|]. split; [constructor; [by eapply double_le_trans|done]|].
      destruct Hin as [->|Hin]; [by left|by right; right].
Qed.

Lemma foldl_std_max (vs : list float) : ∀ start,
  double_le start start → Forall (λ v, double_le v v) vs →
  let m := foldl std_max start vs in
  double_le start m ∧ Forall (λ v, double_le v m) vs ∧ (m = start ∨ m ∈ vs).
Proof.
  induction vs as [|v vs IH]; intros start Hstart Hvs; simpl.
  - split; [done|]. split; [constructor|by left].
  - apply Forall_cons in Hvs as [Hv Hvs].
    destruct (PrimFloat.ltb start v) eqn:Hlt.
    + replace (std_max start v) with v by (unfold std_max; by rewrite Hlt).
      destruct (IH v Hv Hvs) as (Hm & Hall & Hin).
      apply ltb_double_le in Hlt.
      split; [by eapply double_le_trans|]. split; [by constructor|].
      right. destruct Hin as [->|Hin]; [by left|by right].
    + replace (std_max start v) with start by (unfold std_max; by rewrite Hlt).
      destruct (IH start Hstart Hvs) as (Hm & Hall & Hin).
      apply (not_ltb_double_le _ _ Hv Hstart) in Hlt.
      split; [done|]. split; [constructor; [by eapply double_le_trans|done]|].
      destruct Hin as [->|Hin]; [by left|by right; right].
Qed.

(** A lower bound of the values that is one of them, up to [==], is
    equal to any other such bound. *)
Lemma least_value_unique (vs : list float) (h m : float) :
  h ∈ vs → Forall (double_le h) vs →
  Forall (double_le m) vs → (∃ v, v ∈ vs ∧ double_eq m v) →
  double_eq h m.
Proof.
  intros Hh Hhle Hmle (v & Hv & Hmv). rewrite Forall_forall in Hhle, Hmle.
  apply double_le_antisym; [|by apply Hmle].
  eapply double_le_trans; [by apply Hhle|]. by apply double_eq_le.
Qed.

Lemma greatest_value_unique (vs : list float) (h m : float) :
  h ∈ vs → Forall (λ v, double_le v h) vs →
  Forall (λ v, double_le v m) vs → (∃ v, v ∈ vs ∧ double_eq v m) →
  double_eq h m.
Proof.
  intros Hh Hhle Hmle (v & Hv & Hmv). rewrite Forall_forall in Hhle, Hmle.
  apply double_le_antisym; [by apply Hmle|].
  eapply double_le_trans; [|by apply Hhle]. by apply double_eq_le.
Qed.

Lemma double_eq_refl (a : float) : double_le a a → double_eq a a.
Proof. intros (ka & _ & Ha & _). by exists ka. Qed.

(** Over values none of which exceeds [DBL_MAX], the scan of [min]
    ends on a least value. *)
Lemma scan_min_least (vs : list float) :
  vs ≠ [] → Forall (λ v, double_le v DBL_MAX) vs →
  let m := foldl std_min DBL_MAX vs in
  Forall (double_le m) vs ∧ ∃ v, v ∈ vs ∧ double_eq m v.
Proof.
  intros Hne Hbound m.
  assert (Hkeys : Forall (λ v, double_le v v) vs).
  { eapply Forall_impl; [exact Hbound|]. intros v. apply double_le_refl_l. }
  assert (Hmax : double_le DBL_MAX DBL_MAX).
  { destruct vs as [|v vs]; [done|]. apply Forall_cons in Hbound as [Hv _].
    by eapply double_le_refl_r. }
  destruct (foldl_std_min vs DBL_MAX Hmax Hkeys) as (Hm & Hall & Hin).
  fold m in Hm, Hall, Hin. split; [done|].
  destruct Hin as [Heq|Hin].
  - destruct vs as [|v vs]; [done|]. exists v. split; [by left|].
    apply Forall_cons in Hall as [Hmv _]. apply Forall_cons in Hbound as [Hv _].
    apply double_le_antisym; [done|]. by rewrite Heq.
  - exists m. split; [done|]. apply double_eq_refl. by eapply double_le_refl_l.
Qed.

Lemma scan_max_greatest (vs : list float) :
  vs ≠ [] → Forall (λ v, double_le DBL_LOWEST v) vs →
  let m := foldl std_max DBL_LOWEST vs in
  Forall (λ v, double_le v m) vs ∧ ∃ v, v ∈ vs ∧ double_eq v m.
Proof.
  intros Hne Hbound m.
  assert (Hkeys : Forall (λ v, double_le v v) vs).
  { eapply Forall_impl; [exact Hbound|]. intros v. apply double_le_refl_r. }
  assert (Hlow : double_le DBL_LOWEST DBL_LOWEST).
  { destruct vs as [|v vs]; [done|]. apply Forall_cons in Hbound as [Hv _].
    by eapply double_le_refl_l. }
  destruct (foldl_std_max vs DBL_LOWEST Hlow Hkeys) as (Hm & Hall & Hin).
  fold m in Hm, Hall, Hin. split; [done|].
  destruct Hin as [Heq|Hin].
  - destruct vs as [|v vs]; [done|]. exists v. split; [by left|].
    apply Forall_cons in Hall as [Hmv _]. apply Forall_cons in Hbound as [Hv _].
    apply double_le_antisym; [done|by rewrite Heq].
  - exists m. split; [done|]. apply double_eq_refl. by eapply double_le_refl_r.
Qed.

(** Over values none of which is a NaN, the scan of [min] ends on a
    least value as soon as one value does not exceed [DBL_MAX], and
    the scan of [max] on a greatest value as soon as one value is not
    below the lowest finite double. *)
Lemma scan_min_attained (vs : list float) :
  Forall (λ v, double_le v v) vs → Exists (λ v, double_le v DBL_MAX) vs →
  let m := foldl std_min DBL_MAX vs in
  Forall (double_le m) vs ∧ ∃ v, v ∈ vs ∧ double_eq m v.
Proof.
  intros Hkeys Hsome m.
  apply Exists_exists in Hsome as (w & Hw & Hbound).
  assert (Hmax : double_le DBL_MAX DBL_MAX) by (by eapply double_le_refl_r).
  destruct (foldl_std_min vs DBL_MAX Hmax Hkeys) as (Hm & Hall & Hin).
  fold m in Hm, Hall, Hin. split; [done|].
  destruct Hin as [Heq|Hin].
  - exists w. split; [done|]. rewrite Forall_forall in Hall.
    apply double_le_antisym; [by apply Hall|by rewrite Heq].
  - exists m. split; [done|]. apply double_eq_refl.
    rewrite Forall_forall in Hkeys. by apply Hkeys.
Qed.

Lemma scan_max_attained (vs : list float) :
  Forall (λ v, double_le v v) vs → Exists (λ v, double_le DBL_LOWEST v) vs →
  let m := foldl std_max DBL_LOWEST vs in
  Forall (λ v, double_le v m) vs ∧ ∃ v, v ∈ vs ∧ double_eq v m.
Proof.
  intros Hkeys Hsome m.
  apply Exists_exists in Hsome as (w & Hw & Hbound).
  assert (Hlow : double_le DBL_LOWEST DBL_LOWEST) by (by eapply double_le_refl_l).
  destruct (foldl_std_max vs DBL_LOWEST Hlow Hkeys) as (Hm & Hall & Hin).
  fold m in Hm, Hall, Hin. split; [done|].
  destruct Hin as [Heq|Hin].
  - exists w. split; [done|]. rewrite Forall_forall in Hall.
    apply double_le_antisym; [by apply Hall|by rewrite Heq].
  - exists m. split; [done|]. apply double_eq_refl.
    rewrite Forall_forall in Hkeys. by apply Hkeys.
Qed.

(** ** Exact positions *)

(** Rounding a mantissa and exponent that already form a binary64
    value leaves them unchanged. *)
Lemma round_aux_valid (sx : bool) (m : positive) (e : Z) :
  bounded prec emax m e = true →
  binary_round_aux prec emax sx (Z.pos m) e loc_Exact = S754_finite sx m e.
Proof.
  unfold bounded, canonical_mantissa. intros Hb.
  apply andb_prop in Hb as [Hc He]. apply Z.eqb_eq in Hc.
  unfold binary_round_aux, shr_fexp. cbn [Zdigits2 shr_record_of_loc].
  rewrite Hc, Z.sub_diag. cbn [shr shr_m loc_of_shr_record round_nearest_even].
  cbn [Zdigits2 shr_record_of_loc]. rewrite Hc, Z.sub_diag.
  cbn [shr shr_m]. by rewrite He.
Qed.

Lemma digits2_pos_iter_xO (m : positive) (d : positive) :
  Z.pos (digits2_pos (Pos.iter xO m d)) = (Z.pos (digits2_pos m) + Z.pos d)%Z.
Proof.
  induction d as [|d IH] using Pos.peano_ind.
  - simpl. lia.
  - rewrite Pos.iter_succ. cbn [digits2_pos]. lia.
Qed.

Lemma digits2_pos_bound (m : positive) :
  (2 ^ (Z.pos (digits2_pos m) - 1) ≤ Z.pos m < 2 ^ Z.pos (digits2_pos m))%Z.
Proof.
  induction m as [m IH|m IH|]; cbn [digits2_pos].
  - rewrite Pos2Z.inj_succ, Z.pow_succ_r by lia.
    replace (Z.succ (Z.pos (digits2_pos m)) - 1)%Z with (Z.succ (Z.pos (digits2_pos m) - 1)) by lia.
    rewrite Z.pow_succ_r by lia. lia.
  - rewrite Pos2Z.inj_succ, Z.pow_succ_r by lia.
    replace (Z.succ (Z.pos (digits2_pos m)) - 1)%Z with (Z.succ (Z.pos (digits2_pos m) - 1)) by lia.
    rewrite Z.pow_succ_r by lia. lia.
  - simpl. lia.
Qed.

Lemma fexp_small (x : Z) : (-1021 ≤ x)%Z → fexp prec emax x = (x - 53)%Z.
Proof. intros Hx. unfold fexp, SpecFloat.emin, prec, emax. lia. Qed.

(** A count below [2^53] converts to a [double] without rounding. *)
Lemma double_of_size_exact (n : nat) :
  0 < n → (Z.of_nat n < 2 ^ 53)%Z →
  ∃ m e,
    Prim2SF (double_of_size n) = S754_finite false m e ∧
    bounded prec emax m e = true ∧
    (e ≤ 0)%Z ∧ Z.pos m = (Z.of_nat n * 2 ^ (- e))%Z.
Proof.
  intros Hpos Hlt. unfold double_of_size.
  rewrite of_uint63_spec, Uint63.of_Z_spec.
  change Uint63.wB with (2 ^ 63)%Z. rewrite Z.mod_small by lia.
  destruct (Z.of_nat n) as [|p|p] eqn:Hp; [lia| |lia].
  cbn [binary_normalize]. unfold binary_round.
  pose proof (digits2_pos_bound p) as [Hlo Hhi].
  set (D := Z.pos (digits2_pos p)) in *.
  assert (HD : (1 ≤ D ≤ 53)%Z).
  { split; [subst D; lia|].
    destruct (decide (D ≤ 53)%Z) as [|Hbig]; [done|].
    assert (2 ^ 53 ≤ 2 ^ (D - 1))%Z by (apply Z.pow_le_mono_r; lia). lia. }
  rewrite Z.add_0_r, fexp_small by lia. unfold shl_align.
  destruct (D - 53 - 0)%Z as [|d|d] eqn:Hd; [|lia|].
  - assert (HD53 : D = 53%Z) by lia.
    exists p, 0%Z. rewrite round_aux_valid.
    + split; [done|]. split; [|split; [lia|simpl; lia]].
      unfold bounded, canonical_mantissa. fold D. rewrite HD53. reflexivity.
    + unfold bounded, canonical_mantissa. fold D. rewrite HD53. reflexivity.
  - assert (Hmz : Z.pos (digits2_pos (Pos.iter xO p d)) = 53%Z).
    { rewrite digits2_pos_iter_xO. fold D. lia. }
    assert (Hb : bounded prec emax (Pos.iter xO p d) (D - 53) = true).
    { unfold bounded, canonical_mantissa. rewrite Hmz.
      replace (53 + (D - 53))%Z with D by lia. rewrite fexp_small by lia.
      rewrite Z.eqb_refl. simpl. apply Z.leb_le. unfold emax, prec. lia. }
    exists (Pos.iter xO p d), (D - 53)%Z. rewrite round_aux_valid by done.
    split; [done|]. split; [done|]. split; [lia|].
    change (Pos.iter xO p d) with (shift_pos d p).
    rewrite shift_pos_correct. replace (- (D - 53))%Z with (Z.pos d) by lia.
    rewrite Z.pow_pos_fold. lia.
Qed.

Lemma floor_ceil_of_size (x : float) (m : positive) (e : Z) (k : nat) :
  Prim2SF x = S754_finite false m e →
  (e ≤ 0)%Z → Z.pos m = (Z.of_nat k * 2 ^ (- e))%Z → (Z.of_nat k < 2 ^ 64)%Z →
  floor_to_size x = Ret k ∧ ceil_to_size x = Ret k.
Proof.
  intros Hx He Hm Hk. unfold floor_to_size, ceil_to_size. rewrite Hx.
  assert (Hpow : (0 < 2 ^ (- e))%Z) by (apply Z.pow_pos_nonneg; lia).
  unfold size_of_integer. destruct (decide (0 ≤ e)%Z) as [H0|Hneg].
  - assert (e = 0%Z) as -> by lia. rewrite Hm. simpl.
    rewrite !Z.mul_1_r. rewrite decide_True by lia. rewrite Nat2Z.id.
    split; reflexivity.
  - rewrite Hm. rewrite Z.div_mul by lia.
    assert (Hceil : (- ((- (Z.of_nat k * 2 ^ (- e))) `div` 2 ^ (- e)))%Z = Z.of_nat k).
    { rewrite <- Z.mul_opp_l, Z.div_mul by lia. lia. }
    rewrite Hceil, decide_True by lia. rewrite Nat2Z.id. split; reflexivity.
Qed.

Lemma shr_iter_xO (d : positive) : ∀ m : positive,
  SpecFloat.iter_pos shr_1 d {| shr_m := Z.pos (Pos.iter xO m d); shr_r := false; shr_s := false |}
  = {| shr_m := Z.pos m; shr_r := false; shr_s := false |}.
Proof.
  induction d as [d IH|d IH|]; intros m; cbn [SpecFloat.iter_pos Pos.iter shr_1 orb].
  - by rewrite !IH.
  - by rewrite !IH.
  - done.
Qed.

(** Rounding a binary64 mantissa that was shifted left, with the
    exponent lowered by as much, gives the value back. *)
Lemma round_aux_shifted (sx : bool) (m d : positive) (e : Z) :
  bounded prec emax m e = true →
  binary_round_aux prec emax sx (Z.pos (Pos.iter xO m d)) (e - Z.pos d) loc_Exact
  = S754_finite sx m e.
Proof.
  intros Hb. pose proof Hb as Hb'. unfold bounded, canonical_mantissa in Hb'.
  apply andb_prop in Hb' as [Hc He]. apply Z.eqb_eq in Hc.
  unfold binary_round_aux at 1, shr_fexp at 1. cbn [Zdigits2 shr_record_of_loc].
  rewrite digits2_pos_iter_xO.
  replace (Z.pos (digits2_pos m) + Z.pos d + (e - Z.pos d))%Z
    with (Z.pos (digits2_pos m) + e)%Z by lia.
  rewrite Hc. replace (e - (e - Z.pos d))%Z with (Z.pos d) by lia.
  cbn [shr]. rewrite shr_iter_xO.
  cbn [shr_m loc_of_shr_record round_nearest_even].
  replace (e - Z.pos d + Z.pos d)%Z with e by lia.
  unfold shr_fexp. cbn [Zdigits2 shr_record_of_loc].
  rewrite Hc, Z.sub_diag. cbn [shr shr_m]. by rewrite He.
Qed.

Lemma mul_one_exact (x : float) (s : bool) (m : positive) (e : Z) :
  Prim2SF x = S754_finite s m e →
  Prim2SF (PrimFloat.mul 1%float x) = S754_finite s m e.
Proof.
  intros Hx. pose proof (Prim2SF_valid x) as Hv. rewrite Hx in Hv. simpl in Hv.
  rewrite mul_spec, Hx.
  change (Prim2SF 1%float) with (S754_finite false 4503599627370496 (-52)).
  unfold SF64mul, SFmul.
  change (4503599627370496 * m)%positive with (Pos.iter xO m 52).
  replace (-52 + e)%Z with (e - 52)%Z by lia.
  rewrite (round_aux_shifted _ m 52 e Hv). by destruct s.
Qed.

Lemma mul_zero_exact (x : float) (s : bool) (m : positive) (e : Z) :
  Prim2SF x = S754_finite s m e →
  Prim2SF (PrimFloat.mul 0%float x) = S754_zero s.
Proof.
  intros Hx. rewrite mul_spec, Hx.
  change (Prim2SF 0%float) with (S754_zero false). by destruct s.
Qed.

Lemma floor_ceil_zero (x : float) (s : bool) :
  Prim2SF x = S754_zero s → floor_to_size x = Ret 0 ∧ ceil_to_size x = Ret 0.
Proof. intros Hx. unfold floor_to_size, ceil_to_size. by rewrite Hx. Qed.

(** The position of the quantile 0 is the first sorted value, that of
    the quantile 1 the last one. *)
Lemma quantile_positions (n : nat) :
  0 < n → (Z.of_nat n ≤ 2 ^ 53)%Z →
  let first := PrimFloat.mul 0%float (double_of_size (n - 1)) in
  let last := PrimFloat.mul 1%float (double_of_size (n - 1)) in
  floor_to_size first = Ret 0 ∧ ceil_to_size first = Ret 0 ∧
  floor_to_size last = Ret (n - 1) ∧ ceil_to_size last = Ret (n - 1).
Proof.
  intros Hpos Hlt first last.
  destruct (decide (n - 1 = 0)) as [H0|Hk].
  - subst first last. rewrite H0. repeat split; reflexivity.
  - destruct (double_of_size_exact (n - 1)) as (m & e & Hx & Hb & He & Hm); [lia..|].
    destruct (floor_ceil_zero first false (mul_zero_exact _ _ _ _ Hx)) as [? ?].
    destruct (floor_ceil_of_size last m e (n - 1)) as [? ?];
      [by apply mul_one_exact|done|done|lia|].
    done.
Qed.

(** ** Quantiles 0 and 1 *)

Section QuantileFacts.

Context (stod : string → option float) (sort : list float → list float).

Lemma quantile_numeric df col_name col_idx ty q :
  find_column_index df col_name = Ret col_idx →
  column_types df !! col_idx = Some ty → ty ≠ STRING →
  quantile stod sort df col_name q =
  let vs := valid_values stod df col_idx in
  if decide (vs = []) then Throw "No valid values to compute quantiles"
  else map_each (quantile_one (sort vs)) q.
Proof.
  intros Hidx Hty Hne. unfold quantile.
  rewrite (numeric_column_accepts _ _ _ _ _ Hidx Hty Hne), outcome_bind_Ret.
  cbv zeta.
  by rewrite (scan_valid_values stod (λ acc v, acc ++ [v])), foldl_collecting, app_nil_l.
Qed.

Lemma quantile_one_zero (sorted : list float) :
  0 < length sorted → (Z.of_nat (length sorted) ≤ 2 ^ 53)%Z →
  quantile_one sorted 0%float = vec_at sorted 0.
Proof.
  intros Hpos Hlen. unfold quantile_one.
  destruct (quantile_positions (length sorted) Hpos Hlen) as (Hf & Hc & _).
  change (PrimFloat.ltb 0 0 || PrimFloat.ltb 1 0) with false. cbv zeta iota.
  rewrite Hf, Hc. by rewrite !outcome_bind_Ret, decide_True.
Qed.

Lemma quantile_one_one (sorted : list float) :
  0 < length sorted → (Z.of_nat (length sorted) ≤ 2 ^ 53)%Z →
  quantile_one sorted 1%float = vec_at sorted (length sorted - 1).
Proof.
  intros Hpos Hlen. unfold quantile_one.
  destruct (quantile_positions (length sorted) Hpos Hlen) as (_ & _ & Hf & Hc).
  change (PrimFloat.ltb 1 0 || PrimFloat.ltb 1 1) with false. cbv zeta iota.
  rewrite Hf, Hc. by rewrite !outcome_bind_Ret, decide_True.
Qed.

(** C6, as the code has it.  On a non-STRING column with at least
    one valid value (and at most [2^53] of them), none of them a NaN,
    sorted as [std::ranges::sort] promises: if some valid value is not
    plus infinity, the quantile at 0 and [min] return equal doubles; if
    some valid value is not minus infinity, the quantile at 1 and [max]
    return equal doubles. *)
Theorem quantile_extremes_without_nan
    (df : vegaDataframe) (col_name : string) (col_idx : nat) (ty : DataType) :
  find_column_index df col_name = Ret col_idx →
  column_types df !! col_idx = Some ty → ty ≠ STRING →
  let vs := parsed_values stod (data_values df) col_idx in
  vs ≠ [] → (Z.of_nat (length vs) ≤ 2 ^ 53)%Z →
  sort vs ≡ₚ vs →
  (∀ i n a b, sort vs !! i = Some a → sort vs !! (i + n) = Some b →
              PrimFloat.ltb b a = false) →
  Forall (λ v, PrimFloat.eqb v v = true) vs →
  (Exists (λ v, PrimFloat.leb v DBL_MAX = true) vs →
   ∃ q m, quantile stod sort df col_name [0%float] = Ret [q] ∧
          min stod df col_name = Ret m ∧
          PrimFloat.eqb q m = true) ∧
  (Exists (λ v, PrimFloat.leb DBL_LOWEST v = true) vs →
   ∃ q m, quantile stod sort df col_name [1%float] = Ret [q] ∧
          max stod df col_name = Ret m ∧
          PrimFloat.eqb q m = true).
Proof.
  intros Hidx Hty Hne vs Hvs Hlen Hperm Hsorted Hnum.
  assert (Hlength : length (sort vs) = length vs) by (by rewrite Hperm).
  assert (Hpos : 0 < length (sort vs)).
  { rewrite Hlength. destruct vs; [done|simpl; lia]. }
  assert (Hkeys : Forall (λ v, double_le v v) vs).
  { eapply Forall_impl; [exact Hnum|]. intros v Hv. simpl in Hv.
    by apply double_eq_le, eqb_double_eq. }
  assert (Hkey : ∀ v, v ∈ sort vs → double_le v v).
  { intros v Hv. rewrite Hperm in Hv. rewrite Forall_forall in Hkeys. by apply Hkeys. }
  pose proof (quantile_numeric df col_name col_idx ty [0%float] Hidx Hty Hne) as Hq0.
  pose proof (quantile_numeric df col_name col_idx ty [1%float] Hidx Hty Hne) as Hq1.
  pose proof (min_numeric stod df col_name col_idx ty Hidx Hty Hne) as Hmin.
  pose proof (max_numeric stod df col_name col_idx ty Hidx Hty Hne) as Hmax.
  cbv zeta in Hq0, Hq1, Hmin, Hmax.
  rewrite valid_values_parsed in Hq0, Hq1, Hmin, Hmax.
  fold vs in Hq0, Hq1, Hmin, Hmax.
  rewrite decide_False in Hq0 by done. rewrite decide_False in Hq1 by done.
  rewrite decide_False in Hmin by done. rewrite decide_False in Hmax by done.
  rewrite map_each_cons, quantile_one_zero in Hq0 by (done || lia).
  rewrite map_each_cons, quantile_one_one in Hq1 by (done || lia).
  split.
  - intros Hbound.
    assert (Hle : Exists (λ v, double_le v DBL_MAX) vs).
    { eapply Exists_impl; [exact Hbound|]. intros v Hv. by apply leb_double_le. }
    destruct (lookup_lt_is_Some_2 (sort vs) 0 Hpos) as [h Hh].
    rewrite (vec_at_Some _ _ _ Hh) in Hq0.
    exists h, (foldl std_min DBL_MAX vs). split; [exact Hq0|]. split; [exact Hmin|].
    apply eqb_double_eq.
    destruct (scan_min_attained vs Hkeys Hle) as [Hall Hex].
    apply (least_value_unique vs); [| |done|done].
    + rewrite <- Hperm. by eapply list_elem_of_lookup_2.
    + rewrite <- Hperm. apply Forall_forall. intros v Hv.
      apply list_elem_of_lookup_1 in Hv as [j Hj].
      apply not_ltb_double_le.
      * apply Hkey. by eapply list_elem_of_lookup_2.
      * apply Hkey. by eapply list_elem_of_lookup_2.
      * by apply (Hsorted 0 j).
  - intros Hbound.
    assert (Hle : Exists (λ v, double_le DBL_LOWEST v) vs).
    { eapply Exists_impl; [exact Hbound|]. intros v Hv. by apply leb_double_le. }
    assert (Hlast : length (sort vs) - 1 < length (sort vs)) by lia.
    destruct (lookup_lt_is_Some_2 (sort vs) _ Hlast) as [h Hh].
    rewrite (vec_at_Some _ _ _ Hh) in Hq1.
    exists h, (foldl std_max DBL_LOWEST vs). split; [exact Hq1|]. split; [exact Hmax|].
    apply eqb_double_eq.
    destruct (scan_max_attained vs Hkeys Hle) as [Hall Hex].
    apply (greatest_value_unique vs); [| |done|done].
    + rewrite <- Hperm. by eapply list_elem_of_lookup_2.
    + rewrite <- Hperm. apply Forall_forall. intros v Hv.
      apply list_elem_of_lookup_1 in Hv as [j Hj].
      apply not_ltb_double_le.
      * apply Hkey. by eapply list_elem_of_lookup_2.
      * apply Hkey. by eapply list_elem_of_lookup_2.
      * apply lookup_lt_Some in Hj as Hjlt.
        apply (Hsorted j (length (sort vs) - 1 - j)); [done|].
        by replace (j + (length (sort vs) - 1 - j)) with (length (sort vs) - 1) by lia.
Qed.

End QuantileFacts.

Lemma insert_sorted_perm (x : float) (l : list float) : insert_sorted x l ≡ₚ x :: l.
Proof.
  induction l as [|y l IH]; simpl; [done|].
  destruct (PrimFloat.ltb x y); [done|]. rewrite IH. apply Permutation_swap.
Qed.

Lemma insertion_sort_perm (l : list float) : insertion_sort l ≡ₚ l.
Proof.
  induction l as [|x l IH]; simpl; [done|].
  by rewrite insert_sorted_perm, IH.
Qed.

(** A column whose valid values are 1 and the two infinities, beside
    a null and an unparseable cell. *)
Lemma quantile_extremes_witness :
  find_column_index table_spread "x" = Ret 0 ∧
  column_types table_spread !! 0 = Some FLOAT ∧
  parsed_values stod_fragment (data_values table_spread) 0
    = [1%float; infinity; neg_infinity] ∧
  insertion_sort [1%float; infinity; neg_infinity] = [neg_infinity; 1%float; infinity] ∧
  (∃ q m, quantile stod_fragment insertion_sort table_spread "x" [0%float] = Ret [q] ∧
          min stod_fragment table_spread "x" = Ret m ∧
          PrimFloat.eqb q m = true) ∧
  (∃ q m, quantile stod_fragment insertion_sort table_spread "x" [1%float] = Ret [q] ∧
          max stod_fragment table_spread "x" = Ret m ∧
          PrimFloat.eqb q m = true).
Proof.
  assert (Hvs : parsed_values stod_fragment (data_values table_spread) 0
                = [1%float; infinity; neg_infinity])
    by (vm_compute; reflexivity).
  assert (Hsort : insertion_sort [1%float; infinity; neg_infinity]
                  = [neg_infinity; 1%float; infinity])
    by (vm_compute; reflexivity).
  split; [reflexivity|]. split; [reflexivity|]. split; [exact Hvs|]. split; [exact Hsort|].
  pose proof (quantile_extremes_without_nan stod_fragment insertion_sort
                table_spread "x" 0 FLOAT eq_refl eq_refl) as Hthm.
  cbv zeta in Hthm. rewrite Hvs, Hsort in Hthm.
  destruct Hthm as [Hmin Hmax].
  - discriminate.
  - discriminate.
  - simpl. lia.
  - rewrite <- Hsort. apply insertion_sort_perm.
  - intros i n a b Ha Hb.
    destruct i as [|[|[|i]]], n as [|[|[|n]]]; simpl in Ha, Hb; simplify_eq; reflexivity.
  - repeat constructor.
  - split; [apply Hmin|apply Hmax]; apply Exists_cons_hd; reflexivity.
Defined.

(** C6, as claimed: on every non-STRING column with a valid value the
    quantile at 0 would equal [min] and the quantile at 1 would equal
    [max].  A column whose only cell is [nan] has the quantile NaN,
    which equals nothing, and the [min] [DBL_MAX].  A column whose only
    cell is [inf], as [divide] writes it for [6 / 0], has the quantile
    infinity and the [min] [DBL_MAX]; with the cell [-inf], the
    quantile at 1 is minus infinity and the [max] the lowest finite
    double. *)
Lemma quantile_extremes_differ_on_nan_and_infinities :
  (column_types table_nan = [FLOAT] ∧
   valid_values stod_fragment table_nan 0 = [nan] ∧
   quantile stod_fragment insertion_sort table_nan "x" [0%float] = Ret [nan] ∧
   min stod_fragment table_nan "x" = Ret DBL_MAX ∧
   PrimFloat.eqb nan DBL_MAX = false) ∧
  (divide stod_fragment to_string_f table_six table_zero = Ret table_inf ∧
   column_types table_inf = [INT] ∧
   valid_values stod_fragment table_inf 0 = [infinity] ∧
   quantile stod_fragment insertion_sort table_inf "x" [0%float] = Ret [infinity] ∧
   min stod_fragment table_inf "x" = Ret DBL_MAX ∧
   PrimFloat.eqb infinity DBL_MAX = false) ∧
  (column_types table_neg_inf = [FLOAT] ∧
   valid_values stod_fragment table_neg_inf 0 = [neg_infinity] ∧
   quantile stod_fragment insertion_sort table_neg_inf "x" [1%float] = Ret [neg_infinity] ∧
   max stod_fragment table_neg_inf "x" = Ret DBL_LOWEST ∧
   PrimFloat.eqb neg_infinity DBL_LOWEST = false).
Proof. repeat split; vm_compute; reflexivity. Qed.

(** * Duplicates *)

Lemma find_column_index_elem_of df col_name :
  col_name ∈ data_features df → ∃ i, find_column_index df col_name = Ret i.
Proof.
  intros Hin. unfold find_column_index.
  destruct (list_find (λ f, f = col_name) (data_features df)) as [[i f]|] eqn:E.
  - by exists i.
  - apply list_find_None in E. rewrite Forall_forall in E. by destruct (E _ Hin).
Qed.

Lemma map_each_total {X Y} (f : X → outcome Y) (xs : list X) :
  Forall (λ x, ∃ y, f x = Ret y) xs → ∃ ys, map_each f xs = Ret ys.
Proof.
  induction 1 as [|x xs [y Hy] _ [ys Hys]].
  - by exists [].
  - exists (y :: ys). by rewrite map_each_cons, Hy, Hys.
Qed.

Lemma check_columns_of_total df subset :
  Forall (λ name, name ∈ data_features df) subset →
  ∃ cols, check_columns_of df subset = Ret cols.
Proof.
  intros Hall. unfold check_columns_of. case_decide; [by eexists|].
  apply map_each_total. eapply Forall_impl; [exact Hall|].
  intros name. apply find_column_index_elem_of.
Qed.

(** The marking loop computes [scan_marks] behind the rows already
    visited. *)
Lemma mark_loop cols rows : ∀ (k : nat) (visited : list bool) seen,
  length visited = k →
  (foldl (mark_step cols) (visited ++ replicate (length rows) false, seen)
         (zip (seq k (length rows)) rows)).1
  = visited ++ scan_marks cols seen rows.
Proof.
  induction rows as [|r rows IH]; intros k visited seen Hk; [done|].
  cbn [length seq zip zip_with foldl replicate scan_marks].
  unfold mark_step at 2. cbn [fst snd].
  destruct (decide (row_key cols r ∈ seen)).
  - rewrite insert_app_r_alt by lia.
    replace (k - length visited) with 0 by lia. cbn [insert list_insert].
    rewrite (cons_middle true visited), !app_assoc.
    rewrite (IH (S k) (visited ++ [true])) by (rewrite length_app; simpl; lia).
    by rewrite <- !app_assoc.
  - rewrite (cons_middle false visited), !app_assoc.
    rewrite (IH (S k) (visited ++ [false])) by (rewrite length_app; simpl; lia).
    by rewrite <- !app_assoc.
Qed.

Lemma scan_marks_length cols rows : ∀ seen,
  length (scan_marks cols seen rows) = length rows.
Proof.
  induction rows as [|r rows IH]; intros seen; [done|]. simpl.
  case_decide; simpl; by rewrite IH.
Qed.

Lemma duplicated_keep_first df subset cols :
  check_columns_of df subset = Ret cols →
  duplicated df subset true = Ret (scan_marks cols ∅ (data_values df)).
Proof.
  intros Hcols. unfold duplicated.
  rewrite Hcols. simpl. f_equal. unfold indexed.
  apply (mark_loop cols (data_values df) 0 [] ∅). done.
Qed.

(** The copying loop of [drop_duplicates] keeps the rows whose mark is
    clear. *)
Lemma keep_loop cols rows : ∀ (k : nat) (visited : list bool) seen kept,
  length visited = k →
  for_each (λ acc (ir : nat * list string),
              marked ← vec_at (visited ++ scan_marks cols seen rows) ir.1;
              Ret (if marked : bool then acc else acc ++ [ir.2]))
           kept (zip (seq k (length rows)) rows)
  = Ret (kept ++ scan_keep cols seen rows).
Proof.
  induction rows as [|r rows IH]; intros k visited seen kept Hk.
  - simpl. by rewrite app_nil_r.
  - cbn [length seq zip zip_with for_each scan_marks scan_keep fst snd].
    destruct (decide (row_key cols r ∈ seen)).
    + rewrite (vec_at_Some _ _ true)
        by (rewrite lookup_app_r by lia; by replace (k - length visited) with 0 by lia).
      simpl. rewrite (cons_middle true), app_assoc.
      apply (IH (S k) (visited ++ [true])). rewrite length_app. simpl. lia.
    + rewrite (vec_at_Some _ _ false)
        by (rewrite lookup_app_r by lia; by replace (k - length visited) with 0 by lia).
      simpl. rewrite (cons_middle false), app_assoc.
      rewrite (IH (S k) (visited ++ [false])) by (rewrite length_app; simpl; lia).
      by rewrite <- app_assoc.
Qed.

Lemma drop_duplicates_keep_first df subset cols :
  check_columns_of df subset = Ret cols →
  drop_duplicates df subset true =
  Ret (update_stats_after_modification
         (mk_vegaDataframe (data_features df) (scan_keep cols ∅ (data_values df))
                           [] (column_types df) [])).
Proof.
  intros Hcols. unfold drop_duplicates.
  rewrite (duplicated_keep_first df subset cols Hcols). simpl.
  unfold indexed.
  pose proof (keep_loop cols (data_values df) 0 [] ∅ [] eq_refl) as Hk.
  simpl in Hk. rewrite Hk. done.
Qed.

(** A second forward pass over the kept rows keeps all of them. *)
Lemma scan_keep_idempotent cols rows : ∀ seen,
  scan_keep cols seen (scan_keep cols seen rows) = scan_keep cols seen rows.
Proof.
  induction rows as [|r rows IH]; intros seen; [done|].
  cbn [scan_keep]. destruct (decide (row_key cols r ∈ seen)) as [Hin|Hout].
  - apply IH.
  - cbn [scan_keep]. rewrite decide_False by done. by rewrite IH.
Qed.

(** Marked and kept rows together are all the rows. *)
Lemma scan_marks_count cols rows : ∀ seen,
  length (filter (λ b, b = true) (scan_marks cols seen rows))
  + length (scan_keep cols seen rows) = length rows.
Proof.
  induction rows as [|r rows IH]; intros seen; [done|].
  cbn [scan_marks scan_keep]. destruct (decide (row_key cols r ∈ seen)).
  - rewrite filter_cons_True by done. simpl. by rewrite IH.
  - rewrite filter_cons_False by done. simpl.
    rewrite Nat.add_succ_r. by rewrite IH.
Qed.

(** C7 (duplicated, drop_duplicates with keep_first).  For a subset of
    the table's columns, [drop_duplicates] returns a table on which a
    second [drop_duplicates] returns that same table, and the number of
    rows that [duplicated] marks is the row count minus the number of
    rows of that table. *)
Theorem drop_duplicates_idempotent (df : vegaDataframe) (subset : list string) :
  Forall (λ name, name ∈ data_features df) subset →
  ∃ result mask,
    drop_duplicates df subset true = Ret result ∧
    drop_duplicates result subset true = Ret result ∧
    duplicated df subset true = Ret mask ∧
    length mask = length (data_values df) ∧
    length (filter (λ b, b = true) mask) =
      length (data_values df) - length (data_values result).
Proof.
  intros Hsubset.
  destruct (check_columns_of_total df subset Hsubset) as [cols Hcols].
  eexists _, _. split; [exact (drop_duplicates_keep_first df subset cols Hcols)|].
  split.
  - rewrite (drop_duplicates_keep_first _ subset cols) by exact Hcols.
    cbn [data_features data_values column_types update_stats_after_modification].
    by rewrite scan_keep_idempotent.
  - split; [exact (duplicated_keep_first df subset cols Hcols)|].
    split; [apply scan_marks_length|].
    cbn [data_values update_stats_after_modification].
    pose proof (scan_marks_count cols (data_values df) ∅). lia.
Qed.

(** Table [A] deduplicated on [key]: its two rows share the key [k]. *)
Lemma drop_duplicates_idempotent_witness :
  Forall (λ name, name ∈ data_features table_A) ["key"] ∧
  ∃ result mask,
    drop_duplicates table_A ["key"] true = Ret result ∧
    drop_duplicates result ["key"] true = Ret result ∧
    duplicated table_A ["key"] true = Ret mask ∧
    length mask = length (data_values table_A) ∧
    length (filter (λ b, b = true) mask) =
      length (data_values table_A) - length (data_values result).
Proof.
  assert (H : Forall (λ name, name ∈ data_features table_A) ["key"]).
  { repeat constructor. }
  split; [exact H|]. exact (drop_duplicates_idempotent table_A ["key"] H).
Defined.

(** * Element-wise division *)

(** A collecting loop over the indexed elements of a vector returns as
    soon as its body returns on every element, and the [j]-th result is
    the body's result on the [j]-th element. *)
Lemma map_each_zip_seq {X Y} (f : nat * X → outcome Y) (l : list X) : ∀ k,
  (∀ j x, l !! j = Some x → ∃ y, f (k + j, x) = Ret y) →
  ∃ ys, map_each f (zip (seq k (length l)) l) = Ret ys ∧
        length ys = length l ∧
        ∀ j x, l !! j = Some x → ∃ y, ys !! j = Some y ∧ f (k + j, x) = Ret y.
Proof.
  induction l as [|x l IH]; intros k Hf.
  - exists []. repeat split; done.
  - destruct (Hf 0 x eq_refl) as [y Hy]. rewrite Nat.add_0_r in Hy.
    destruct (IH (S k)) as (ys & Hys & Hlen & Hcells).
    { intros j x' Hx'. destruct (Hf (S j) x' Hx') as [y' Hy'].
      exists y'. by replace (S k + j) with (k + S j) by lia. }
    exists (y :: ys). cbn [length seq zip zip_with].
    rewrite map_each_cons, Hy. simpl. rewrite Hys. simpl.
    split; [done|]. split; [by rewrite Hlen|].
    intros [|j] x' Hx'; simpl in *.
    + injection Hx' as <-. exists y. by rewrite Nat.add_0_r.
    + destruct (Hcells j x' Hx') as (y' & ? & ?). exists y'.
      by replace (k + S j) with (S k + j) by lia.
Qed.

Lemma map_each_indexed {X Y} (f : nat * X → outcome Y) (l : list X) :
  (∀ j x, l !! j = Some x → ∃ y, f (j, x) = Ret y) →
  ∃ ys, map_each f (indexed l) = Ret ys ∧
        length ys = length l ∧
        ∀ j x, l !! j = Some x → ∃ y, ys !! j = Some y ∧ f (j, x) = Ret y.
Proof. apply (map_each_zip_seq f l 0). Qed.

Lemma divide_cell_total stod to_string df other other_row j cell :
  j < length (column_types df) → j < length (column_types other) →
  ∃ y, divide_cell stod to_string df other other_row (j, cell) = Ret y.
Proof.
  intros H1 H2. unfold divide_cell. cbn [fst snd].
  destruct (lookup_lt_is_Some_2 _ _ H1) as [ty Hty].
  destruct (lookup_lt_is_Some_2 _ _ H2) as [oty Hoty].
  destruct (other_row !! j); [|by eexists].
  rewrite (vec_at_Some _ _ _ Hty). simpl. case_decide; [by eexists|].
  rewrite (vec_at_Some _ _ _ Hoty). simpl. case_decide; [by eexists|].
  destruct (negb _); by eexists.
Qed.

Lemma divide_cell_Ret stod to_string df other other_row j cell y :
  divide_cell stod to_string df other other_row (j, cell) = Ret y →
  ((column_types df !! j = Some STRING ∨ column_types other !! j = Some STRING) →
   y = cell) ∧
  (∀ ty other_ty other_cell,
     column_types df !! j = Some ty → ty ≠ STRING →
     column_types other !! j = Some other_ty → other_ty ≠ STRING →
     other_row !! j = Some other_cell →
     PrimFloat.eqb (safe_stod stod other_cell) 0%float = true →
     y = "inf").
Proof.
  unfold divide_cell, vec_at. cbn [fst snd].
  destruct (other_row !! j) as [ocell|] eqn:Hocell.
  2:{ intros [= <-]. split; [done|]. intros; discriminate. }
  destruct (column_types df !! j) as [ty|] eqn:Hty; simpl; [|done].
  case_decide as Hs.
  { intros [= <-]. split; [done|]. intros ty' ? ? [= <-]. contradiction. }
  destruct (column_types other !! j) as [oty|] eqn:Hoty; simpl; [|done].
  case_decide as Hos.
  { intros [= <-]. split; [done|]. intros ? oty' ? _ _ [= <-]. contradiction. }
  intros Hy. split.
  - intros [[= ->]|[= ->]]; contradiction.
  - intros ? ? ocell' _ _ _ _ [= <-] Hz. rewrite Hz in Hy. simpl in Hy. congruence.
Qed.

(** C8 (divide).  Tables that differ in row count or in column count
    are refused with the shape error.  On tables of the same shape
    whose rows are covered by the recorded types, [divide] returns a
    table with the same rows cell for cell, where a cell of a column
    that either table records as STRING is the left table's cell, and
    a cell of a column that both record as numeric is the text [inf]
    whenever the right-hand cell converts to zero. *)
Theorem divide_shape_and_cells
    (stod : string → option float) (to_string : float → string)
    (df other : vegaDataframe) :
  ((length (data_values df) ≠ length (data_values other) ∨
    length (data_features df) ≠ length (data_features other)) →
   divide stod to_string df other =
     Throw "DataFrames must have same shape for arithmetic operations") ∧
  (shape df = shape other →
   Forall (λ row, length row ≤ length (column_types df) ∧
                  length row ≤ length (column_types other)) (data_values df) →
   ∃ result,
     divide stod to_string df other = Ret result ∧
     length (data_values result) = length (data_values df) ∧
     ∀ i j row cell,
       data_values df !! i = Some row → row !! j = Some cell →
       ∃ result_row y,
         data_values result !! i = Some result_row ∧
         length result_row = length row ∧
         result_row !! j = Some y ∧
         ((column_types df !! j = Some STRING ∨
           column_types other !! j = Some STRING) → y = cell) ∧
         (∀ ty other_ty other_row other_cell,
            column_types df !! j = Some ty → ty ≠ STRING →
            column_types other !! j = Some other_ty → other_ty ≠ STRING →
            data_values other !! i = Some other_row →
            other_row !! j = Some other_cell →
            PrimFloat.eqb (safe_stod stod other_cell) 0%float = true →
            y = "inf")).
Proof.
  split.
  - intros Hdiff. unfold divide. rewrite decide_True; [done|].
    unfold shape. intros [= ? ?]. destruct Hdiff; contradiction.
  - intros Hshape Hwf. unfold divide. rewrite decide_False by (by intros ?).
    injection Hshape as Hrows Hcols.
    set (body := λ ir : nat * list string,
           vec_at (data_values other) ir.1 ≫= λ other_row,
           map_each (divide_cell stod to_string df other other_row) (indexed ir.2)).
    destruct (map_each_indexed body (data_values df)) as (rows & Hret & Hlen & Hcells).
    { intros i row Hrow. unfold body. cbn [fst snd].
      assert (Hi : i < length (data_values other))
        by (rewrite <- Hrows; by eapply lookup_lt_Some).
      destruct (lookup_lt_is_Some_2 _ _ Hi) as [other_row Hother].
      rewrite (vec_at_Some _ _ _ Hother). simpl.
      destruct (map_each_indexed (divide_cell stod to_string df other other_row) row)
        as (ys & Hys & _).
      - intros j cell Hcell. apply lookup_lt_Some in Hcell.
        rewrite Forall_forall in Hwf.
        destruct (Hwf row) as [? ?]; [by eapply list_elem_of_lookup_2|].
        apply divide_cell_total; lia.
      - by exists ys. }
    fold body. rewrite Hret. simpl. eexists. split; [reflexivity|].
    cbn [data_values]. split; [done|].
    intros i j row cell Hrow Hcell.
    destruct (Hcells i row Hrow) as (result_row & Hres & Hbody).
    unfold body in Hbody. cbn [fst snd] in Hbody.
    destruct (data_values other !! i) as [other_row|] eqn:Hother;
      [rewrite (vec_at_Some _ _ _ Hother) in Hbody
      |unfold vec_at in Hbody; rewrite Hother in Hbody; done].
    simpl in Hbody.
    destruct (map_each_indexed (divide_cell stod to_string df other other_row) row)
      as (ys & Hys & Hyslen & Hyscells).
    { intros j' cell' Hcell'. apply lookup_lt_Some in Hcell'.
      rewrite Forall_forall in Hwf.
      destruct (Hwf row) as [? ?]; [by eapply list_elem_of_lookup_2|].
      apply divide_cell_total; lia. }
    rewrite Hys in Hbody. injection Hbody as <-.
    destruct (Hyscells j cell Hcell) as (y & Hy & Hdiv).
    exists ys, y. split; [done|]. split; [done|]. split; [done|].
    destruct (divide_cell_Ret _ _ _ _ _ _ _ _ Hdiv) as [Hpass Hinf].
    split; [exact Hpass|].
    intros ty other_ty other_row' other_cell ? ? ? ? [= <-] ? ?.
    eapply Hinf; eauto.
Qed.

(** [6 / 0] and [8 / 2] next to a text column. *)
Example divide_example :
  divide stod_fragment to_string_f table_num table_den =
  Ret (mk_vegaDataframe ["name"; "n"] [["a"; "inf"]; ["b"; "4.000000"]]
                        [2; 2] [STRING; INT] [[]; []]).
Proof. vm_compute. reflexivity. Qed.

(** The tables of [divide_example]. *)
Lemma divide_shape_and_cells_witness :
  Forall (λ row, length row ≤ length (column_types table_num) ∧
                 length row ≤ length (column_types table_den))
         (data_values table_num) ∧
  shape table_num = shape table_den ∧
  ∃ result,
    divide stod_fragment to_string_f table_num table_den = Ret result ∧
    length (data_values result) = length (data_values table_num) ∧
    data_values result = [["a"; "inf"]; ["b"; "4.000000"]].
Proof.
  assert (Hwf : Forall (λ row, length row ≤ length (column_types table_num) ∧
                               length row ≤ length (column_types table_den))
                       (data_values table_num)).
  { repeat constructor. }
  split; [exact Hwf|]. split; [reflexivity|].
  destruct (divide_shape_and_cells stod_fragment to_string_f table_num table_den)
    as [_ Hsame].
  destruct (Hsame eq_refl Hwf) as (result & Hret & Hlen & _).
  exists result. split; [exact Hret|]. split; [exact Hlen|].
  rewrite divide_example in Hret. by injection Hret as <-.
Defined.

(** * Comparisons *)

Lemma flip_all_lookup (m : list (list bool)) (i j : nat) :
  (flip_all m !! i) ≫= (λ row, row !! j) = negb <$> (m !! i) ≫= (λ row, row !! j).
Proof.
  unfold flip_all. rewrite list_lookup_fmap.
  destruct (m !! i) as [row|]; simpl; [|done].
  by rewrite list_lookup_fmap.
Qed.

(** C9, as the code has it.  [ne] returns the matrix of [eq] with every
    entry negated, [gt] the negated matrix of [le], and [ge] the negated
    matrix of [lt]: the loop variable of the negation loops is the
    proxy reference of [std::vector<bool>], so the assignment reaches
    the stored bit. *)
Theorem comparisons_are_negated (stod : string → option float) (df other : vegaDataframe) :
  ne df other = flip_all <$> eq df other ∧
  gt stod df other = flip_all <$> le stod df other ∧
  ge stod df other = flip_all <$> lt stod df other ∧
  ∀ (m : list (list bool)) (i j : nat),
    (flip_all m !! i) ≫= (λ row, row !! j) = negb <$> (m !! i) ≫= (λ row, row !! j).
Proof.
  split; [|split; [|split]].
  - unfold ne. by destruct (eq df other).
  - unfold gt. by destruct (le stod df other).
  - unfold ge. by destruct (lt stod df other).
  - apply flip_all_lookup.
Qed.

(** C9, as claimed: [ne] would return the same matrix as [eq], [gt]
    the same as [le], [ge] the same as [lt].  A one-row table compared
    with itself refutes all three. *)
Lemma negation_loops_take_effect :
  shape table_one_row = shape table_one_row ∧
  eq table_one_row table_one_row = Ret [[true; true]] ∧
  ne table_one_row table_one_row = Ret [[false; false]] ∧
  ne table_one_row table_one_row ≠ eq table_one_row table_one_row ∧
  gt stod_fragment table_one_row table_one_row ≠
    le stod_fragment table_one_row table_one_row ∧
  ge stod_fragment table_one_row table_one_row ≠
    lt stod_fragment table_one_row table_one_row.
Proof.
  do 3 (split; [vm_compute; reflexivity|]).
  repeat split; vm_compute; intros H; discriminate H.
Qed.

(** * Sampling *)

Lemma int_of_size_le (z : Z) : (0 ≤ z → int_of_size z ≤ z)%Z.
Proof.
  intros Hz. unfold int_of_size.
  assert (0 ≤ z `mod` 2 ^ 32 ≤ z)%Z.
  { split; [apply Z.mod_pos_bound; lia|apply Z.mod_le; lia]. }
  case_decide; lia.
Qed.

Lemma dis_upper_le df :
  1 ≤ length (data_values df) →
  (dis_upper df ≤ Z.of_nat (length (data_values df)) - 1)%Z.
Proof.
  intros Hrows. unfold dis_upper.
  set (z := (Z.of_nat (length (data_values df)) - 1)%Z).
  assert (0 ≤ z)%Z by lia.
  assert (0 ≤ z `mod` 2 ^ 64 ≤ z)%Z.
  { split; [apply Z.mod_pos_bound; lia|apply Z.mod_le; lia]. }
  pose proof (int_of_size_le (z `mod` 2 ^ 64)%Z). lia.
Qed.

(** When the row count fits the distribution's [int], the distribution
    ranges over [0 .. row_count - 1]. *)
Lemma dis_upper_exact df :
  1 ≤ length (data_values df) →
  (Z.of_nat (length (data_values df)) ≤ 2 ^ 31)%Z →
  dis_upper df = (Z.of_nat (length (data_values df)) - 1)%Z.
Proof.
  intros H1 H2. unfold dis_upper, int_of_size.
  rewrite (Z.mod_small _ (2 ^ 64)) by lia.
  rewrite (Z.mod_small _ (2 ^ 32)) by lia.
  case_decide; lia.
Qed.

(** On an empty table the bound wraps to [-1]: the distribution has no
    value to hand out, and the branch has no defined behaviour. *)
Lemma dis_upper_empty_table df :
  length (data_values df) = 0 → dis_upper df = (-1)%Z ∧ ∀ d, ¬ drawn_by df d.
Proof.
  intros H0. assert (E : dis_upper df = (-1)%Z).
  { unfold dis_upper. rewrite H0. reflexivity. }
  split; [done|]. intros d. unfold drawn_by. rewrite E. lia.
Qed.

Lemma int_of_size_lt (z : Z) : (int_of_size z < 2 ^ 31)%Z.
Proof.
  unfold int_of_size.
  pose proof (Z.mod_pos_bound z (2 ^ 32)). case_decide; lia.
Qed.

Lemma drawn_index_in_bounds df d :
  1 ≤ length (data_values df) → drawn_by df d →
  size_of_int d < length (data_values df).
Proof.
  intros Hrows [Hlo Hhi]. pose proof (dis_upper_le df Hrows).
  assert (dis_upper df < 2 ^ 31)%Z by apply int_of_size_lt.
  unfold size_of_int. rewrite Z.mod_small by lia. lia.
Qed.

Lemma map_each_vec_at {A} (v : list A) (picked : list nat) :
  Forall (λ idx, idx < length v) picked →
  ∃ rows, map_each (vec_at v) picked = Ret rows ∧
          Forall2 (λ idx row, v !! idx = Some row) picked rows.
Proof.
  induction 1 as [|idx picked Hidx _ (rows & Hrows & Hall)].
  - by exists [].
  - destruct (lookup_lt_is_Some_2 _ _ Hidx) as [row Hrow].
    exists (row :: rows). split; [|by constructor].
    rewrite map_each_cons, (vec_at_Some _ _ _ Hrow). simpl. by rewrite Hrows.
Qed.

(** C10 (sample, with replacement).  On a table with at least one row,
    whatever values within its bounds the distribution hands out, the
    call returns, and every row index it reads is below the row count;
    the rows of the result are the rows read.  When the row count fits
    an [int] the bounds are [0 .. row_count - 1]. *)
Theorem sample_with_replacement_in_bounds
    (df : vegaDataframe) (n : nat) (draws : nat → Z) (shuffled : list nat) :
  1 ≤ length (data_values df) →
  (∀ i, i < n → drawn_by df (draws i)) →
  ∃ result picked,
    sample df n true draws shuffled = Ret (result, picked) ∧
    length picked = n ∧
    Forall (λ idx, idx < length (data_values df)) picked ∧
    Forall2 (λ idx row, data_values df !! idx = Some row) picked (data_values result) ∧
    ((Z.of_nat (length (data_values df)) ≤ 2 ^ 31)%Z →
     dis_upper df = (Z.of_nat (length (data_values df)) - 1)%Z).
Proof.
  intros Hrows Hdraws. unfold sample.
  rewrite andb_false_r. simpl.
  set (picked := (λ i, size_of_int (draws i)) <$> seq 0 n).
  assert (Hpicked : Forall (λ idx, idx < length (data_values df)) picked).
  { apply Forall_fmap, Forall_forall. intros i Hi.
    apply elem_of_seq in Hi. simpl.
    apply drawn_index_in_bounds; [done|]. apply Hdraws. lia. }
  destruct (map_each_vec_at (data_values df) picked Hpicked) as (rows & Hrows' & Hall).
  rewrite Hrows'. simpl. eexists _, picked. split; [reflexivity|].
  split; [subst picked; by rewrite length_fmap, length_seq|].
  split; [done|]. split; [done|].
  intros. by apply dis_upper_exact.
Qed.

(** Three draws from the two rows of table [A]. *)
Lemma sample_with_replacement_witness :
  1 ≤ length (data_values table_A) ∧
  (∀ i, i < 3 → drawn_by table_A (alternating_draws i)) ∧
  ∃ result picked,
    sample table_A 3 true alternating_draws [] = Ret (result, picked) ∧
    length picked = 3 ∧
    Forall (λ idx, idx < length (data_values table_A)) picked ∧
    Forall2 (λ idx row, data_values table_A !! idx = Some row) picked (data_values result) ∧
    ((Z.of_nat (length (data_values table_A)) ≤ 2 ^ 31)%Z →
     dis_upper table_A = (Z.of_nat (length (data_values table_A)) - 1)%Z).
Proof.
  assert (Hrows : 1 ≤ length (data_values table_A)) by (simpl; lia).
  assert (Hdraws : ∀ i, i < 3 → drawn_by table_A (alternating_draws i)).
  { intros i _. unfold drawn_by, alternating_draws.
    change (dis_upper table_A) with 1%Z.
    pose proof (Nat.mod_upper_bound i 2). lia. }
  split; [exact Hrows|]. split; [exact Hdraws|].
  exact (sample_with_replacement_in_bounds table_A 3 alternating_draws [] Hrows Hdraws).
Defined.

(** * The refreshed statistics, column by column *)

Lemma stats_cells_lookup row c cells : ∀ k m st,
  let st' := foldl (stats_cell row) st (zip (seq k m) cells) in
  st'.1 !! c =
    (λ n, if decide (k ≤ c < k + m) then
            (if nonnull_at (c - k) cells then S n else n) else n) <$> st.1 !! c ∧
  st'.2 !! c =
    (λ ps, if decide (k ≤ c < k + m) then
            (if null_at (c - k) cells then ps ++ [row] else ps) else ps) <$> st.2 !! c.
Proof.
  induction cells as [|cell cells IH]; intros k m st; simpl.
  - destruct m; simpl; unfold nonnull_at, null_at; simpl;
      split; destruct (_ !! c); simpl; try done; by case_decide.
  - destruct m as [|m]; simpl.
    + split; destruct (_ !! c); simpl; try done; case_decide; try done; lia.
    + destruct (IH (S k) m (stats_cell row st (k, cell))) as [E1 E2].
      rewrite E1, E2. clear E1 E2 IH.
      unfold stats_cell, nonnull_at, null_at. simpl.
      destruct (decide (c = k)) as [->|Hne].
      * replace (k - k) with 0 by lia. simpl.
        destruct (is_empty cell); simpl; rewrite ?list_lookup_alter_eq;
          split; destruct (_ !! k); simpl; try done; f_equal;
          repeat case_decide; try done; lia.
      * destruct (is_empty cell); simpl; rewrite ?list_lookup_alter_ne by done;
          (destruct (decide (k < c)) as [Hlt|Hge];
           [replace (c - k) with (S (c - S k)) by lia; simpl|]);
          split; destruct (_ !! c); simpl; try done; f_equal;
          repeat case_decide; try done; lia.
Qed.

Lemma stats_row_lookup cc c st (r : nat * list string) :
  c < cc →
  (stats_row cc st r).1 !! c =
    (λ n, if nonnull_at c r.2 then S n else n) <$> st.1 !! c ∧
  (stats_row cc st r).2 !! c =
    (λ ps, if null_at c r.2 then ps ++ [r.1] else ps) <$> st.2 !! c.
Proof.
  intros Hc. unfold stats_row.
  destruct (stats_cells_lookup r.1 c r.2 0 cc st) as [E1 E2].
  rewrite E1, E2. replace (c - 0) with c by lia.
  destruct (st.1 !! c), (st.2 !! c); simpl; rewrite ?decide_True by lia; done.
Qed.

Lemma stats_rows_lookup cc c : ∀ (l : list (nat * list string)) st,
  c < cc →
  (foldl (stats_row cc) st l).1 !! c =
    (λ n, n + length (filter (λ row, nonnull_at c row) l.*2)) <$> st.1 !! c ∧
  (foldl (stats_row cc) st l).2 !! c =
    (λ ps, ps ++ (filter (λ ir : nat * list string, null_at c ir.2) l).*1) <$> st.2 !! c.
Proof.
  induction l as [|r l IH]; intros st Hc.
  - simpl. split.
    + destruct (st.1 !! c); simpl; [f_equal; lia|done].
    + destruct (st.2 !! c); simpl; [by rewrite app_nil_r|done].
  - simpl foldl. destruct (IH (stats_row cc st r) Hc) as [E1 E2].
    destruct (stats_row_lookup cc c st r Hc) as [F1 F2].
    rewrite E1, E2, F1, F2. clear.
    rewrite fmap_cons, !filter_cons.
    split.
    + destruct (st.1 !! c); simpl; [|done]. f_equal.
      destruct (nonnull_at c r.2); simpl; [lia|done].
    + destruct (st.2 !! c); simpl; [|done]. f_equal.
      destruct (null_at c r.2); simpl; [by rewrite <- app_assoc|done].
Qed.

Lemma stats_rows_length cc : ∀ (l : list (nat * list string)) st,
  length (foldl (stats_row cc) st l).1 = length st.1 ∧
  length (foldl (stats_row cc) st l).2 = length st.2.
Proof.
  assert (∀ row cells k m st,
    length (foldl (stats_cell row) st (zip (seq k m) cells)).1 = length st.1 ∧
    length (foldl (stats_cell row) st (zip (seq k m) cells)).2 = length st.2) as Hcells.
  { intros row cells. induction cells as [|cell cells IH]; intros k m st.
    - by destruct m.
    - destruct m as [|m]; [done|]. simpl.
      destruct (IH (S k) m (stats_cell row st (k, cell))) as [-> ->].
      apply stats_cell_length. }
  induction l as [|r l IH]; intros st; [done|].
  simpl. destruct (IH (stats_row cc st r)) as [-> ->]. apply Hcells.
Qed.

(** The statistics that a refresh computes, column by column. *)
Lemma stats_of_spec cc rows :
  stats_of cc rows = (count_nonnull rows <$> seq 0 cc, null_rows rows <$> seq 0 cc).
Proof.
  unfold stats_of.
  destruct (stats_rows_length cc (indexed rows)
              (replicate cc 0, replicate cc [])) as [L1 L2].
  simpl in L1, L2. rewrite length_replicate in L1. rewrite length_replicate in L2.
  destruct (foldl _ _ _) as [counts nulls] eqn:E. simpl in L1, L2.
  f_equal.
  - apply list_eq. intros c.
    destruct (decide (c < cc)) as [Hc|Hc].
    + destruct (stats_rows_lookup cc c (indexed rows)
                  (replicate cc 0, replicate cc []) Hc) as [E1 _].
      rewrite E in E1. simpl in E1. rewrite E1.
      rewrite lookup_replicate_2 by done. simpl.
      rewrite list_lookup_fmap, lookup_seq_lt by done. simpl.
      by rewrite indexed_snd.
    + rewrite !lookup_ge_None_2; [done|rewrite length_fmap, length_seq; lia|lia].
  - apply list_eq. intros c.
    destruct (decide (c < cc)) as [Hc|Hc].
    + destruct (stats_rows_lookup cc c (indexed rows)
                  (replicate cc 0, replicate cc []) Hc) as [_ E2].
      rewrite E in E2. simpl in E2. rewrite E2.
      rewrite lookup_replicate_2 by done. simpl.
      by rewrite list_lookup_fmap, lookup_seq_lt by done.
    + rewrite !lookup_ge_None_2; [done|rewrite length_fmap, length_seq; lia|lia].
Qed.

Lemma update_stats_fields df :
  data_features (update_stats_after_modification df) = data_features df ∧
  data_values (update_stats_after_modification df) = data_values df ∧
  column_types (update_stats_after_modification df) = column_types df.
Proof. done. Qed.

Lemma update_stats_idem df :
  fresh (update_stats_after_modification df).
Proof. done. Qed.

(** A refresh depends on the column names only through their number,
    and not at all on the stale statistics. *)
Lemma update_stats_ext fs1 fs2 rows c1 c2 tys n1 n2 :
  length fs1 = length fs2 →
  non_null_counts (update_stats_after_modification
                     (mk_vegaDataframe fs1 rows c1 tys n1)) =
  non_null_counts (update_stats_after_modification
                     (mk_vegaDataframe fs2 rows c2 tys n2)) ∧
  null_positions (update_stats_after_modification
                     (mk_vegaDataframe fs1 rows c1 tys n1)) =
  null_positions (update_stats_after_modification
                     (mk_vegaDataframe fs2 rows c2 tys n2)).
Proof. unfold update_stats_after_modification. simpl. by intros ->. Qed.

Lemma null_rows_elem_of rows c i :
  i ∈ null_rows rows c ↔ ∃ row, rows !! i = Some row ∧ row !! c = Some "".
Proof.
  unfold null_rows. rewrite list_elem_of_fmap. split.
  - intros ([j row] & -> & Hin). apply list_elem_of_filter in Hin as [Hnull Hin].
    simpl in *. exists row. split.
    + unfold indexed in Hin. apply list_elem_of_lookup in Hin as [k Hk].
      apply lookup_zip_with_Some in Hk as (a & b & Hab & Ha & Hb).
      injection Hab as -> ->.
      apply lookup_seq in Ha as [-> _]. done.
    + unfold null_at in Hnull. destruct (row !! c) as [cell|]; [|done].
      by destruct cell.
  - intros (row & Hrow & Hcell). exists (i, row). split; [done|].
    apply list_elem_of_filter. split.
    + simpl. unfold null_at. by rewrite Hcell.
    + unfold indexed. apply list_elem_of_lookup. exists i.
      apply lookup_zip_with_Some. exists i, row. split; [done|]. split; [|done].
      apply lookup_seq. split; [done|]. by eapply lookup_lt_Some.
Qed.

(** X1 (update_stats_after_modification).  After a refresh the count of
    column [c] is the number of rows that hold a non-empty cell at
    position [c], and its null positions are, in increasing order, the
    indices of the rows that hold an empty cell there; a row that ends
    before [c] is in neither.  Names, cells and types are untouched. *)
Theorem update_stats_column_statistics df c :
  c < length (data_features df) →
  let df' := update_stats_after_modification df in
  non_null_counts df' !! c = Some (count_nonnull (data_values df) c) ∧
  null_positions df' !! c = Some (null_rows (data_values df) c) ∧
  (∀ i, i ∈ null_rows (data_values df) c ↔
        ∃ row, data_values df !! i = Some row ∧ row !! c = Some "") ∧
  length (non_null_counts df') = length (data_features df) ∧
  length (null_positions df') = length (data_features df) ∧
  data_features df' = data_features df ∧
  data_values df' = data_values df ∧
  column_types df' = column_types df.
Proof.
  intros Hc df'. subst df'. unfold update_stats_after_modification. simpl.
  rewrite stats_of_spec. simpl.
  rewrite !list_lookup_fmap, !length_fmap, length_seq, lookup_seq_lt by done.
  simpl. split; [done|]. split; [done|]. split; [|done].
  intros i. apply null_rows_elem_of.
Qed.

Lemma update_stats_column_statistics_witness :
  1 < length (data_features table_scores) ∧
  non_null_counts (update_stats_after_modification table_scores) !! 1 = Some 4 ∧
  null_positions (update_stats_after_modification table_scores) !! 1 = Some [1].
Proof.
  split; [simpl; lia|].
  destruct (update_stats_column_statistics table_scores 1) as (H1 & H2 & _);
    [simpl; lia|].
  split; [exact H1|exact H2].
Defined.

(** * Text utilities *)

Lemma string_app_cons (x : ascii) (a b : string) :
  String.append (String x a) b = String x (String.append a b).
Proof. reflexivity. Qed.

Lemma string_app_nil_l (a : string) : String.append "" a = a.
Proof. reflexivity. Qed.

Lemma string_app_assoc (a b c : string) :
  String.append (String.append a b) c = String.append a (String.append b c).
Proof.
  induction a as [|x a IH]; [done|]. by rewrite !string_app_cons, IH.
Qed.

Lemma string_app_nil_r (a : string) : String.append a "" = a.
Proof.
  induction a as [|x a IH]; [done|]. by rewrite string_app_cons, IH.
Qed.

Lemma is_empty_app_char token c : is_empty (String.append token (String c "")) = false.
Proof. by destruct token. Qed.

(** The loop with a token in progress, in terms of the loop started
    afresh. *)
Lemma getline_tokens_spec d : ∀ unread token,
  getline_tokens d token unread =
  match getline_tokens d "" unread with
  | [] => if is_empty token then [] else [token]
  | t :: ts => String.append token t :: ts
  end.
Proof.
  induction unread as [|c rest IH]; intros token.
  - done.
  - cbn [getline_tokens]. case_bool_decide as Hc.
    + by rewrite string_app_nil_r.
    + rewrite (IH (String.append token (String c ""))), (IH (String.append "" (String c ""))).
      destruct (getline_tokens d "" rest) as [|t ts].
      * by rewrite is_empty_app_char.
      * by rewrite !string_app_assoc.
Qed.

Lemma split_string_cons c rest d :
  split_string (String c rest) d =
  if bool_decide (c = d) then "" :: split_string rest d
  else match split_string rest d with
       | [] => [String c ""]
       | t :: ts => String c t :: ts
       end.
Proof.
  unfold split_string. cbn [getline_tokens]. case_bool_decide; [done|].
  rewrite getline_tokens_spec. by destruct (getline_tokens d "" rest).
Qed.

Lemma split_string_nil s d : split_string s d = [] ↔ s = "".
Proof.
  split; [|by intros ->].
  destruct s as [|c rest]; [done|]. rewrite split_string_cons.
  case_bool_decide; [done|]. by destruct (split_string rest d).
Qed.

Lemma join_strings_cons x y l d :
  join_strings (x :: y :: l) d = String.append x (String.append d (join_strings (y :: l) d)).
Proof.
  unfold join_strings. simpl. revert x y.
  induction l as [|z l IH]; intros x y; simpl.
  - done.
  - rewrite IH. rewrite (IH y z). by rewrite !string_app_assoc.
Qed.

Lemma join_strings_push c t ts d :
  join_strings (String c t :: ts) d = String c (join_strings (t :: ts) d).
Proof.
  destruct ts as [|y l]; [done|]. by rewrite !join_strings_cons.
Qed.

Lemma last_char_cons c rest :
  rest ≠ "" → last_char (String c rest) = last_char rest.
Proof. unfold last_char. by destruct rest. Qed.

Lemma join_split_both s d :
  (last_char s ≠ Some d → join_strings (split_string s d) (String d "") = s) ∧
  join_strings (split_string (String.append s (String d "")) d) (String d "") = s.
Proof.
  induction s as [|c rest [IH1 IH2]].
  - split; [done|].
    rewrite string_app_nil_l, split_string_cons, bool_decide_true by done. done.
  - rewrite string_app_cons, !split_string_cons. case_bool_decide as Hc.
    + subst c. split.
      * intros Hlast. destruct (decide (rest = "")) as [->|Hne]; [done|].
        rewrite last_char_cons in Hlast by done.
        destruct (split_string rest d) as [|y l] eqn:E.
        { by apply split_string_nil in E. }
        rewrite join_strings_cons, (IH1 Hlast). done.
      * destruct (split_string (String.append rest (String d "")) d) as [|y l] eqn:E.
        { apply split_string_nil in E. by destruct rest. }
        rewrite join_strings_cons, IH2. done.
    + split.
      * intros Hlast. destruct (split_string rest d) as [|t ts] eqn:E.
        { apply split_string_nil in E. by subst. }
        rewrite join_strings_push. f_equal. apply IH1.
        rewrite last_char_cons in Hlast; [done|]. intros ->. done.
      * destruct (split_string (String.append rest (String d "")) d) as [|y l] eqn:E.
        { apply split_string_nil in E. by destruct rest. }
        by rewrite join_strings_push, IH2.
Qed.

Lemma split_string_no_delimiter s d :
  Forall (λ token, d ∉ list_ascii_of_string token) (split_string s d).
Proof.
  induction s as [|c rest IH]; [constructor|].
  rewrite split_string_cons. case_bool_decide as Hc.
  - constructor; [|done]. simpl. apply not_elem_of_nil.
  - destruct (split_string rest d) as [|t ts].
    + constructor; [|done]. simpl. rewrite list_elem_of_singleton. congruence.
    + apply Forall_cons in IH as [Ht Hts]. constructor; [|done].
      simpl. rewrite not_elem_of_cons. split; [congruence|done].
Qed.

(** X3 (split_string, join_strings).  Joining the tokens of a text with
    the delimiter gives the text back, unless the text ends with the
    delimiter: one final delimiter is lost, so that a text followed by
    a delimiter splits and joins to the text alone.  No token contains
    the delimiter, and only the empty text has no token. *)
Theorem split_then_join s d :
  (last_char s ≠ Some d → join_strings (split_string s d) (String d "") = s) ∧
  join_strings (split_string (String.append s (String d "")) d) (String d "") = s ∧
  Forall (λ token, d ∉ list_ascii_of_string token) (split_string s d) ∧
  (split_string s d = [] ↔ s = "").
Proof.
  destruct (join_split_both s d) as [H1 H2].
  split; [done|]. split; [done|]. split.
  - apply split_string_no_delimiter.
  - apply split_string_nil.
Qed.

Lemma find_first_decomposed pre a rest :
  blank pre → a ∉ whitespace →
  find_first_not_of (pre ++ a :: rest) whitespace = Some (length pre).
Proof.
  intros Hpre Ha. unfold find_first_not_of.
  assert (list_find (λ c, c ∉ whitespace) (pre ++ a :: rest) = Some (length pre, a)) as ->;
    [|done].
  apply list_find_Some. split; [|split; [done|]].
  - by rewrite lookup_app_r, Nat.sub_diag by lia.
  - intros j y Hj Hlt Hy. rewrite lookup_app_l in Hj by done.
    unfold blank in Hpre. rewrite Forall_forall in Hpre.
    apply Hy, Hpre. by eapply list_elem_of_lookup_2.
Qed.

Lemma find_first_blank cs :
  blank cs → find_first_not_of cs whitespace = None.
Proof.
  intros Hcs. unfold find_first_not_of.
  assert (list_find (λ c, c ∉ whitespace) cs = None) as ->; [|done].
  apply list_find_None. eapply Forall_impl; [exact Hcs|]. simpl. tauto.
Qed.

Lemma find_last_decomposed front b post :
  blank post → b ∉ whitespace →
  find_last_not_of (front ++ b :: post) whitespace = Some (length front).
Proof.
  intros Hpost Hb. unfold find_last_not_of.
  assert (list_find (λ c, c ∉ whitespace) (reverse (front ++ b :: post))
          = Some (length post, b)) as ->.
  { rewrite reverse_app, reverse_cons, <- app_assoc. simpl.
    apply list_find_Some. split; [|split; [done|]].
    - by rewrite lookup_app_r, length_reverse, Nat.sub_diag by (rewrite length_reverse; lia).
    - intros j y Hj Hlt Hy. rewrite lookup_app_l in Hj by (by rewrite length_reverse).
      unfold blank in Hpost. rewrite Forall_forall in Hpost.
      apply Hy, Hpost. apply elem_of_reverse. by eapply list_elem_of_lookup_2. }
  simpl. f_equal. rewrite length_app. simpl. lia.
Qed.

(** Where a text stands between two runs of white space and itself
    starts and ends with another character, trimming returns it. *)
Lemma trim_decomposed pre mid post :
  blank pre → blank post → trimmed mid →
  trim_whitespace (string_of_list_ascii (pre ++ mid ++ post)) = string_of_list_ascii mid.
Proof.
  intros Hpre Hpost Hmid. unfold trim_whitespace.
  rewrite list_ascii_of_string_of_list_ascii.
  destruct mid as [|a mid'].
  - rewrite find_first_blank; [done|]. apply Forall_app. by split.
  - destruct Hmid as (Ha & b & Hlast & Hb).
    apply last_Some in Hlast as [front Hfront].
    simpl. rewrite find_first_decomposed by done.
    change (a :: mid' ++ post) with ((a :: mid') ++ post).
    rewrite Hfront, <- app_assoc, app_assoc. simpl.
    rewrite find_last_decomposed by done.
    f_equal. unfold substr.
    rewrite <- app_assoc, drop_app_length.
    rewrite length_app.
    replace (length pre + length front - length pre + 1) with (length (front ++ [b]))
      by (rewrite length_app; simpl; lia).
    rewrite (cons_middle b front post), app_assoc.
    by rewrite take_app_length, <- Hfront.
Qed.

Lemma blank_prefix cs :
  blank cs ∨ ∃ pre a rest, cs = pre ++ a :: rest ∧ blank pre ∧ (a ∉ whitespace).
Proof.
  induction cs as [|c cs IH]; [left; constructor|].
  destruct (decide (c ∈ whitespace)) as [Hc|Hc].
  - destruct IH as [Hall|(pre & a & rest & -> & Hpre & Ha)].
    + left. by constructor.
    + right. exists (c :: pre), a, rest. split; [done|]. split; [by constructor|done].
  - right. exists [], c, cs. split; [done|]. split; [constructor|done].
Qed.

(** Every text is white space, then a trimmed text, then white space. *)
Lemma trim_decomposition cs :
  ∃ pre mid post, cs = pre ++ mid ++ post ∧ blank pre ∧ blank post ∧ trimmed mid.
Proof.
  destruct (blank_prefix cs) as [Hall|(pre & a & rest & -> & Hpre & Ha)].
  - exists cs, [], []. rewrite app_nil_r. split; [done|]. split; [done|].
    split; [constructor|done].
  - destruct (blank_prefix (reverse (a :: rest))) as [Hall|(tsop & b & tnorf & Hrev & Hpost & Hb)].
    + exfalso. unfold blank in Hall. rewrite Forall_forall in Hall.
      apply Ha, Hall, elem_of_reverse. by left.
    + apply (f_equal reverse) in Hrev.
      rewrite reverse_involutive, reverse_app, reverse_cons, <- app_assoc in Hrev.
      exists pre, (reverse tnorf ++ [b]), (reverse tsop).
      split; [by rewrite Hrev, <- !app_assoc|]. split; [done|]. split.
      * unfold blank. by apply Forall_reverse.
      * assert (∃ m, reverse tnorf ++ [b] = a :: m) as [m Hm].
        { destruct (reverse tnorf) as [|x m]; simpl in *.
          - injection Hrev as -> _. by exists [].
          - injection Hrev as -> _. by eexists. }
        unfold trimmed. rewrite Hm. split; [done|]. exists b. split; [|done].
        rewrite <- Hm. apply last_snoc.
Qed.

Lemma split_then_join_witness :
  split_string "a,,b," ","%char = ["a"; ""; "b"] ∧
  join_strings (split_string "a,,b" ","%char) "," = "a,,b" ∧
  join_strings (split_string "a,,b," ","%char) "," = "a,,b".
Proof.
  destruct (split_then_join "a,,b" ","%char) as (H1 & H2 & _).
  split; [reflexivity|]. split; [by apply H1|exact H2].
Defined.

Lemma trim_whitespace_spec (s : string) :
  ∃ pre mid post,
    chars s = pre ++ mid ++ post ∧ blank pre ∧ blank post ∧ trimmed mid ∧
    trim_whitespace s = string_of_list_ascii mid.
Proof.
  destruct (trim_decomposition (chars s)) as (pre & mid & post & Hs & Hpre & Hpost & Hmid).
  exists pre, mid, post. split; [done|]. split; [done|]. split; [done|]. split; [done|].
  rewrite <- (string_of_list_ascii_of_string s). fold (chars s). rewrite Hs.
  by apply trim_decomposed.
Qed.

Lemma trim_whitespace_idem (s : string) :
  trim_whitespace (trim_whitespace s) = trim_whitespace s.
Proof.
  destruct (trim_whitespace_spec s) as (pre & mid & post & _ & _ & _ & Hmid & ->).
  pose proof (trim_decomposed [] mid [] (Forall_nil_2 _) (Forall_nil_2 _) Hmid) as H.
  by rewrite app_nil_r in H.
Qed.

(** X4 (trim_whitespace).  The result neither starts nor ends with a
    blank, tab, carriage return or line feed; the argument is the
    result between two runs of such characters; trimming twice is
    trimming once; and the result is empty exactly when the argument
    holds nothing else. *)
Theorem trim_whitespace_strips_both_ends (s : string) :
  trimmed (chars (trim_whitespace s)) ∧
  (∃ pre post, blank pre ∧ blank post ∧
               chars s = pre ++ chars (trim_whitespace s) ++ post) ∧
  trim_whitespace (trim_whitespace s) = trim_whitespace s ∧
  (trim_whitespace s = "" ↔ blank (chars s)).
Proof.
  destruct (trim_whitespace_spec s)
    as (pre & mid & post & Hs & Hpre & Hpost & Hmid & Htrim).
  rewrite Htrim. unfold chars at 1 2 3. rewrite list_ascii_of_string_of_list_ascii.
  split; [done|]. split; [by exists pre, post|]. split.
  - pose proof (trim_decomposed [] mid [] (Forall_nil_2 _) (Forall_nil_2 _) Hmid) as H.
    by rewrite app_nil_r in H.
  - split.
    + intros Hempty. apply (f_equal list_ascii_of_string) in Hempty.
      rewrite list_ascii_of_string_of_list_ascii in Hempty. simpl in Hempty. subst mid.
      rewrite Hs. apply Forall_app. by split.
    + intros Hblank. rewrite Hs in Hblank.
      apply Forall_app in Hblank as [_ Hblank]. apply Forall_app in Hblank as [Hblank _].
      destruct mid as [|a m]; [done|]. destruct Hmid as [Ha _].
      apply Forall_cons in Hblank as [Hin _]. done.
Qed.

(** * Reading a CSV stream *)

Section ReadCsvFacts.

Context (reads_double : string → bool).

Lemma read_cells_spec row_index row_tokens df : ∀ n,
  let st := foldl (read_cell reads_double row_index row_tokens) (df, []) (seq 0 n) in
  st.2 = cell_at row_tokens <$> seq 0 n ∧
  data_features st.1 = data_features df ∧
  data_values st.1 = data_values df ∧
  (∀ c, non_null_counts st.1 !! c =
        (λ k, if decide (c < n) then
                if is_empty (cell_at row_tokens c) then k else S k
              else k) <$> non_null_counts df !! c) ∧
  (∀ c, null_positions st.1 !! c =
        (λ ps, if decide (c < n) then
                 if is_empty (cell_at row_tokens c) then ps ++ [row_index] else ps
               else ps) <$> null_positions df !! c) ∧
  (∀ c, column_types st.1 !! c =
        (λ ty, if decide (c < n) then widen reads_double ty [cell_at row_tokens c]
               else ty) <$> column_types df !! c).
Proof.
  induction n as [|n IH].
  - simpl. split; [done|]. split; [done|]. split; [done|].
    split; [|split]; intros c; by destruct (_ !! c).
  - rewrite seq_S, foldl_app. simpl.
    destruct IH as (E2 & Ef & Ev & Ec & En & Et).
    destruct (foldl _ _ (seq 0 n)) as [df1 row1]. simpl in *.
    unfold read_cell. simpl. fold (cell_at row_tokens n).
    split; [by rewrite fmap_app, E2|].
    destruct (is_empty (cell_at row_tokens n)) eqn:Hempty; simpl.
    + split; [done|]. split; [done|]. split; [|split]; intros c.
      * rewrite Ec. destruct (non_null_counts df !! c); simpl; [|done]. f_equal.
        destruct (decide (c = n)) as [->|Hne].
        -- rewrite Hempty. by repeat case_decide.
        -- repeat case_decide; try done; lia.
      * destruct (decide (c = n)) as [->|Hne].
        -- rewrite list_lookup_alter_eq, En.
           destruct (null_positions df !! n); simpl; [|done]. f_equal.
           rewrite Hempty. repeat case_decide; try done; lia.
        -- rewrite list_lookup_alter_ne by done. rewrite En.
           destruct (null_positions df !! c); simpl; [|done]. f_equal.
           repeat case_decide; try done; lia.
      * rewrite Et. destruct (column_types df !! c); simpl; [|done]. f_equal.
        destruct (decide (c = n)) as [->|Hne].
        -- unfold widen. simpl. rewrite Hempty. by repeat case_decide.
        -- repeat case_decide; try done; lia.
    + split; [done|]. split; [done|]. split; [|split]; intros c.
      * destruct (decide (c = n)) as [->|Hne].
        -- rewrite list_lookup_alter_eq, Ec.
           destruct (non_null_counts df !! n); simpl; [|done]. f_equal.
           rewrite Hempty. repeat case_decide; try done; lia.
        -- rewrite list_lookup_alter_ne by done. rewrite Ec.
           destruct (non_null_counts df !! c); simpl; [|done]. f_equal.
           repeat case_decide; try done; lia.
      * rewrite En. destruct (null_positions df !! c); simpl; [|done]. f_equal.
        destruct (decide (c = n)) as [->|Hne].
        -- rewrite Hempty. by repeat case_decide.
        -- repeat case_decide; try done; lia.
      * destruct (decide (c = n)) as [->|Hne].
        -- rewrite list_lookup_alter_eq, Et.
           destruct (column_types df !! n); simpl; [|done]. f_equal.
           unfold widen. simpl. rewrite Hempty.
           repeat case_decide; try done; lia.
        -- rewrite list_lookup_alter_ne by done. rewrite Et.
           destruct (column_types df !! c); simpl; [|done]. f_equal.
           repeat case_decide; try done; lia.
Qed.

Lemma indexed_snoc {A} (l : list A) (x : A) :
  indexed (l ++ [x]) = indexed l ++ [(length l, x)].
Proof.
  unfold indexed. rewrite length_app. simpl.
  rewrite Nat.add_1_r, seq_S. simpl.
  rewrite zip_with_app by (by rewrite length_seq). done.
Qed.

Lemma count_nonnull_snoc rows row c :
  count_nonnull (rows ++ [row]) c =
  count_nonnull rows c + (if nonnull_at c row then 1 else 0).
Proof.
  unfold count_nonnull. rewrite filter_app, length_app. f_equal.
  rewrite filter_cons, filter_nil. by destruct (nonnull_at c row).
Qed.

Lemma null_rows_snoc rows row c :
  null_rows (rows ++ [row]) c =
  null_rows rows c ++ (if null_at c row then [length rows] else []).
Proof.
  unfold null_rows. rewrite indexed_snoc, filter_app, fmap_app. f_equal.
  rewrite filter_cons, filter_nil. simpl. by destruct (null_at c row).
Qed.

Lemma read_line_loaded df line :
  loaded reads_double df →
  loaded reads_double (read_line reads_double df (length (data_values df), line)) ∧
  data_features (read_line reads_double df (length (data_values df), line))
    = data_features df ∧
  length (data_values (read_line reads_double df (length (data_values df), line)))
    = S (length (data_values df)).
Proof.
  intros (Hrect & Hcounts & Hnulls & Htypes).
  unfold read_line. cbn [fst snd].
  destruct (read_cells_spec (length (data_values df))
              (split_string line ",") df (length (data_features df)))
    as (E2 & Ef & Ev & Ec & En & Et).
  destruct (foldl _ _ _) as [df1 row1]. cbn [fst snd] in *.
  set (cc := length (data_features df)) in *.
  assert (Hrow : ∀ c, c < cc → row1 !! c = Some (cell_at (split_string line ",") c)).
  { intros c Hc. rewrite E2, list_lookup_fmap, lookup_seq_lt by done. done. }
  split; [|split; [done|simpl; rewrite Ev, length_app; simpl; lia]].
  unfold loaded, rectangular. simpl. rewrite Ef, Ev. fold cc.
  split; [|split; [|split]].
  - apply Forall_app. split; [done|]. apply Forall_singleton.
    by rewrite E2, length_fmap, length_seq.
  - apply list_eq. intros c. rewrite Ec, Hcounts.
    rewrite !list_lookup_fmap.
    destruct (decide (c < cc)) as [Hc|Hc].
    + rewrite lookup_seq_lt by done. simpl. f_equal.
      rewrite count_nonnull_snoc. unfold nonnull_at. rewrite (Hrow c Hc).
      rewrite ?decide_True by done.
      destruct (is_empty _); simpl; lia.
    + by rewrite lookup_seq_ge by lia.
  - apply list_eq. intros c. rewrite En, Hnulls.
    rewrite !list_lookup_fmap.
    destruct (decide (c < cc)) as [Hc|Hc].
    + rewrite lookup_seq_lt by done. simpl. f_equal.
      rewrite null_rows_snoc. unfold null_at. rewrite (Hrow c Hc).
      rewrite ?decide_True by done.
      destruct (is_empty _); simpl; [done|by rewrite app_nil_r].
    + by rewrite lookup_seq_ge by lia.
  - apply list_eq. intros c. rewrite Et, Htypes.
    rewrite !list_lookup_fmap.
    destruct (decide (c < cc)) as [Hc|Hc].
    + rewrite lookup_seq_lt by done. simpl. f_equal.
      rewrite ?decide_True by done.
      unfold column_lub, column_cells, widen. simpl.
      rewrite fmap_app, foldl_app. simpl. by rewrite (Hrow c Hc).
    + by rewrite lookup_seq_ge by lia.
Qed.

Lemma read_lines_loaded : ∀ lines df,
  loaded reads_double df →
  let df' := foldl (read_line reads_double) df
                   (zip (seq (length (data_values df)) (length lines)) lines) in
  loaded reads_double df' ∧ data_features df' = data_features df ∧
  length (data_values df') = length (data_values df) + length lines.
Proof.
  induction lines as [|line lines IH]; intros df Hdf.
  - simpl. split; [done|]. split; [done|lia].
  - cbn [length seq zip zip_with foldl].
    destruct (read_line_loaded df line Hdf) as (H1 & H2 & H3).
    specialize (IH _ H1). rewrite H3 in IH. cbn zeta in IH.
    destruct IH as (I1 & I2 & I3). split; [done|]. split; [congruence|].
    rewrite I3. simpl. lia.
Qed.

Lemma cell_at_trimmed row_tokens i :
  trim_whitespace (cell_at row_tokens i) = cell_at row_tokens i.
Proof.
  unfold cell_at. destruct (row_tokens !! i); [apply trim_whitespace_idem|done].
Qed.

(** The rows that the loop over the data lines appends. *)
Lemma read_lines_rows : ∀ lines k df,
  let df' := foldl (read_line reads_double) df (zip (seq k (length lines)) lines) in
  data_features df' = data_features df ∧
  data_values df' =
    data_values df ++
    ((λ line, cell_at (split_string line ",") <$> seq 0 (length (data_features df)))
       <$> lines).
Proof.
  induction lines as [|line lines IH]; intros k df.
  - simpl. by rewrite app_nil_r.
  - cbn [length seq zip zip_with foldl fmap list_fmap].
    destruct (IH (S k) (read_line reads_double df (k, line))) as [I1 I2].
    cbn zeta. rewrite I1, I2. clear IH I1 I2.
    unfold read_line. cbn [fst snd].
    destruct (read_cells_spec k (split_string line ",") df (length (data_features df)))
      as (E2 & Ef & Ev & _).
    destruct (foldl _ _ _) as [df1 row1]. cbn [fst snd] in *. simpl.
    rewrite Ef, Ev, E2. split; [done|]. by rewrite <- app_assoc.
Qed.

Lemma loaded_fresh df :
  loaded reads_double df → length (column_types df) = length (data_features df) ∧ fresh df.
Proof.
  intros (Hrect & Hcounts & Hnulls & Htypes). split.
  - by rewrite Htypes, length_fmap, length_seq.
  - unfold fresh, update_stats_after_modification. rewrite stats_of_spec. simpl.
    rewrite <- Hcounts, <- Hnulls. by destruct df.
Qed.

(** X2 (read_csv).  Whatever the text of the file, the table that
    [read_csv] builds has one row per line after the header, made of
    the trimmed comma-separated tokens of the line, padded with empty
    cells or cut to the number of columns; so every row has one cell
    per column.  Its statistics are those a refresh would compute, the
    type of every column is [INT] widened over its non-empty cells, and
    no column name is empty or carries surrounding white space. *)
Theorem read_csv_builds_consistent_table (content : string) :
  let df := read_csv reads_double content in
  rectangular df ∧
  fresh df ∧
  length (column_types df) = length (data_features df) ∧
  (∀ c, c < length (data_features df) →
        column_types df !! c = Some (column_lub reads_double df c)) ∧
  data_values df =
    (λ line, cell_at (split_string line ",") <$> seq 0 (length (data_features df)))
      <$> tail (split_string content "010"%char) ∧
  Forall (λ feature, feature ≠ "" ∧ trim_whitespace feature = feature)
         (data_features df) ∧
  Forall (Forall (λ cell, trim_whitespace cell = cell)) (data_values df).
Proof.
  intros df. subst df. unfold read_csv.
  set (lines := split_string content "010"%char).
  set (features := match lines with
                   | header_line :: _ => header_features header_line
                   | [] => []
                   end).
  set (start := mk_vegaDataframe features [] (replicate (length features) 0)
                  (replicate (length features) INT) (replicate (length features) [])).
  assert (Hstart : loaded reads_double start).
  { unfold loaded, rectangular, start. simpl.
    split; [done|]. split; [|split]; apply list_eq; intros c;
      rewrite list_lookup_fmap;
      (destruct (decide (c < length features)) as [Hc|Hc];
       [rewrite lookup_replicate_2, lookup_seq_lt by done; done
       |rewrite lookup_seq_ge by lia;
        by rewrite lookup_ge_None_2 by (rewrite length_replicate; lia)]). }
  destruct (read_lines_loaded (tail lines) start Hstart) as (H1 & H2 & H3).
  change (zip (seq (length (data_values start)) (length (tail lines))) (tail lines))
    with (indexed (tail lines)) in *.
  destruct (loaded_fresh _ H1) as [H4 H5].
  destruct H1 as (Hrect & Hcounts & Hnulls & Htypes).
  split; [done|]. split; [done|]. split; [done|].
  destruct (read_lines_rows (tail lines) 0 start) as [_ Hrows].
  change (zip (seq 0 (length (tail lines))) (tail lines))
    with (indexed (tail lines)) in Hrows.
  cbn zeta in Hrows. rewrite <- H2 in Hrows. simpl in Hrows.
  split; [|split; [done|split]].
  - intros c Hc. rewrite Htypes, list_lookup_fmap, lookup_seq_lt by done. done.
  - rewrite H2. simpl. unfold features. destruct lines as [|header_line ?]; [done|].
    unfold header_features. apply Forall_forall. intros f Hf.
    apply list_elem_of_filter in Hf as [Hf Hin]. split; [by destruct f|].
    apply list_elem_of_fmap in Hin as (token & -> & _). apply trim_whitespace_idem.
  - rewrite Hrows. apply Forall_fmap, Forall_forall. intros line _. simpl.
    apply Forall_fmap, Forall_forall. intros i _. simpl. apply cell_at_trimmed.
Qed.

End ReadCsvFacts.

(** * Columns *)

Lemma find_column_index_Ret df col_name i :
  find_column_index df col_name = Ret i ↔
  data_features df !! i = Some col_name ∧
  ∀ j, j < i → data_features df !! j ≠ Some col_name.
Proof.
  unfold find_column_index.
  destruct (list_find (λ f, f = col_name) (data_features df)) as [[k f]|] eqn:E.
  - apply list_find_Some in E as (Hk & -> & Hbefore). split.
    + intros [= <-]. split; [done|]. intros j Hj Hfj. by eapply Hbefore.
    + intros [Hi Hfirst]. f_equal.
      destruct (Nat.lt_trichotomy i k) as [Hlt|[->|Hgt]]; [|done|].
      * by destruct (Hbefore i col_name Hi Hlt).
      * by destruct (Hfirst k Hgt).
  - split; [done|]. intros [Hi _].
    apply list_find_None in E. rewrite Forall_forall in E.
    destruct (E col_name); [|done]. by eapply list_elem_of_lookup_2.
Qed.

Lemma find_column_index_Throw df col_name w :
  find_column_index df col_name = Throw w ↔
  (col_name ∉ data_features df) ∧ w = String.append "Column not found: " col_name.
Proof.
  unfold find_column_index.
  destruct (list_find (λ f, f = col_name) (data_features df)) as [[k f]|] eqn:E.
  - apply list_find_Some in E as (Hk & -> & _). split; [done|].
    intros [Hout _]. destruct Hout. by eapply list_elem_of_lookup_2.
  - apply list_find_None in E. rewrite Forall_forall in E. split.
    + intros [= <-]. split; [|done]. intros Hin. by apply (E _ Hin).
    + by intros [_ ->].
Qed.

Lemma find_column_index_lt df col_name i :
  find_column_index df col_name = Ret i → i < length (data_features df).
Proof. intros [Hi _]%find_column_index_Ret. by eapply lookup_lt_Some. Qed.

Lemma find_column_index_defined df col_name :
  find_column_index df col_name ≠ Undef.
Proof. unfold find_column_index. by destruct (list_find _ _) as [[? ?]|]. Qed.

(** The column lookup depends on the names only. *)
Lemma find_column_index_features df1 df2 col_name :
  data_features df1 = data_features df2 →
  find_column_index df1 col_name = find_column_index df2 col_name.
Proof. unfold find_column_index. by intros ->. Qed.

(** X5 (find_column_index).  The lookup returns the position of the
    first column that bears the name, so that with two columns of one
    name the later one is never found; it throws
    ["Column not found: " + name] exactly when no column bears the
    name, and it has no other outcome. *)
Theorem find_column_index_first_match df col_name :
  (∀ i, find_column_index df col_name = Ret i ↔
        data_features df !! i = Some col_name ∧
        ∀ j, j < i → data_features df !! j ≠ Some col_name) ∧
  (∀ w, find_column_index df col_name = Throw w ↔
        (col_name ∉ data_features df) ∧
        w = String.append "Column not found: " col_name) ∧
  find_column_index df col_name ≠ Undef.
Proof.
  split; [|split].
  - intros i. apply find_column_index_Ret.
  - intros w. apply find_column_index_Throw.
  - apply find_column_index_defined.
Qed.

Lemma column_cells_lookup df c r :
  column_cells df c !! r = (λ row, default "" (row !! c)) <$> data_values df !! r.
Proof. unfold column_cells. by rewrite list_lookup_fmap. Qed.

(** X6 (get_column, at, iat).  When a column bears the name, at the
    position [col_idx] that the lookup finds, [get_column(name)]
    returns for every row its cell at [col_idx], and the empty text for
    a row that ends before [col_idx]; [at(r, name)] returns the same
    for the row [r] and throws ["Row index out of range"] when there is
    no such row.  When no column bears the name, both throw
    ["Column not found: " + name]. *)
Theorem get_column_agrees_with_at df col_name :
  (col_name ∈ data_features df →
   ∃ col_idx,
     find_column_index df col_name = Ret col_idx ∧
     get_column df col_name
       = Ret ((λ row, default "" (row !! col_idx)) <$> data_values df) ∧
     ∀ r, at_ df r col_name =
          match data_values df !! r with
          | Some row => Ret (default "" (row !! col_idx))
          | None => Throw "Row index out of range"
          end) ∧
  (col_name ∉ data_features df →
   get_column df col_name = Throw (String.append "Column not found: " col_name) ∧
   ∀ r, at_ df r col_name = Throw (String.append "Column not found: " col_name)).
Proof.
  unfold get_column, at_.
  destruct (find_column_index df col_name) as [col_idx|w|] eqn:E.
  - pose proof (find_column_index_lt _ _ _ E) as Hlt.
    apply find_column_index_Ret in E as [Hname _].
    split; [|intros Hout; destruct Hout; by eapply list_elem_of_lookup_2].
    intros _. exists col_idx. split; [done|].
    rewrite !outcome_bind_Ret. unfold get_column_at. rewrite decide_False by lia.
    split; [done|].
    intros r. rewrite outcome_bind_Ret. unfold iat.
    destruct (data_values df !! r) as [row|] eqn:Hrow.
    + apply lookup_lt_Some in Hrow as Hr.
      rewrite decide_False by lia. rewrite decide_False by lia.
      by rewrite (vec_at_Some _ _ _ Hrow).
    + apply lookup_ge_None_1 in Hrow. by rewrite decide_True by lia.
  - apply find_column_index_Throw in E as [Hout ->].
    split; [intros Hin; by destruct Hout|]. intros _. done.
  - by apply find_column_index_defined in E.
Qed.

(** The column [b] of the table whose second row ends before it, and
    a name that no column bears. *)
Lemma get_column_agrees_with_at_witness :
  "b" ∈ data_features ragged_table ∧
  data_values ragged_table = [["1"; "2"]; ["x"]] ∧
  get_column ragged_table "b" = Ret ["2"; ""] ∧
  at_ ragged_table 0 "b" = Ret "2" ∧
  at_ ragged_table 1 "b" = Ret "" ∧
  at_ ragged_table 2 "b" = Throw "Row index out of range" ∧
  ("c" ∉ data_features ragged_table) ∧
  get_column ragged_table "c" = Throw "Column not found: c" ∧
  at_ ragged_table 0 "c" = Throw "Column not found: c".
Proof.
  assert (Hb : "b" ∈ data_features ragged_table).
  { apply (list_elem_of_lookup_2 _ 1). reflexivity. }
  assert (Hc : "c" ∉ data_features ragged_table).
  { intros Hin. apply list_elem_of_lookup_1 in Hin as [i Hi].
    destruct i as [|[|i]]; simpl in Hi; discriminate. }
  destruct (get_column_agrees_with_at ragged_table "b") as [Hfound _].
  destruct (Hfound Hb) as (col_idx & Hidx & Hcol & Hat).
  assert (col_idx = 1) as -> by (vm_compute in Hidx; congruence).
  destruct (get_column_agrees_with_at ragged_table "c") as [_ Hmissing].
  destruct (Hmissing Hc) as [Hcol' Hat'].
  split; [exact Hb|]. split; [reflexivity|].
  split; [exact Hcol|].
  split; [exact (Hat 0)|]. split; [exact (Hat 1)|]. split; [exact (Hat 2)|].
  split; [exact Hc|]. split; [exact Hcol'|exact (Hat' 0)].
Defined.

(** ** add_column *)

Lemma vec_modify_inv {A} (f : A → A) (i : nat) (v v' : list A) :
  vec_modify f i v = Ret v' → i < length v ∧ v' = alter f i v.
Proof. unfold vec_modify. case_decide; [|done]. by intros [= <-]. Qed.

(** The statistics that the loop of [add_column] leaves at the
    position it updates. *)
Lemma add_column_loop_stats col_idx : ∀ values k df df',
  for_each (add_column_step col_idx) df (zip (seq k (length values)) values) = Ret df' →
  non_null_counts df' =
    alter (λ n, n + length (filter (λ v, is_empty v = false) values))
          col_idx (non_null_counts df) ∧
  null_positions df' =
    alter (λ ps, ps ++ (filter (λ iv : nat * string, is_empty iv.2 = true)
                               (zip (seq k (length values)) values)).*1)
          col_idx (null_positions df).
Proof.
  induction values as [|v values IH]; intros k df df' Hloop.
  - simpl in Hloop. injection Hloop as <-. simpl. split.
    + symmetry. apply list_alter_id. intros; lia.
    + symmetry. apply list_alter_id. intros. by rewrite app_nil_r.
  - cbn [length seq zip zip_with for_each] in Hloop.
    destruct (add_column_step col_idx df (k, v)) as [df1| |] eqn:Hstep; [|done..].
    simpl in Hloop. destruct (IH _ _ _ Hloop) as [-> ->]. clear IH Hloop.
    unfold add_column_step in Hstep. cbn [fst snd] in Hstep.
    destruct (vec_modify _ k (data_values df)) as [rows| |]; [|done..].
    simpl in Hstep. cbn [length seq zip zip_with]. rewrite !filter_cons. simpl.
    destruct (is_empty v) eqn:Hv.
    + destruct (vec_modify _ col_idx (null_positions df)) as [nulls| |] eqn:Hn; [|done..].
      apply vec_modify_inv in Hn as [_ ->]. simpl in Hstep. injection Hstep as <-. simpl.
      split; [done|].
      rewrite list_alter_alter_eq. apply list_alter_ext; [|done].
      intros ps _. simpl. by rewrite <- app_assoc.
    + destruct (vec_modify _ col_idx (non_null_counts df)) as [counts| |] eqn:Hn; [|done..].
      apply vec_modify_inv in Hn as [_ ->]. simpl in Hstep. injection Hstep as <-. simpl.
      split; [|done].
      rewrite list_alter_alter_eq. apply list_alter_ext; [|done].
      intros n _. simpl. lia.
Qed.

(** Two lists whose elements satisfy two predicates at the same
    positions have as many hits, at the same positions. *)
Lemma filter_related {A B} (P : A → Prop) (Q : B → Prop)
    `{!∀ x, Decision (P x)} `{!∀ y, Decision (Q y)} (xs : list A) (ys : list B) :
  Forall2 (λ x y, P x ↔ Q y) xs ys →
  length (filter P xs) = length (filter Q ys) ∧
  ∀ k, (filter (λ ix : nat * A, P ix.2) (zip (seq k (length xs)) xs)).*1 =
       (filter (λ iy : nat * B, Q iy.2) (zip (seq k (length ys)) ys)).*1.
Proof.
  induction 1 as [|x y xs ys Hxy _ [IH1 IH2]]; [done|].
  split.
  - rewrite !filter_cons.
    destruct (decide (P x)) as [HP|HP], (decide (Q y)) as [HQ|HQ]; try tauto.
    simpl. by rewrite IH1.
  - intros k. cbn [length seq zip zip_with]. rewrite !filter_cons. cbn [fst snd].
    destruct (decide (P x)) as [HP|HP], (decide (Q y)) as [HQ|HQ]; try tauto.
    + rewrite !fmap_cons. f_equal. apply IH2.
    + apply IH2.
Qed.

Lemma count_nonnull_related c d rows rows' :
  Forall2 (λ r r', nonnull_at c r = nonnull_at d r') rows rows' →
  count_nonnull rows c = count_nonnull rows' d.
Proof.
  intros Hrel. unfold count_nonnull.
  apply (filter_related (λ r, nonnull_at c r) (λ r, nonnull_at d r)).
  eapply Forall2_impl; [exact Hrel|]. intros r r' ->. done.
Qed.

Lemma null_rows_related c d rows rows' :
  Forall2 (λ r r', null_at c r = null_at d r') rows rows' →
  null_rows rows c = null_rows rows' d.
Proof.
  intros Hrel. unfold null_rows, indexed.
  destruct (filter_related (λ r, null_at c r) (λ r, null_at d r) rows rows') as [_ H];
    [|apply H].
  eapply Forall2_impl; [exact Hrel|]. intros r r' ->. done.
Qed.

Lemma fresh_stats df :
  fresh df ↔
  non_null_counts df = count_nonnull (data_values df) <$> seq 0 (length (data_features df)) ∧
  null_positions df = null_rows (data_values df) <$> seq 0 (length (data_features df)).
Proof.
  unfold fresh, update_stats_after_modification. rewrite stats_of_spec. simpl.
  destruct df as [fs rows counts tys nulls]. simpl. split.
  - by intros [= <- <-].
  - by intros [<- <-].
Qed.

Lemma add_column_result df col_name values :
  length values = length (data_values df) →
  length (data_features df) ≤ length (non_null_counts df) →
  length (data_features df) ≤ length (null_positions df) →
  add_column df col_name values =
  Ret (mk_vegaDataframe
         (data_features df ++ [col_name])
         (zip_with (λ r v, r ++ [v]) (data_values df) values)
         (alter (λ n, n + length (filter (λ v, is_empty v = false) values))
                (length (data_features df)) (non_null_counts df ++ [0]))
         (column_types df ++ [STRING])
         (alter (λ ps, ps ++ (filter (λ iv : nat * string, is_empty iv.2 = true)
                                     (indexed values)).*1)
                (length (data_features df)) (null_positions df ++ [[]]))).
Proof.
  intros Hlen Hc Hn. unfold add_column. rewrite decide_False by lia.
  cbn zeta. cbn [data_features]. rewrite length_app. simpl.
  replace (length (data_features df) + 1 - 1) with (length (data_features df)) by lia.
  set (df1 := mk_vegaDataframe _ _ _ _ _).
  destruct (add_column_loop (length (data_features df)) values 0 df1 [] (data_values df))
    as (df' & Hloop & Hf & Ht & Hv); [done|done|done|..].
  { simpl. rewrite length_app. simpl. lia. }
  { simpl. rewrite length_app. simpl. lia. }
  unfold indexed. rewrite Hloop.
  destruct (add_column_loop_stats _ _ _ _ _ Hloop) as [Hcounts Hnulls].
  f_equal. destruct df'. simpl in *. by subst.
Qed.

Lemma snoc_rows_old (rows : list (list string)) values cc :
  Forall (λ row, length row = cc) rows → length values = length rows →
  Forall2 (λ r' r, length r' = S cc ∧ ∀ c, c < cc → r' !! c = r !! c)
          (zip_with (λ r v, r ++ [v]) rows values) rows.
Proof.
  intros Hrect. revert values.
  induction Hrect as [|row rows Hrow _ IH]; intros [|v values] Hlen; try done.
  simpl. constructor.
  - split; [rewrite length_app; simpl; lia|].
    intros c Hc. by rewrite lookup_app_l by lia.
  - apply IH. by injection Hlen.
Qed.

Lemma snoc_rows_new (rows : list (list string)) values cc :
  Forall (λ row, length row = cc) rows → length values = length rows →
  Forall2 (λ r' v, r' !! cc = Some v)
          (zip_with (λ r v, r ++ [v]) rows values) values.
Proof.
  intros Hrect. revert values.
  induction Hrect as [|row rows Hrow _ IH]; intros [|v values] Hlen; try done.
  simpl. constructor.
  - by rewrite lookup_app_r, Hrow, Nat.sub_diag by lia.
  - apply IH. by injection Hlen.
Qed.

Lemma fresh_lengths df :
  fresh df →
  length (non_null_counts df) = length (data_features df) ∧
  length (null_positions df) = length (data_features df).
Proof.
  intros [-> ->]%fresh_stats. by rewrite !length_fmap, length_seq.
Qed.

(** X7 (add_column, get_column).  On a table whose rows all have one
    cell per column and whose statistics are up to date, adding a
    column under a new name succeeds when there is one value per row;
    reading the column back by its name returns the values, every other
    column reads as before, and the table is again rectangular with
    statistics equal to those a refresh would compute. *)
Theorem add_column_then_get_column df col_name values :
  rectangular df → fresh df →
  length values = length (data_values df) →
  col_name ∉ data_features df →
  ∃ df',
    add_column df col_name values = Ret df' ∧
    get_column df' col_name = Ret values ∧
    (∀ other, other ∈ data_features df → get_column df' other = get_column df other) ∧
    rectangular df' ∧ fresh df'.
Proof.
  intros Hrect Hfresh Hlen Hnew.
  destruct (fresh_lengths df Hfresh) as [Lc Ln].
  eexists. split; [apply add_column_result; lia|].
  set (cc := length (data_features df)).
  pose proof (snoc_rows_old _ values cc Hrect Hlen) as Hold.
  pose proof (snoc_rows_new _ values cc Hrect Hlen) as Hnew_col.
  set (rows' := zip_with (λ r v, r ++ [v]) (data_values df) values) in *.
  split; [|split; [|split]].
  - unfold get_column.
    assert (find_column_index
              (mk_vegaDataframe (data_features df ++ [col_name]) rows'
                 (alter (λ n, n + length (filter (λ v, is_empty v = false) values)) cc
                        (non_null_counts df ++ [0]))
                 (column_types df ++ [STRING])
                 (alter (λ ps, ps ++ (filter (λ iv : nat * string, is_empty iv.2 = true)
                                             (indexed values)).*1) cc
                        (null_positions df ++ [[]]))) col_name = Ret cc) as ->.
    { apply find_column_index_Ret. simpl. split.
      - by rewrite lookup_app_r, Nat.sub_diag by done.
      - intros j Hj Hlook. rewrite lookup_app_l in Hlook by done.
        apply Hnew. by eapply list_elem_of_lookup_2. }
    simpl. unfold get_column_at. simpl. rewrite length_app. simpl.
    rewrite decide_False by (fold cc; lia). f_equal.
    unfold column_cells. simpl. clear -Hnew_col.
    induction Hnew_col as [|r' v rs vs Hv _ IH]; [done|].
    rewrite fmap_cons, Hv, IH. done.
  - intros other Hother. unfold get_column.
    destruct (find_column_index_elem_of df other Hother) as [i Hi].
    assert (Hilt := find_column_index_lt _ _ _ Hi). fold cc in Hilt.
    assert (find_column_index
              (mk_vegaDataframe (data_features df ++ [col_name]) rows'
                 (alter (λ n, n + length (filter (λ v, is_empty v = false) values)) cc
                        (non_null_counts df ++ [0]))
                 (column_types df ++ [STRING])
                 (alter (λ ps, ps ++ (filter (λ iv : nat * string, is_empty iv.2 = true)
                                             (indexed values)).*1) cc
                        (null_positions df ++ [[]]))) other = Ret i) as ->.
    { apply find_column_index_Ret in Hi as [Hi1 Hi2].
      apply find_column_index_Ret. simpl. split.
      - by rewrite lookup_app_l by done.
      - intros j Hj. rewrite lookup_app_l by (fold cc; lia). by apply Hi2. }
    rewrite Hi. simpl. unfold get_column_at. simpl. rewrite length_app. simpl.
    fold cc. rewrite !decide_False by lia. f_equal.
    unfold column_cells. simpl. clear -Hold Hilt.
    induction Hold as [|r' r rs' rs [_ Hr] _ IH]; [done|].
    rewrite !fmap_cons, (Hr i Hilt), IH. done.
  - unfold rectangular. simpl. rewrite length_app. simpl. fold cc.
    rewrite Nat.add_1_r. clear -Hold.
    induction Hold as [|r' r rs' rs [Hr _] _ IH]; constructor; done.
  - apply fresh_stats. simpl. rewrite length_app. simpl. fold cc.
    rewrite Nat.add_1_r, seq_S, !fmap_app. simpl.
    apply fresh_stats in Hfresh as [Hc Hn]. fold cc in Hc, Hn.
    rewrite !alter_app_r_alt by lia. rewrite Lc, Ln. fold cc.
    rewrite Nat.sub_diag. simpl. split; f_equal.
    + rewrite Hc. apply list_fmap_ext. intros k c Hc'.
      apply lookup_seq in Hc' as [-> Hk]. simpl. symmetry.
      apply count_nonnull_related.
      eapply Forall2_impl; [exact Hold|]. intros r' r [_ Hr]. simpl in Hr.
      unfold nonnull_at. by rewrite Hr.
    + f_equal. symmetry. unfold count_nonnull.
      apply (filter_related (λ r, nonnull_at cc r) (λ v, is_empty v = false)).
      eapply Forall2_impl; [exact Hnew_col|]. intros r' v Hv. simpl in Hv.
      unfold nonnull_at. rewrite Hv. by destruct (is_empty v).
    + rewrite Hn. apply list_fmap_ext. intros k c Hc'.
      apply lookup_seq in Hc' as [-> Hk]. simpl. symmetry.
      apply null_rows_related.
      eapply Forall2_impl; [exact Hold|]. intros r' r [_ Hr]. simpl in Hr.
      unfold null_at. by rewrite Hr.
    + f_equal. symmetry. unfold null_rows, indexed.
      destruct (filter_related (λ r, null_at cc r) (λ v, is_empty v = true)
                  rows' values) as [_ H]; [|apply H].
      eapply Forall2_impl; [exact Hnew_col|]. intros r' v Hv. simpl in Hv.
      unfold null_at. rewrite Hv. by destruct (is_empty v).
Qed.

Lemma add_column_then_get_column_witness :
  ∃ df', add_column table_one_row "city" ["x"] = Ret df' ∧
         get_column df' "city" = Ret ["x"] ∧ get_column df' "n" = Ret ["1"] ∧
         fresh df'.
Proof.
  destruct (add_column_then_get_column table_one_row "city" ["x"])
    as (df' & H1 & H2 & H3 & _ & H5).
  - repeat constructor.
  - reflexivity.
  - reflexivity.
  - intros Hin. repeat (apply elem_of_cons in Hin as [Hin|Hin]; [done|]).
    by apply elem_of_nil in Hin.
  - exists df'. split; [exact H1|]. split; [exact H2|]. split; [|exact H5].
    rewrite H3; [reflexivity|]. right. left.
Defined.

(** ** insert_column and drop_column *)

Lemma vec_insert_Ret {A} (pos : nat) (x : A) (v : list A) :
  pos ≤ length v → vec_insert pos x v = Ret (take pos v ++ x :: drop pos v).
Proof. intros Hpos. unfold vec_insert. by rewrite decide_True. Qed.

Lemma vec_erase_Ret {A} (pos : nat) (v : list A) :
  pos < length v → vec_erase pos v = Ret (delete pos v).
Proof. intros Hpos. unfold vec_erase. by rewrite decide_True. Qed.

Lemma delete_inserted {A} (pos : nat) (x : A) (v : list A) :
  pos ≤ length v → delete pos (take pos v ++ x :: drop pos v) = v.
Proof.
  intros Hpos.
  rewrite <- (length_take_le v pos) at 1 by done.
  by rewrite delete_middle, take_drop.
Qed.

Lemma alter_inserted {A} (f : A → A) (pos : nat) (x : A) (v : list A) :
  pos ≤ length v →
  alter f pos (take pos v ++ x :: drop pos v) = take pos v ++ f x :: drop pos v.
Proof.
  intros Hpos. rewrite alter_app_r_alt by (rewrite length_take; lia).
  by rewrite length_take_le, Nat.sub_diag by done.
Qed.

Lemma lookup_inserted {A} (pos : nat) (x : A) (v : list A) :
  pos ≤ length v → (take pos v ++ x :: drop pos v) !! pos = Some x.
Proof.
  intros Hpos. rewrite lookup_app_r by (rewrite length_take; lia).
  by rewrite length_take_le, Nat.sub_diag by done.
Qed.

Lemma insert_column_step_Ret pos df k v pre row rest :
  data_values df = pre ++ row :: rest → length pre = k →
  pos ≤ length row →
  pos < length (non_null_counts df) →
  pos < length (null_positions df) →
  insert_column_step pos df (k, v) =
  Ret (mk_vegaDataframe
         (data_features df)
         ((pre ++ [take pos row ++ v :: drop pos row]) ++ rest)
         (if is_empty v then non_null_counts df else alter S pos (non_null_counts df))
         (column_types df)
         (if is_empty v then alter (λ ps, ps ++ [k]) pos (null_positions df)
          else null_positions df)).
Proof.
  intros Hrows Hk Hrow Hc Hn. unfold insert_column_step. cbn [fst snd].
  rewrite (vec_at_Some _ _ row)
    by (by rewrite Hrows, lookup_app_r, Hk, Nat.sub_diag by lia).
  rewrite outcome_bind_Ret, vec_insert_Ret, outcome_bind_Ret by done.
  assert (Hins : <[k := take pos row ++ v :: drop pos row]> (data_values df)
                 = (pre ++ [take pos row ++ v :: drop pos row]) ++ rest).
  { rewrite Hrows, insert_app_r_alt by lia.
    replace (k - length pre) with 0 by lia. simpl. by rewrite <- app_assoc. }
  cbn zeta. rewrite Hins.
  destruct (is_empty v); by rewrite vec_modify_Ret, outcome_bind_Ret by done.
Qed.

Lemma insert_column_loop pos : ∀ values k df pre rest,
  data_values df = pre ++ rest → length pre = k →
  length rest = length values →
  Forall (λ row, pos ≤ length row) rest →
  pos < length (non_null_counts df) →
  pos < length (null_positions df) →
  for_each (insert_column_step pos) df (zip (seq k (length values)) values) =
  Ret (mk_vegaDataframe
         (data_features df)
         (pre ++ zip_with (λ r v, take pos r ++ v :: drop pos r) rest values)
         (alter (λ n, n + length (filter (λ v, is_empty v = false) values))
                pos (non_null_counts df))
         (column_types df)
         (alter (λ ps, ps ++ (filter (λ iv : nat * string, is_empty iv.2 = true)
                                     (zip (seq k (length values)) values)).*1)
                pos (null_positions df))).
Proof.
  induction values as [|v values IH]; intros k df pre rest Hrows Hk Hlen Hwide Hc Hn.
  - destruct rest; [|done]. simpl. f_equal. destruct df; simpl in *. f_equal.
    + done.
    + symmetry. apply list_alter_id. intros; lia.
    + symmetry. apply list_alter_id. intros. by rewrite app_nil_r.
  - destruct rest as [|row rest]; [done|]. injection Hlen as Hlen.
    apply Forall_cons in Hwide as [Hrow Hwide].
    cbn [length seq zip zip_with for_each].
    rewrite (insert_column_step_Ret pos df k v pre row rest) by done.
    rewrite outcome_bind_Ret.
    rewrite (IH (S k) _ (pre ++ [take pos row ++ v :: drop pos row]) rest);
      [|done|rewrite length_app; simpl; lia|done|done
       |simpl; destruct (is_empty v); by rewrite ?length_alter
       |simpl; destruct (is_empty v); by rewrite ?length_alter].
    rewrite !filter_cons. cbn [fst snd data_features data_values non_null_counts
                               column_types null_positions zip_with].
    f_equal. destruct (is_empty v) eqn:Hv; simpl; f_equal.
    + by rewrite <- app_assoc.
    + rewrite list_alter_alter_eq. apply list_alter_ext; [|done].
      intros ps _. simpl. by rewrite <- app_assoc.
    + by rewrite <- app_assoc.
    + rewrite list_alter_alter_eq. apply list_alter_ext; [|done].
      intros n _. simpl. lia.
Qed.

Lemma insert_column_result df pos col_name values :
  pos ≤ length (data_features df) →
  length values = length (data_values df) →
  Forall (λ row, pos ≤ length row) (data_values df) →
  pos ≤ length (column_types df) →
  pos ≤ length (non_null_counts df) →
  pos ≤ length (null_positions df) →
  insert_column df pos col_name values =
  Ret (mk_vegaDataframe
         (take pos (data_features df) ++ col_name :: drop pos (data_features df))
         (zip_with (λ r v, take pos r ++ v :: drop pos r) (data_values df) values)
         (take pos (non_null_counts df)
            ++ length (filter (λ v, is_empty v = false) values)
            :: drop pos (non_null_counts df))
         (take pos (column_types df) ++ STRING :: drop pos (column_types df))
         (take pos (null_positions df)
            ++ (filter (λ iv : nat * string, is_empty iv.2 = true) (indexed values)).*1
            :: drop pos (null_positions df))).
Proof.
  intros Hpos Hlen Hwide Ht Hc Hn. unfold insert_column.
  rewrite decide_False by lia. rewrite decide_False by lia.
  rewrite !vec_insert_Ret, !outcome_bind_Ret by done.
  unfold indexed.
  rewrite (insert_column_loop pos values 0 _ [] (data_values df));
    [|done|done|done|done|simpl; rewrite length_app, length_take; simpl; lia..].
  simpl. by rewrite !alter_inserted by done.
Qed.

(** X8 (insert_column, drop_column).  Inserting a column under a new
    name at a position that every row and every schema vector reaches
    succeeds when there is one value per row; the name and the values
    are then found at that position, and dropping the column by its
    name gives back the original table, statistics included. *)
Theorem insert_then_drop_column df pos col_name values :
  pos ≤ length (data_features df) →
  length values = length (data_values df) →
  Forall (λ row, pos ≤ length row) (data_values df) →
  pos ≤ length (column_types df) →
  pos ≤ length (non_null_counts df) →
  pos ≤ length (null_positions df) →
  col_name ∉ data_features df →
  ∃ df1,
    insert_column df pos col_name values = Ret df1 ∧
    data_features df1 !! pos = Some col_name ∧
    get_column_at df1 pos = Ret values ∧
    drop_column df1 col_name = Ret df.
Proof.
  intros Hpos Hlen Hwide Ht Hc Hn Hnew.
  eexists. split; [by apply insert_column_result|].
  split; [simpl; by apply lookup_inserted|]. split.
  - unfold get_column_at. simpl.
    rewrite decide_False by (rewrite length_app, length_take; simpl; lia).
    f_equal. unfold column_cells. simpl. clear -Hlen Hwide.
    revert values Hlen. induction Hwide as [|row rows Hrow _ IH]; intros [|v values] Hlen;
      try done.
    simpl. rewrite lookup_inserted by done. simpl. f_equal. apply IH. by injection Hlen.
  - unfold drop_column.
    match goal with |- context [find_column_index ?d col_name] =>
      assert (find_column_index d col_name = Ret pos) as -> end.
    { apply find_column_index_Ret. simpl. split; [by apply lookup_inserted|].
      intros j Hj Hlook. rewrite lookup_app_l in Hlook by (rewrite length_take; lia).
      apply lookup_take_Some in Hlook as [Hlook _].
      apply Hnew. by eapply list_elem_of_lookup_2. }
    rewrite outcome_bind_Ret. cbn [data_features column_types non_null_counts
                                    null_positions data_values].
    rewrite !vec_erase_Ret by (rewrite length_app, length_take; simpl; lia).
    rewrite !outcome_bind_Ret, !delete_inserted by done.
    f_equal. destruct df as [fs rows counts tys nulls]. simpl in *. f_equal.
    clear -Hlen Hwide.
    revert values Hlen. induction Hwide as [|row rows Hrow _ IH]; intros [|v values] Hlen;
      try done.
    simpl. rewrite decide_True by (rewrite length_app, length_take; simpl; lia).
    rewrite delete_inserted by done. f_equal. apply IH. by injection Hlen.
Qed.

Lemma insert_then_drop_column_witness :
  ∃ df1, insert_column table_scores 1 "grade" ["a"; "b"; ""; "c"; "d"] = Ret df1 ∧
         data_features df1 = ["id"; "grade"; "score"] ∧
         drop_column df1 "grade" = Ret table_scores.
Proof.
  destruct (insert_then_drop_column table_scores 1 "grade" ["a"; "b"; ""; "c"; "d"])
    as (df1 & H1 & _ & _ & H4).
  - simpl; lia.
  - reflexivity.
  - repeat constructor.
  - simpl; lia.
  - simpl; lia.
  - simpl; lia.
  - intros Hin. repeat (apply elem_of_cons in Hin as [Hin|Hin]; [done|]).
    by apply elem_of_nil in Hin.
  - exists df1. split; [exact H1|]. split; [|exact H4].
    vm_compute in H1. injection H1 as <-. reflexivity.
Defined.

(** * Rows *)

Lemma filter_idem {A} (P : A → Prop) `{!∀ x, Decision (P x)} (l : list A) :
  filter P (filter P l) = filter P l.
Proof.
  induction l as [|x l IH]; [done|]. rewrite filter_cons.
  destruct (decide (P x)) as [HP|HP]; [|done].
  by rewrite filter_cons, decide_True, IH by done.
Qed.

Lemma filter_rows_if_idem df condition :
  filter_rows_if (filter_rows_if df condition) condition = filter_rows_if df condition.
Proof.
  unfold filter_rows_if, update_stats_after_modification. simpl.
  by rewrite filter_idem.
Qed.

Lemma cells_of_matching_rows (rows : list (list string)) c v :
  (λ row : list string, default "" (row !! c)) <$> filter (λ row, row !! c = Some v) rows
  = replicate (length (filter (λ row, row !! c = Some v) rows)) v.
Proof.
  induction rows as [|row rows IH]; [done|].
  rewrite filter_cons. case_decide as Hrow; [|done].
  by rewrite fmap_cons, Hrow, IH.
Qed.

(** X9 (filter_rows).  Filtering on a column value keeps, in their
    order, exactly the rows that hold that value at the column (a row
    that ends before the column is dropped) under the same names and
    types and with refreshed statistics; the column of the result reads
    as that value throughout, and filtering the result again changes
    nothing.  The call throws only when no column bears the name. *)
Theorem filter_rows_selects_matching_rows df col_name value :
  match filter_rows df col_name value with
  | Ret result =>
      ∃ col_idx,
        find_column_index df col_name = Ret col_idx ∧
        data_features result = data_features df ∧
        column_types result = column_types df ∧
        data_values result =
          filter (λ row, row !! col_idx = Some value) (data_values df) ∧
        get_column result col_name =
          Ret (replicate (length (data_values result)) value) ∧
        fresh result ∧
        filter_rows result col_name value = Ret result
  | Throw w => col_name ∉ data_features df
  | Undef => False
  end.
Proof.
  unfold filter_rows.
  destruct (find_column_index df col_name) as [col_idx|w|] eqn:E; simpl.
  - exists col_idx. split; [done|]. split; [done|]. split; [done|].
    assert (Hrows : filter (λ row, bool_decide (row !! col_idx = Some value)) (data_values df)
                    = filter (λ row, row !! col_idx = Some value) (data_values df)).
    { apply list_filter_iff. intros row. apply bool_decide_spec. }
    split; [exact Hrows|]. split; [|split; [apply update_stats_idem|]].
    + unfold get_column.
      rewrite (find_column_index_features _ df) by done. rewrite E. simpl.
      unfold get_column_at. simpl.
      rewrite decide_False by (apply find_column_index_lt in E; lia).
      f_equal. unfold column_cells. simpl. rewrite Hrows.
      apply cells_of_matching_rows.
    + rewrite (find_column_index_features _ df) by done. rewrite E. simpl.
      by rewrite filter_rows_if_idem.
  - by apply find_column_index_Throw in E as [Hout _].
  - by apply find_column_index_defined in E.
Qed.

(** ** drop_row and drop_rows *)

Lemma insert_descending_perm x v : insert_descending x v ≡ₚ x :: v.
Proof.
  induction v as [|y v IH]; [done|]. simpl. case_decide; [done|].
  rewrite IH. apply Permutation_swap.
Qed.

Lemma sort_descending_perm v : sort_descending v ≡ₚ v.
Proof.
  induction v as [|x v IH]; [done|]. unfold sort_descending in *. simpl.
  by rewrite insert_descending_perm, IH.
Qed.

Lemma insert_descending_sorted x v :
  descending v → descending (insert_descending x v).
Proof.
  induction v as [|y v IH]; intros Hv; [done|]. simpl in *.
  destruct Hv as [Hy Hv]. case_decide as Hxy.
  - simpl. split; [|done]. constructor; [done|].
    eapply Forall_impl; [exact Hy|]. simpl. lia.
  - simpl. split; [|by apply IH].
    rewrite insert_descending_perm. constructor; [lia|done].
Qed.

Lemma sort_descending_sorted v : descending (sort_descending v).
Proof.
  induction v as [|x v IH]; [done|]. by apply insert_descending_sorted.
Qed.

Lemma rows_except_above (l : list nat) (rows : list (list string)) : ∀ k,
  Forall (λ y, y < k) l →
  (filter (λ ir : nat * list string, ir.1 ∉ l) (zip (seq k (length rows)) rows)).*2 = rows.
Proof.
  induction rows as [|row rows IH]; intros k Hl; [done|].
  cbn [length seq zip zip_with]. rewrite filter_cons. cbn [fst].
  rewrite decide_True.
  - rewrite fmap_cons. cbn [snd]. f_equal. apply IH.
    eapply Forall_impl; [exact Hl|]. simpl. lia.
  - intros Hin. rewrite Forall_forall in Hl. apply Hl in Hin. lia.
Qed.

Lemma filter_ext_elem {A} (P Q : A → Prop) `{!∀ x, Decision (P x)}
    `{!∀ x, Decision (Q x)} (l : list A) :
  (∀ x, x ∈ l → P x ↔ Q x) → filter P l = filter Q l.
Proof.
  induction l as [|x l IH]; intros Hext; [done|]. rewrite !filter_cons.
  rewrite IH by (intros y Hy; apply Hext; by right).
  destruct (decide (P x)) as [HP|HP], (decide (Q x)) as [HQ|HQ]; try done.
  - destruct HQ. apply Hext; [by left|done].
  - destruct HP. apply Hext; [by left|done].
Qed.

Lemma rows_except_delete i l (rows : list (list string)) :
  i < length rows → Forall (λ y, y < i) l →
  rows_except l (delete i rows) = rows_except (i :: l) rows.
Proof.
  intros Hi Hl.
  destruct (lookup_lt_is_Some_2 rows i Hi) as [x Hx].
  rewrite <- (take_drop_middle rows i x Hx).
  assert (Hlen : length (take i rows) = i) by (rewrite length_take; lia).
  rewrite <- Hlen at 1. rewrite delete_middle.
  unfold rows_except, indexed.
  rewrite !length_app. cbn [length].
  rewrite !seq_app, !zip_with_app by (by rewrite length_seq).
  rewrite !filter_app, !fmap_app. rewrite Hlen. cbn [seq zip_with].
  rewrite filter_cons. cbn [fst]. rewrite decide_False by (intros Hout; apply Hout; by left).
  rewrite Nat.add_0_l.
  f_equal.
  - f_equal. apply filter_ext_elem. intros [j r] Hjr. simpl.
    apply elem_of_zip_l, elem_of_seq in Hjr. split.
    + intros Hj Hin. apply elem_of_cons in Hin as [->|Hin]; [lia|done].
    + intros Hj Hin. apply Hj. by right.
  - rewrite (rows_except_above l (drop (S i) rows) i) by done.
    rewrite (rows_except_above (i :: l) (drop (S i) rows) (S i)); [done|].
    constructor; [lia|]. eapply Forall_impl; [exact Hl|]. simpl. lia.
Qed.

Lemma drop_row_Ret df i :
  i < length (data_values df) →
  drop_row df i =
  Ret (update_stats_after_modification
         (mk_vegaDataframe (data_features df) (delete i (data_values df))
                           (non_null_counts df) (column_types df) (null_positions df))).
Proof. intros Hi. unfold drop_row. by rewrite decide_False by lia. Qed.

Lemma drop_rows_loop : ∀ l df,
  descending l → NoDup l →
  Forall (λ i, i < length (data_values df)) l →
  ∃ df',
    for_each drop_row df l = Ret df' ∧
    data_features df' = data_features df ∧
    column_types df' = column_types df ∧
    data_values df' = rows_except l (data_values df) ∧
    length (data_values df') + length l = length (data_values df) ∧
    (l ≠ [] → fresh df').
Proof.
  induction l as [|i l IH]; intros df Hsorted Hnodup Hrange.
  - exists df. split; [done|]. split; [done|]. split; [done|]. split; [|split; [simpl; lia|done]].
    symmetry. apply (rows_except_above [] (data_values df) 0). constructor.
  - destruct Hsorted as [Hle Hsorted].
    apply NoDup_cons in Hnodup as [Hi Hnodup].
    apply Forall_cons in Hrange as [Hirange Hrange].
    assert (Hlt : Forall (λ y, y < i) l).
    { rewrite Forall_forall in Hle |- *. intros y Hy.
      specialize (Hle y Hy). assert (y ≠ i) by (by intros ->). lia. }
    cbn [for_each]. rewrite drop_row_Ret, outcome_bind_Ret by done.
    set (df1 := update_stats_after_modification _).
    destruct (IH df1 Hsorted Hnodup) as (df' & H1 & H2 & H3 & H4 & H5 & H6).
    { unfold df1. simpl. rewrite length_delete by (by apply lookup_lt_is_Some_2).
      eapply Forall_impl; [exact Hlt|]. simpl. lia. }
    exists df'. split; [done|]. split; [done|]. split; [done|].
    split; [|split].
    + rewrite H4. unfold df1. simpl. by apply rows_except_delete.
    + unfold df1 in H5. simpl in H5 |- *.
      rewrite length_delete in H5 by (by apply lookup_lt_is_Some_2). lia.
    + intros _. destruct l as [|j l]; [|by apply H6].
      simpl in H1. injection H1 as <-. apply update_stats_idem.
Qed.

(** X10 (drop_row, drop_rows).  Given distinct row positions that are
    all in range, [drop_rows] removes exactly the rows at these
    positions and keeps the others in their order, whatever the order
    in which the positions are listed; names and types stay.  When a
    position is out of range the call throws ["Row index out of
    range"]. *)
Theorem drop_rows_removes_listed_rows df row_indices :
  NoDup row_indices →
  (Forall (λ i, i < length (data_values df)) row_indices →
   ∃ df',
     drop_rows df row_indices = Ret df' ∧
     data_features df' = data_features df ∧
     column_types df' = column_types df ∧
     data_values df' = rows_except row_indices (data_values df) ∧
     length (data_values df') + length row_indices = length (data_values df)) ∧
  (¬ Forall (λ i, i < length (data_values df)) row_indices →
   drop_rows df row_indices = Throw "Row index out of range").
Proof.
  intros Hnodup. unfold drop_rows.
  pose proof (sort_descending_perm row_indices) as Hperm.
  pose proof (sort_descending_sorted row_indices) as Hsorted.
  split.
  - intros Hrange.
    destruct (drop_rows_loop (sort_descending row_indices) df Hsorted)
      as (df' & H1 & H2 & H3 & H4 & H5 & _).
    { by rewrite Hperm. }
    { by rewrite Hperm. }
    exists df'. split; [done|]. split; [done|]. split; [done|]. split.
    + rewrite H4. unfold rows_except. f_equal. apply filter_ext_elem.
      intros ir _. by rewrite Hperm.
    + by rewrite <- Hperm.
  - intros Hout. apply not_Forall_Exists in Hout; [|apply _].
    apply Exists_exists in Hout as (y & Hy & Hbig). simpl in Hbig.
    rewrite <- Hperm in Hy.
    destruct (sort_descending row_indices) as [|m rest]; [by apply elem_of_nil in Hy|].
    destruct Hsorted as [Hle _]. cbn [for_each].
    assert (Hm : length (data_values df) ≤ m).
    { apply elem_of_cons in Hy as [->|Hy]; [lia|].
      rewrite Forall_forall in Hle. specialize (Hle y Hy). lia. }
    unfold drop_row. by rewrite decide_True.
Qed.

Lemma drop_rows_removes_listed_rows_witness :
  ∃ df', drop_rows table_scores [0; 2] = Ret df' ∧
         data_values df' = [["2"; ""]; ["4"; "abc"]; ["5"; "2"]] ∧
         drop_rows table_scores [0; 5] = Throw "Row index out of range".
Proof.
  assert (Hnodup : ∀ a b : nat, a ≠ b → NoDup [a; b]).
  { intros a b Hab. apply NoDup_cons. split.
    - intros Hin. apply elem_of_cons in Hin as [->|Hin]; [done|].
      by apply elem_of_nil in Hin.
    - apply NoDup_singleton. }
  destruct (drop_rows_removes_listed_rows table_scores [0; 2] (Hnodup 0 2 ltac:(lia)))
    as [Hok _].
  destruct Hok as (df' & H1 & _ & _ & H4 & _).
  { repeat constructor; simpl; lia. }
  destruct (drop_rows_removes_listed_rows table_scores [0; 5] (Hnodup 0 5 ltac:(lia)))
    as [_ Hthrow].
  exists df'. split; [exact H1|]. split; [exact H4|]. apply Hthrow.
  intros Hall. apply Forall_cons in Hall as [_ Hall].
  apply Forall_cons in Hall as [Hall _]. simpl in Hall. lia.
Defined.

(** ** dropna *)

Lemma existsb_is_empty row :
  existsb is_empty row = true ↔ Exists (λ cell, cell = "") row.
Proof.
  induction row as [|cell row IH]; simpl.
  - split; [done|]. intros H. by apply Exists_nil in H.
  - rewrite Exists_cons, <- IH. destruct cell; simpl; [tauto|].
    split; [tauto|]. by intros [?|?].
Qed.

Lemma forallb_is_empty row :
  forallb is_empty row = true ↔ Forall (λ cell, cell = "") row.
Proof.
  induction row as [|cell row IH]; simpl.
  - split; [constructor|done].
  - rewrite Forall_cons, <- IH. destruct cell; simpl; [tauto|].
    split; [done|]. by intros [? ?].
Qed.

Lemma filter_none {A} (P : A → Prop) `{!∀ x, Decision (P x)} (l : list A) :
  Forall (λ x, ¬ P x) l → filter P l = [].
Proof.
  induction 1 as [|x l Hx _ IH]; [done|]. by rewrite filter_cons, decide_False.
Qed.

Lemma null_rows_none rows c :
  Forall (Forall (λ cell, cell ≠ "")) rows → null_rows rows c = [].
Proof.
  intros Hrows. unfold null_rows. rewrite filter_none; [done|].
  apply Forall_forall. intros [i row] Hin. apply elem_of_zip_r in Hin.
  rewrite Forall_forall in Hrows. specialize (Hrows row Hin). simpl.
  intros Hnull. unfold null_at in Hnull.
  destruct (row !! c) as [cell|] eqn:Hcell; [|done].
  rewrite Forall_forall in Hrows.
  assert (cell ≠ "") by (apply Hrows; by eapply list_elem_of_lookup_2).
  by destruct cell.
Qed.

Lemma count_nulls_zero df :
  Forall (λ ps, ps = []) (null_positions df) → count_nulls df = 0.
Proof.
  unfold count_nulls. induction 1 as [|ps l -> _ IH]; [done|]. simpl. apply IH.
Qed.

Lemma dropna_any_rows df :
  data_values (dropna df "any") = filter (Forall (λ cell, cell ≠ "")) (data_values df).
Proof.
  unfold dropna. simpl. apply list_filter_iff. intros row.
  destruct (existsb is_empty row) eqn:E; simpl.
  - apply existsb_is_empty in E. split; [done|]. intros Hall.
    apply Exists_exists in E as (cell & Hin & ->).
    rewrite Forall_forall in Hall. by destruct (Hall "" Hin).
  - split; [|done]. intros _. apply Forall_forall. intros cell Hin ->.
    assert (existsb is_empty row = true); [|congruence].
    apply existsb_is_empty. apply Exists_exists. by exists "".
Qed.

Lemma dropna_all_rows df :
  data_values (dropna df "all") = filter (Exists (λ cell, cell ≠ "")) (data_values df).
Proof.
  unfold dropna. simpl. apply list_filter_iff. intros row.
  destruct (forallb is_empty row) eqn:E; simpl.
  - apply forallb_is_empty in E. split; [done|]. intros Hex.
    apply Exists_exists in Hex as (cell & Hin & Hcell).
    rewrite Forall_forall in E. by destruct Hcell; apply E.
  - split; [|done]. intros _. apply not_Forall_Exists; [apply _|].
    intros Hall. assert (forallb is_empty row = true); [|congruence].
    by apply forallb_is_empty.
Qed.

Lemma dropna_refresh df how :
  dropna df how =
  update_stats_after_modification
    (mk_vegaDataframe (data_features df) (data_values (dropna df how)) []
                      (column_types df) []).
Proof. done. Qed.

(** X11 (dropna).  With [how = "any"] the result holds, in order, the
    rows without an empty cell, so its null count is zero and a second
    pass changes nothing; with [how = "all"] it holds the rows with at
    least one non-empty cell (a row without cells is kept by the first
    and dropped by the second); with any other [how] it holds no row.
    Names and types stay and the statistics are refreshed. *)
Theorem dropna_keeps_or_drops_null_rows df how :
  let result := dropna df how in
  data_features result = data_features df ∧
  column_types result = column_types df ∧
  fresh result ∧
  (how = "any" →
     data_values result = filter (Forall (λ cell, cell ≠ "")) (data_values df) ∧
     count_nulls result = 0 ∧
     dropna result "any" = result) ∧
  (how = "all" →
     data_values result = filter (Exists (λ cell, cell ≠ "")) (data_values df)) ∧
  (how ≠ "any" → how ≠ "all" → data_values result = []).
Proof.
  intros result. subst result.
  split; [done|]. split; [done|]. split; [apply update_stats_idem|].
  split; [|split].
  - intros ->. split; [apply dropna_any_rows|]. split.
    + apply count_nulls_zero. rewrite dropna_refresh.
      unfold update_stats_after_modification. cbn [null_positions data_features data_values].
      rewrite stats_of_spec. cbn [snd]. apply Forall_fmap, Forall_forall.
      intros c _. cbn beta. apply null_rows_none. rewrite dropna_any_rows.
      apply Forall_forall. intros row Hrow.
      by apply list_elem_of_filter in Hrow as [Hrow _].
    + rewrite (dropna_refresh (dropna df "any")), (dropna_refresh df).
      rewrite !dropna_any_rows. cbn [data_values update_stats_after_modification].
      by rewrite filter_idem.
  - intros ->. apply dropna_all_rows.
  - intros Hany Hall. unfold dropna. simpl.
    rewrite !bool_decide_false by done. simpl.
    apply filter_none. apply Forall_forall. by intros row _ [].
Qed.

Lemma dropna_witness :
  data_values (dropna table_scores "any") = [["1"; "3"]; ["3"; "1"]; ["4"; "abc"]; ["5"; "2"]] ∧
  count_nulls (dropna table_scores "any") = 0 ∧
  length (data_values (dropna table_scores "all")) = 5 ∧
  data_values (dropna table_scores "none") = [].
Proof.
  destruct (dropna_keeps_or_drops_null_rows table_scores "any") as (_ & _ & _ & Hany & _).
  destruct (Hany eq_refl) as (H1 & H2 & _).
  destruct (dropna_keeps_or_drops_null_rows table_scores "all") as (_ & _ & _ & _ & Hall & _).
  destruct (dropna_keeps_or_drops_null_rows table_scores "none")
    as (_ & _ & _ & _ & _ & Hnone).
  split; [exact H1|]. split; [exact H2|]. split; [by rewrite (Hall eq_refl)|].
  by apply Hnone.
Defined.

(** ** sample without replacement *)

Lemma map_each_vec_at_seq {A} (v : list A) : ∀ n k,
  k + n ≤ length v →
  map_each (λ i, vec_at v i) (seq k n) = Ret (take n (drop k v)).
Proof.
  induction n as [|n IH]; intros k Hk; [done|].
  cbn [seq]. rewrite map_each_cons.
  destruct (lookup_lt_is_Some_2 v k) as [x Hx]; [lia|].
  rewrite (vec_at_Some _ _ _ Hx), outcome_bind_Ret, IH, outcome_bind_Ret by lia.
  f_equal. rewrite (drop_S _ _ _ Hx). done.
Qed.

(** X12 (sample).  [shuffled] is what [std::ranges::shuffle] leaves of
    the row positions, a rearrangement of them.  Without replacement a
    request for at least as many rows as the table holds returns the
    table itself; a smaller request returns that many rows taken at
    pairwise distinct positions, in the shuffled order, under the same
    names and types. *)
Theorem sample_without_replacement_is_distinct
    (df : vegaDataframe) (n : nat) (draws : nat → Z) (shuffled : list nat) :
  shuffled ≡ₚ seq 0 (length (data_values df)) →
  (length (data_values df) ≤ n → sample df n false draws shuffled = Ret (df, [])) ∧
  (n < length (data_values df) →
   ∃ result picked,
     sample df n false draws shuffled = Ret (result, picked) ∧
     picked = take n shuffled ∧
     NoDup picked ∧
     Forall (λ idx, idx < length (data_values df)) picked ∧
     length (data_values result) = n ∧
     Forall2 (λ idx row, data_values df !! idx = Some row) picked (data_values result) ∧
     data_features result = data_features df ∧
     column_types result = column_types df ∧
     fresh result).
Proof.
  intros Hperm. unfold sample. split.
  - intros Hn. by rewrite bool_decide_true by done.
  - intros Hn. rewrite bool_decide_false by lia. simpl.
    assert (Hlen : length shuffled = length (data_values df)).
    { by rewrite Hperm, length_seq. }
    rewrite (map_each_vec_at_seq shuffled n 0) by lia. rewrite drop_0, outcome_bind_Ret.
    assert (Hrange : Forall (λ idx, idx < length (data_values df)) (take n shuffled)).
    { apply Forall_take. rewrite Hperm. apply Forall_forall. intros i Hi.
      apply elem_of_seq in Hi. lia. }
    destruct (map_each_vec_at (data_values df) (take n shuffled) Hrange)
      as (rows & Hrows & Hall).
    rewrite Hrows, outcome_bind_Ret.
    eexists _, _. split; [reflexivity|]. split; [done|]. split.
    { assert (NoDup shuffled) as Hnd by (rewrite Hperm; apply NoDup_seq).
      apply (sublist_NoDup _ _ Hnd), sublist_take. }
    split; [done|]. split.
    { simpl. apply Forall2_length in Hall. rewrite <- Hall, length_take. lia. }
    split; [done|]. split; [done|]. split; [done|]. apply update_stats_idem.
Qed.

Lemma sample_without_replacement_witness :
  ∃ result picked,
    sample table_scores 2 false alternating_draws [3; 0; 4; 1; 2] = Ret (result, picked) ∧
    picked = [3; 0] ∧ data_values result = [["4"; "abc"]; ["1"; "3"]].
Proof.
  destruct (sample_without_replacement_is_distinct
              table_scores 2 alternating_draws [3; 0; 4; 1; 2]) as [_ H].
  - apply (Permutation_trans (l' := 0 :: [3; 4; 1; 2])).
    { symmetry. apply (Permutation_middle [3] [4; 1; 2] 0). }
    constructor. apply (Permutation_trans (l' := 1 :: [3; 4; 2])).
    { symmetry. apply (Permutation_middle [3; 4] [2] 1). }
    constructor. apply (Permutation_trans (l' := 2 :: [3; 4])).
    { symmetry. apply (Permutation_middle [3; 4] [] 2). }
    constructor. reflexivity.
  - destruct H as (result & picked & H1 & H2 & _); [simpl; lia|].
    exists result, picked. split; [exact H1|]. split; [exact H2|].
    vm_compute in H1. injection H1 as <- _. reflexivity.
Defined.

(** * Missing data *)

Lemma fill_cell_length col_idx value row :
  length (fill_cell col_idx value row) = length row.
Proof.
  unfold fill_cell. destruct (row !! col_idx) as [cell|]; [|done].
  destruct (is_empty cell); [by rewrite length_insert|done].
Qed.

Lemma fill_cell_other col_idx value row c :
  c ≠ col_idx → fill_cell col_idx value row !! c = row !! c.
Proof.
  intros Hc. unfold fill_cell. destruct (row !! col_idx) as [cell|]; [|done].
  destruct (is_empty cell); [by rewrite list_lookup_insert_ne|done].
Qed.

Lemma fill_cell_at col_idx value row :
  fill_cell col_idx value row !! col_idx =
  match row !! col_idx with
  | Some cell => Some (if is_empty cell then value else cell)
  | None => None
  end.
Proof.
  unfold fill_cell. destruct (row !! col_idx) as [cell|] eqn:Hcell; [|done].
  destruct (is_empty cell).
  - rewrite list_lookup_insert_eq; [done|]. by eapply lookup_lt_Some.
  - done.
Qed.

Lemma count_nonnull_fill col_idx value rows c :
  c ≠ col_idx →
  count_nonnull (fill_cell col_idx value <$> rows) c = count_nonnull rows c.
Proof.
  intros Hc. apply count_nonnull_related. apply Forall2_fmap_l, Forall_Forall2_diag.
  apply Forall_forall. intros row _. simpl. unfold nonnull_at.
  by rewrite fill_cell_other.
Qed.

Lemma null_rows_fill col_idx value rows c :
  c ≠ col_idx →
  null_rows (fill_cell col_idx value <$> rows) c = null_rows rows c.
Proof.
  intros Hc. apply null_rows_related. apply Forall2_fmap_l, Forall_Forall2_diag.
  apply Forall_forall. intros row _. simpl. unfold null_at.
  by rewrite fill_cell_other.
Qed.

Lemma null_rows_filled col_idx value rows :
  value ≠ "" → null_rows (fill_cell col_idx value <$> rows) col_idx = [].
Proof.
  intros Hvalue. unfold null_rows. rewrite filter_none; [done|].
  apply Forall_forall. intros [i row'] Hin. apply elem_of_zip_r in Hin.
  apply list_elem_of_fmap in Hin as (row & -> & _). simpl.
  unfold null_at. rewrite fill_cell_at.
  destruct (row !! col_idx) as [cell|]; [|by intros []].
  destruct (is_empty cell) eqn:E; [|by rewrite E; intros []].
  destruct value; [done|by intros []].
Qed.

Lemma count_nonnull_filled col_idx value rows :
  value ≠ "" →
  count_nonnull (fill_cell col_idx value <$> rows) col_idx
  = length (filter (λ row : list string, col_idx < length row) rows).
Proof.
  intros Hvalue. unfold count_nonnull.
  apply (filter_related (λ r, nonnull_at col_idx r) (λ row, col_idx < length row)).
  apply Forall2_fmap_l, Forall_Forall2_diag, Forall_forall. intros row _. simpl.
  unfold nonnull_at. rewrite fill_cell_at.
  destruct (row !! col_idx) as [cell|] eqn:Hcell.
  - apply lookup_lt_Some in Hcell.
    destruct (is_empty cell) eqn:E; [|by rewrite E].
    by destruct value.
  - apply lookup_ge_None in Hcell. split; [done|lia].
Qed.

(** X13 (fillna_value).  Filling a column with a non-empty value
    writes the value into every empty cell of the column and nothing
    else: rows keep their length, the other cells and the non-empty
    cells of the column stay, a row that ends before the column stays
    short.  Afterwards the column has no null position and its count is
    the number of rows that reach it. *)
Theorem fillna_value_fills_the_column df col_name value col_idx :
  find_column_index df col_name = Ret col_idx →
  value ≠ "" →
  ∃ result,
    fillna_value df col_name value = Ret result ∧
    data_features result = data_features df ∧
    column_types result = column_types df ∧
    data_values result = fill_cell col_idx value <$> data_values df ∧
    Forall2 (λ row row',
               length row' = length row ∧
               (∀ c, c ≠ col_idx → row' !! c = row !! c) ∧
               row' !! col_idx =
                 match row !! col_idx with
                 | Some cell => Some (if is_empty cell then value else cell)
                 | None => None
                 end)
            (data_values df) (data_values result) ∧
    null_positions result !! col_idx = Some [] ∧
    non_null_counts result !! col_idx =
      Some (length (filter (λ row, col_idx < length row) (data_values df))) ∧
    fresh result.
Proof.
  intros Hidx Hvalue. unfold fillna_value. rewrite Hidx, outcome_bind_Ret.
  eexists. split; [reflexivity|]. split; [done|]. split; [done|]. split; [done|].
  assert (Hlt := find_column_index_lt _ _ _ Hidx).
  split; [|split; [|split]].
  - simpl. apply Forall2_fmap_r, Forall_Forall2_diag, Forall_forall. intros row _.
    simpl. split; [apply fill_cell_length|]. split; [|apply fill_cell_at].
    intros c Hc. by apply fill_cell_other.
  - unfold update_stats_after_modification. simpl. rewrite stats_of_spec. simpl.
    rewrite list_lookup_fmap, lookup_seq_lt by done. simpl.
    by rewrite null_rows_filled.
  - unfold update_stats_after_modification. simpl. rewrite stats_of_spec. simpl.
    rewrite list_lookup_fmap, lookup_seq_lt by done. simpl.
    by rewrite count_nonnull_filled.
  - apply update_stats_idem.
Qed.

Lemma fillna_value_fills_the_column_witness :
  ∃ result,
    fillna_value table_scores "score" "0" = Ret result ∧
    data_values result = [["1"; "3"]; ["2"; "0"]; ["3"; "1"]; ["4"; "abc"]; ["5"; "2"]] ∧
    null_positions result !! 1 = Some [].
Proof.
  destruct (fillna_value_fills_the_column table_scores "score" "0" 1)
    as (result & H1 & _ & _ & H4 & _ & H6 & _); [reflexivity|done|].
  exists result. split; [exact H1|]. split; [exact H4|exact H6].
Defined.

(** ** ConstantImputer *)

(** X14 (ConstantImputer::impute, fillna_value).  The imputer writes
    the statistics of the column by hand instead of refreshing them.
    On a table with up-to-date statistics whose rows all reach the
    column, and for a non-empty fill value, it returns the same table
    as [fillna_value], statistics included. *)
Theorem constant_imputer_agrees_with_fillna_value df col_name value col_idx :
  find_column_index df col_name = Ret col_idx →
  fresh df →
  Forall (λ row, col_idx < length row) (data_values df) →
  value ≠ "" →
  fillna_with_imputer df col_name (mk_ConstantImputer value)
  = fillna_value df col_name value.
Proof.
  intros Hidx Hfresh Hreach Hvalue.
  unfold fillna_with_imputer, impute, ConstantImputer_impute, fillna_value.
  rewrite Hidx, !outcome_bind_Ret. simpl.
  assert (Hlt := find_column_index_lt _ _ _ Hidx).
  destruct (fresh_lengths df Hfresh) as [Lc Ln].
  rewrite !vec_modify_Ret, !outcome_bind_Ret by lia.
  f_equal. unfold update_stats_after_modification. simpl.
  rewrite stats_of_spec. simpl.
  apply fresh_stats in Hfresh as [Hc Hn].
  f_equal.
  - rewrite Hc. apply list_eq. intros c. rewrite !list_lookup_fmap.
    destruct (decide (c = col_idx)) as [->|Hne].
    + rewrite list_lookup_alter_eq, list_lookup_fmap, lookup_seq_lt by done. simpl.
      f_equal. rewrite count_nonnull_filled by done.
      rewrite (filter_ext_elem _ (λ _, True)).
      * clear. induction (data_values df) as [|r l IH]; [done|].
        rewrite filter_cons. simpl. by rewrite IH.
      * intros row Hrow. rewrite Forall_forall in Hreach. split; [done|].
        intros _. by apply Hreach.
    + rewrite list_lookup_alter_ne, list_lookup_fmap by done.
      destruct (seq 0 (length (data_features df)) !! c) as [c'|] eqn:Hseq; [|done].
      apply lookup_seq in Hseq as [-> _]. simpl. f_equal. symmetry.
      by apply count_nonnull_fill.
  - rewrite Hn. apply list_eq. intros c. rewrite !list_lookup_fmap.
    destruct (decide (c = col_idx)) as [->|Hne].
    + rewrite list_lookup_alter_eq, list_lookup_fmap, lookup_seq_lt by done. simpl.
      f_equal. by rewrite null_rows_filled.
    + rewrite list_lookup_alter_ne, list_lookup_fmap by done.
      destruct (seq 0 (length (data_features df)) !! c) as [c'|] eqn:Hseq; [|done].
      apply lookup_seq in Hseq as [-> _]. simpl. f_equal. symmetry.
      by apply null_rows_fill.
Qed.

Lemma constant_imputer_agrees_witness :
  fillna_with_imputer table_scores "score" (mk_ConstantImputer "0")
  = fillna_value table_scores "score" "0".
Proof.
  apply (constant_imputer_agrees_with_fillna_value table_scores "score" "0" 1).
  - reflexivity.
  - reflexivity.
  - repeat constructor.
  - done.
Defined.

(** ** fillna_method *)

Lemma last_valid_cell_snoc c rows row :
  last_valid_cell c (rows ++ [row]) =
  match row !! c with
  | Some cell => if is_empty cell then last_valid_cell c rows else cell
  | None => last_valid_cell c rows
  end.
Proof.
  unfold last_valid_cell. rewrite omap_app. simpl.
  destruct (row !! c) as [cell|]; simpl; [|by rewrite app_nil_r].
  rewrite filter_app, filter_cons, filter_nil.
  destruct cell as [|a cell]; simpl.
  - by rewrite app_nil_r.
  - by rewrite last_snoc.
Qed.

Lemma ffill_row_spec c rows row :
  ffill_row c (last_valid_cell c rows) row =
  (last_valid_cell c (rows ++ [row]), forward_filled c (rows ++ [row]) (length rows) row).
Proof.
  rewrite last_valid_cell_snoc. unfold ffill_row, forward_filled.
  rewrite take_app_length.
  destruct (row !! c) as [cell|] eqn:Hcell; [|done].
  destruct (is_empty cell) eqn:E; [|done].
  destruct (is_empty (last_valid_cell c rows)) eqn:E'; [|done].
  f_equal. destruct cell; [|done]. destruct (last_valid_cell c rows); [|done].
  by rewrite list_insert_id.
Qed.

Lemma ffill_fold c : ∀ rows,
  let st := ffill_state c rows in
  st.1 = last_valid_cell c rows ∧
  st.2 = imap (forward_filled c rows) rows.
Proof.
  unfold ffill_state.
  induction rows as [|row rows IH] using rev_ind; [done|].
  rewrite foldl_app. simpl. destruct IH as [IH1 IH2].
  destruct (foldl _ _ rows) as [lv acc]. simpl in *. subst lv acc.
  rewrite ffill_row_spec. simpl. split; [done|].
  rewrite imap_app. simpl. rewrite Nat.add_0_r. f_equal.
  apply imap_ext. intros i x Hx. unfold forward_filled.
  by rewrite take_app_le by (apply lookup_lt_Some in Hx; lia).
Qed.

Lemma ffill_rows_spec c rows :
  ffill_rows c rows = imap (forward_filled c rows) rows.
Proof. exact (proj2 (ffill_fold c rows)). Qed.

Lemma last_valid_cell_nonempty c rows :
  last_valid_cell c rows ≠ "" ↔
  ∃ row cell, row ∈ rows ∧ row !! c = Some cell ∧ cell ≠ "".
Proof.
  induction rows as [|row rows IH] using rev_ind.
  - split; [done|]. intros (row & cell & Hin & _). by apply elem_of_nil in Hin.
  - rewrite last_valid_cell_snoc. split.
    + intros Hne. destruct (row !! c) as [cell|] eqn:Hcell.
      * destruct (is_empty cell) eqn:E.
        -- apply IH in Hne as (r & x & Hin & Hr & Hx). exists r, x.
           split; [|done]. apply elem_of_app. by left.
        -- exists row, cell. split; [apply elem_of_app; right; by left|]. split; [done|].
           by destruct cell.
      * apply IH in Hne as (r & x & Hin & Hr & Hx). exists r, x.
        split; [|done]. apply elem_of_app. by left.
    + intros (r & x & Hin & Hr & Hx).
      apply elem_of_app in Hin as [Hin|Hin].
      * assert (last_valid_cell c rows ≠ "") as Hlast by (apply IH; by exists r, x).
        destruct (row !! c) as [cell|]; [|done].
        destruct cell; [done|]. done.
      * apply list_elem_of_singleton in Hin as ->. rewrite Hr.
        destruct x; [done|]. done.
Qed.

Lemma forward_filled_at c rows i row :
  forward_filled c rows i row !! c =
  match row !! c with
  | Some cell => Some (if is_empty cell then last_valid_cell c (take i rows) else cell)
  | None => None
  end.
Proof.
  unfold forward_filled. destruct (row !! c) as [cell|] eqn:Hcell; [|done].
  destruct (is_empty cell); [|done].
  rewrite list_lookup_insert_eq; [done|]. by eapply lookup_lt_Some.
Qed.

Lemma forward_filled_other c rows i row j :
  j ≠ c → forward_filled c rows i row !! j = row !! j.
Proof.
  intros Hj. unfold forward_filled. destruct (row !! c) as [cell|]; [|done].
  destruct (is_empty cell); [|done]. by rewrite list_lookup_insert_ne.
Qed.

Lemma forward_filled_length c rows i row :
  length (forward_filled c rows i row) = length row.
Proof.
  unfold forward_filled. destruct (row !! c) as [cell|]; [|done].
  destruct (is_empty cell); [|done]. by rewrite length_insert.
Qed.

(** X15 (fillna_method, forward).  With the method [ffill] or [pad]
    every empty cell of the column takes the last non-empty cell above
    it, and stays empty when there is none; no other cell changes and
    rows keep their length.  So in the result an empty cell of the
    column never follows a non-empty one. *)
Theorem fillna_forward_fill df col_name method col_idx :
  find_column_index df col_name = Ret col_idx →
  method = "ffill" ∨ method = "pad" →
  ∃ result,
    fillna_method df col_name method = Ret result ∧
    data_features result = data_features df ∧
    column_types result = column_types df ∧
    fresh result ∧
    length (data_values result) = length (data_values df) ∧
    (∀ i row, data_values df !! i = Some row →
       ∃ row', data_values result !! i = Some row' ∧
         length row' = length row ∧
         (∀ c, c ≠ col_idx → row' !! c = row !! c) ∧
         row' !! col_idx =
           match row !! col_idx with
           | Some cell =>
               Some (if is_empty cell
                     then last_valid_cell col_idx (take i (data_values df))
                     else cell)
           | None => None
           end) ∧
    (∀ i j row_i row_j,
       i < j →
       data_values result !! i = Some row_i → data_values result !! j = Some row_j →
       (∃ cell, row_i !! col_idx = Some cell ∧ cell ≠ "") →
       row_j !! col_idx ≠ Some "").
Proof.
  intros Hidx Hmethod. unfold fillna_method. rewrite Hidx, outcome_bind_Ret.
  assert ((bool_decide (method = "ffill") || bool_decide (method = "pad")) = true) as ->.
  { destruct Hmethod as [->| ->]; done. }
  rewrite outcome_bind_Ret. eexists. split; [reflexivity|].
  split; [done|]. split; [done|]. split; [apply update_stats_idem|].
  cbn [data_values update_stats_after_modification]. rewrite ffill_rows_spec.
  split; [by rewrite length_imap|].
  assert (Hrows : ∀ i row, data_values df !! i = Some row →
            imap (forward_filled col_idx (data_values df)) (data_values df) !! i
            = Some (forward_filled col_idx (data_values df) i row)).
  { intros i row Hrow. by rewrite list_lookup_imap, Hrow. }
  split.
  - intros i row Hrow. eexists. split; [by apply Hrows|].
    split; [apply forward_filled_length|]. split; [|apply forward_filled_at].
    intros c Hc. by apply forward_filled_other.
  - intros i j row_i row_j Hij Hi Hj (cell & Hcell & Hne) Hempty.
    rewrite list_lookup_imap in Hi, Hj.
    destruct (data_values df !! i) as [r_i|] eqn:Hri; [|done].
    destruct (data_values df !! j) as [r_j|] eqn:Hrj; [|done].
    simpl in Hi, Hj. injection Hi as <-. injection Hj as <-.
    rewrite forward_filled_at in Hcell, Hempty.
    destruct (r_j !! col_idx) as [cell_j|] eqn:Hcj; [|done].
    injection Hempty as Hempty.
    destruct (is_empty cell_j) eqn:Ej; [|by subst cell_j].
    revert Hempty. apply last_valid_cell_nonempty.
    assert (Hin : r_i ∈ take j (data_values df)).
    { apply list_elem_of_lookup. exists i. by rewrite lookup_take_lt. }
    destruct (r_i !! col_idx) as [cell_i|] eqn:Hci; [|done].
    injection Hcell as Hcell.
    destruct (is_empty cell_i) eqn:Ei.
    + rewrite <- Hcell in Hne. apply last_valid_cell_nonempty in Hne
        as (r & x & Hr & Hx & Hxne).
      exists r, x. split; [|done].
      apply list_elem_of_lookup in Hr as [k Hk]. apply lookup_take_Some in Hk as [Hk Hki].
      apply list_elem_of_lookup. exists k. rewrite lookup_take_lt by lia. done.
    + exists r_i, cell_i. split; [done|]. split; [done|]. by subst.
Qed.

Lemma fillna_forward_fill_witness :
  ∃ result,
    fillna_method table_scores "score" "ffill" = Ret result ∧
    data_values result = [["1"; "3"]; ["2"; "3"]; ["3"; "1"]; ["4"; "abc"]; ["5"; "2"]].
Proof.
  destruct (fillna_forward_fill table_scores "score" "ffill" 1)
    as (result & H1 & _); [reflexivity|by left|].
  exists result. split; [exact H1|].
  vm_compute in H1. injection H1 as <-. reflexivity.
Defined.

(** ** The backward fill *)

Lemma ffill_state_snoc c l x :
  ffill_state c (l ++ [x]) =
  ((ffill_row c (ffill_state c l).1 x).1,
   (ffill_state c l).2 ++ [(ffill_row c (ffill_state c l).1 x).2]).
Proof. unfold ffill_state. by rewrite foldl_app. Qed.

Lemma bfill_step_spec c k x (pre post : list (list string)) (next_valid : string) :
  length pre = k →
  bfill_step c (next_valid, pre ++ x :: post) k =
  Ret ((ffill_row c next_valid x).1, pre ++ (ffill_row c next_valid x).2 :: post).
Proof.
  intros Hk. unfold bfill_step. cbn [fst snd].
  rewrite (vec_at_Some _ _ x) by (by rewrite lookup_app_r, Hk, Nat.sub_diag by lia).
  rewrite outcome_bind_Ret. unfold ffill_row.
  destruct (x !! c) as [cell|]; [|done].
  destruct (is_empty cell); [|done].
  destruct (is_empty next_valid); [done|].
  simpl. f_equal. f_equal. rewrite insert_app_r_alt by lia.
  by rewrite Hk, Nat.sub_diag.
Qed.

Lemma bfill_loop c rows : ∀ k,
  k ≤ length rows →
  for_each (bfill_step c)
           ((ffill_state c (reverse (drop k rows))).1,
            take k rows ++ reverse (ffill_state c (reverse (drop k rows))).2)
           (reverse (seq 0 k))
  = Ret ((ffill_state c (reverse rows)).1, reverse (ffill_state c (reverse rows)).2).
Proof.
  induction k as [|k IH]; intros Hk.
  - simpl. by rewrite drop_0.
  - rewrite seq_S, reverse_app. simpl.
    destruct (lookup_lt_is_Some_2 rows k) as [x Hx]; [lia|].
    rewrite (take_S_r _ _ _ Hx), <- app_assoc. simpl.
    rewrite bfill_step_spec by (rewrite length_take; lia).
    rewrite outcome_bind_Ret.
    rewrite <- IH by lia. f_equal.
    rewrite (drop_S _ _ _ Hx), reverse_cons, ffill_state_snoc. simpl.
    by rewrite reverse_app.
Qed.

Lemma bfill_rows_spec c rows :
  (Z.of_nat (length rows) < 2 ^ 31)%Z →
  bfill_rows c rows = Ret (reverse (ffill_rows c (reverse rows))).
Proof.
  intros Hsize. unfold bfill_rows.
  assert (Hint : int_of_size (Z.of_nat (length rows)) = Z.of_nat (length rows)).
  { unfold int_of_size. rewrite Z.mod_small by lia. by rewrite decide_True by lia. }
  rewrite Hint, Nat2Z.id. rewrite decide_False by lia.
  pose proof (bfill_loop c rows (length rows) (Nat.le_refl _)) as Hloop.
  rewrite drop_all, firstn_all, app_nil_r in Hloop. simpl in Hloop.
  rewrite Hloop. done.
Qed.

(** X16 (fillna_method, backward; sort_index).  On a table of fewer
    than 2^31 rows (the loop counter is an [int]) the methods [bfill]
    and [backfill] return what a forward fill returns on the table in
    reverse row order, put back in order; both fail alike when no
    column bears the name. *)
Theorem fillna_backward_is_forward_on_reversed_rows df col_name method :
  (Z.of_nat (length (data_values df)) < 2 ^ 31)%Z →
  method = "bfill" ∨ method = "backfill" →
  fillna_method df col_name method =
  (filled ← fillna_method (sort_index df false) col_name "ffill";
   Ret (sort_index filled false)).
Proof.
  intros Hsize Hmethod. unfold fillna_method.
  rewrite (find_column_index_features (sort_index df false) df) by done.
  destruct (find_column_index df col_name) as [col_idx|w|]; [|done..].
  rewrite !outcome_bind_Ret.
  assert ((bool_decide (method = "ffill") || bool_decide (method = "pad")) = false) as ->.
  { destruct Hmethod as [->| ->]; done. }
  assert ((bool_decide (method = "bfill") || bool_decide (method = "backfill")) = true) as ->.
  { destruct Hmethod as [->| ->]; done. }
  rewrite bfill_rows_spec by done.
  cbn [bool_decide orb]. rewrite !outcome_bind_Ret. done.
Qed.

Lemma fillna_backward_witness :
  fillna_method table_scores "score" "bfill" =
  (filled ← fillna_method (sort_index table_scores false) "score" "ffill";
   Ret (sort_index filled false)).
Proof.
  apply fillna_backward_is_forward_on_reversed_rows; [vm_compute; reflexivity|by left].
Defined.

(** * Combining and reshaping *)

Lemma concat_rows_Ret result df :
  data_features df = data_features result →
  concat_rows result df =
  Ret (mk_vegaDataframe (data_features result) (data_values result ++ data_values df)
                        (non_null_counts result) (column_types result)
                        (null_positions result)).
Proof. intros Heq. unfold concat_rows. by rewrite decide_False by (by intros []). Qed.

Lemma concat_rows_Throw result df :
  data_features df ≠ data_features result →
  concat_rows result df = Throw "Column names don't match for vertical concatenation".
Proof. intros Hne. unfold concat_rows. by rewrite decide_True. Qed.

Lemma concat_rows_loop : ∀ others result,
  Forall (λ df, data_features df = data_features result) others →
  for_each concat_rows result others =
  Ret (mk_vegaDataframe (data_features result)
                        (data_values result ++ (others ≫= data_values))
                        (non_null_counts result) (column_types result)
                        (null_positions result)).
Proof.
  induction others as [|df others IH]; intros result Hall.
  - simpl. rewrite app_nil_r. by destruct result.
  - apply Forall_cons in Hall as [Hdf Hall]. cbn [for_each].
    rewrite concat_rows_Ret, outcome_bind_Ret, IH by done. simpl.
    by rewrite <- app_assoc.
Qed.

Lemma concat_rows_mismatch : ∀ others result,
  ¬ Forall (λ df, data_features df = data_features result) others →
  for_each concat_rows result others =
  Throw "Column names don't match for vertical concatenation".
Proof.
  induction others as [|df others IH]; intros result Hnot.
  - destruct Hnot. constructor.
  - cbn [for_each].
    destruct (decide (data_features df = data_features result)) as [Heq|Hne].
    + rewrite concat_rows_Ret, outcome_bind_Ret by done. apply IH. simpl.
      intros Hall. apply Hnot. by constructor.
    + by rewrite concat_rows_Throw.
Qed.

(** X17 (concat, axis 0).  Vertical concatenation succeeds exactly
    when every table has the column names of the first, in the same
    order; the result then holds the rows of all tables, table after
    table, under the names and types of the first (the types of the
    others are not compared), with refreshed statistics.  Otherwise it
    throws.  The flag [ignore_index] has no effect. *)
Theorem concat_axis_0_appends_rows first others ignore_index :
  (Forall (λ df, data_features df = data_features first) others →
   ∃ result,
     concat (first :: others) 0 ignore_index = Ret result ∧
     data_features result = data_features first ∧
     column_types result = column_types first ∧
     data_values result = (first :: others) ≫= data_values ∧
     fresh result) ∧
  (¬ Forall (λ df, data_features df = data_features first) others →
   concat (first :: others) 0 ignore_index =
   Throw "Column names don't match for vertical concatenation").
Proof.
  unfold concat. rewrite decide_True by done. split.
  - intros Hall. rewrite concat_rows_loop, outcome_bind_Ret by done.
    eexists. split; [reflexivity|]. split; [done|]. split; [done|]. split; [done|].
    apply update_stats_idem.
  - intros Hnot. by rewrite concat_rows_mismatch.
Qed.

Lemma concat_axis_0_witness :
  (∃ result, concat [table_A; table_A] 0 false = Ret result ∧
             data_values result = [["k"; "1"]; ["k"; "2"]; ["k"; "1"]; ["k"; "2"]]) ∧
  concat [table_A; table_B] 0 false =
  Throw "Column names don't match for vertical concatenation".
Proof.
  destruct (concat_axis_0_appends_rows table_A [table_A] false) as [Hok _].
  destruct (concat_axis_0_appends_rows table_A [table_B] false) as [_ Hthrow].
  split.
  - destruct Hok as (result & H1 & _ & _ & H4 & _); [by repeat constructor|].
    exists result. split; [exact H1|exact H4].
  - apply Hthrow. intros Hall. apply Forall_cons in Hall as [Hsame _]. done.
Defined.

Lemma zip_rows_loop (other_rows : list (list string)) : ∀ (rows : list (list string)) k,
  k + length rows ≤ length other_rows →
  map_each (λ ir : nat * list string,
              other_row ← vec_at other_rows ir.1; Ret (ir.2 ++ other_row))
           (zip (seq k (length rows)) rows)
  = Ret (zip_with app rows (drop k other_rows)).
Proof.
  induction rows as [|row rows IH]; intros k Hk; [done|].
  cbn [length seq zip zip_with]. rewrite map_each_cons. cbn [fst snd].
  destruct (lookup_lt_is_Some_2 other_rows k) as [x Hx]; [simpl in Hk; lia|].
  rewrite (vec_at_Some _ _ _ Hx), !outcome_bind_Ret.
  rewrite IH by (simpl in Hk; lia). rewrite outcome_bind_Ret.
  by rewrite (drop_S _ _ _ Hx).
Qed.

Lemma concat_columns_Ret result df :
  length (data_values df) = length (data_values result) →
  concat_columns result df =
  Ret (mk_vegaDataframe (data_features result ++ data_features df)
                        (zip_with app (data_values result) (data_values df))
                        (non_null_counts result)
                        (column_types result ++ column_types df)
                        (null_positions result)).
Proof.
  intros Hlen. unfold concat_columns. rewrite decide_False by lia.
  unfold indexed. rewrite zip_rows_loop by lia. by rewrite drop_0.
Qed.

Lemma concat_columns_Throw result df :
  length (data_values df) ≠ length (data_values result) →
  concat_columns result df = Throw "Row counts don't match for horizontal concatenation".
Proof. intros Hne. unfold concat_columns. by rewrite decide_True. Qed.

Lemma concat_columns_loop : ∀ others result,
  Forall (λ df, length (data_values df) = length (data_values result)) others →
  ∃ result',
    for_each concat_columns result others = Ret result' ∧
    data_features result' = data_features result ++ (others ≫= data_features) ∧
    column_types result' = column_types result ++ (others ≫= column_types) ∧
    length (data_values result') = length (data_values result) ∧
    ∀ i, i < length (data_values result) →
         data_values result' !! i =
         Some (default [] (data_values result !! i) ++ rows_side_by_side others i).
Proof.
  induction others as [|df others IH]; intros result Hall.
  - exists result. split; [done|]. rewrite !app_nil_r. split; [done|]. split; [done|].
    split; [done|]. intros i Hi.
    destruct (lookup_lt_is_Some_2 _ _ Hi) as [row Hrow]. rewrite Hrow. simpl.
    by rewrite app_nil_r.
  - apply Forall_cons in Hall as [Hdf Hall]. cbn [for_each].
    rewrite concat_columns_Ret, outcome_bind_Ret by done.
    set (result1 := mk_vegaDataframe _ _ _ _ _).
    assert (Hlen1 : length (data_values result1) = length (data_values result)).
    { unfold result1. simpl. rewrite length_zip_with. lia. }
    destruct (IH result1) as (result' & H1 & H2 & H3 & H4 & H5).
    { eapply Forall_impl; [exact Hall|]. intros d Hd. cbn beta in *. congruence. }
    exists result'. split; [done|].
    split; [rewrite H2; unfold result1; simpl; by rewrite <- app_assoc|].
    split; [rewrite H3; unfold result1; simpl; by rewrite <- app_assoc|].
    split; [by rewrite H4|].
    intros i Hi. rewrite H5 by (by rewrite Hlen1). f_equal.
    unfold result1. simpl.
    destruct (lookup_lt_is_Some_2 (data_values result) i Hi) as [row Hrow].
    destruct (lookup_lt_is_Some_2 (data_values df) i) as [row' Hrow']; [lia|].
    rewrite lookup_zip_with, Hrow, Hrow'.
    unfold rows_side_by_side. cbn [mbind list_bind default option_bind mret].
    unfold id. by rewrite <- app_assoc.
Qed.

Lemma concat_columns_mismatch : ∀ others result,
  ¬ Forall (λ df, length (data_values df) = length (data_values result)) others →
  for_each concat_columns result others =
  Throw "Row counts don't match for horizontal concatenation".
Proof.
  induction others as [|df others IH]; intros result Hnot.
  - destruct Hnot. constructor.
  - cbn [for_each].
    destruct (decide (length (data_values df) = length (data_values result))) as [Heq|Hne].
    + rewrite concat_columns_Ret, outcome_bind_Ret by done. apply IH. simpl.
      rewrite length_zip_with, Heq, Nat.min_id.
      intros Hall. apply Hnot. by constructor.
    + by rewrite concat_columns_Throw.
Qed.

(** X18 (concat, axis 1).  Horizontal concatenation succeeds exactly
    when every table has as many rows as the first; names and types are
    then those of all tables in sequence, and row [i] of the result is
    made of the rows [i] of the tables side by side.  Otherwise it
    throws. *)
Theorem concat_axis_1_appends_columns first others ignore_index :
  (Forall (λ df, length (data_values df) = length (data_values first)) others →
   ∃ result,
     concat (first :: others) 1 ignore_index = Ret result ∧
     data_features result = (first :: others) ≫= data_features ∧
     column_types result = (first :: others) ≫= column_types ∧
     length (data_values result) = length (data_values first) ∧
     (∀ i, i < length (data_values first) →
           data_values result !! i = Some (rows_side_by_side (first :: others) i)) ∧
     fresh result) ∧
  (¬ Forall (λ df, length (data_values df) = length (data_values first)) others →
   concat (first :: others) 1 ignore_index =
   Throw "Row counts don't match for horizontal concatenation").
Proof.
  unfold concat. rewrite decide_False by done. rewrite decide_True by done.
  split.
  - intros Hall.
    destruct (concat_columns_loop others first Hall) as (r & H1 & H2 & H3 & H4 & H5).
    rewrite H1, outcome_bind_Ret.
    eexists. split; [reflexivity|]. split; [done|]. split; [done|]. split; [done|].
    split; [|apply update_stats_idem]. done.
  - intros Hnot. by rewrite concat_columns_mismatch.
Qed.

Lemma concat_axis_1_witness :
  (∃ result, concat [table_num; table_den] 1 false = Ret result ∧
             data_features result = ["name"; "n"; "name"; "n"] ∧
             data_values result !! 1 = Some ["b"; "8"; "y"; "2"]) ∧
  concat [table_A; table_B] 1 false =
  Throw "Row counts don't match for horizontal concatenation".
Proof.
  destruct (concat_axis_1_appends_columns table_num [table_den] false) as [Hok _].
  destruct (concat_axis_1_appends_columns table_A [table_B] false) as [_ Hthrow].
  split.
  - destruct Hok as (result & H1 & H2 & _ & _ & H5 & _); [by repeat constructor|].
    exists result. split; [exact H1|]. split; [exact H2|]. apply H5. simpl. lia.
  - apply Hthrow. intros Hall. apply Forall_cons in Hall as [Hsame _]. done.
Defined.

(** ** transpose *)

Lemma transpose_values df :
  data_values (transpose df) =
  (λ col, column_cells df col) <$> seq 0 (length (data_features df)).
Proof. done. Qed.

Lemma transpose_features_length df :
  length (data_features (transpose df)) = length (data_values df).
Proof. unfold transpose. simpl. by rewrite length_fmap, length_seq. Qed.

Lemma transpose_cell df r c :
  c < length (data_features df) →
  (data_values (transpose df) !! c) ≫= (λ row, row !! r)
  = (λ row : list string, default "" (row !! c)) <$> data_values df !! r.
Proof.
  intros Hc. rewrite transpose_values, list_lookup_fmap, lookup_seq_lt by done.
  simpl. apply column_cells_lookup.
Qed.

(** X19 (transpose).  The transpose has one row per column of the
    table and one column per row, all of type STRING; its rows all have
    that many cells (a missing cell of a short row becomes an empty
    cell); the cell at ([c], [r]) is the cell that [iat] reads at
    ([r], [c]); and transposing twice gives back the cells of a table
    whose rows all have one cell per column. *)
Theorem transpose_swaps_rows_and_columns df :
  let t := transpose df in
  shape t = (length (data_features df), length (data_values df)) ∧
  rectangular t ∧
  column_types t = replicate (length (data_values df)) STRING ∧
  fresh t ∧
  (∀ r c, r < length (data_values df) → c < length (data_features df) →
          iat t c r = iat df r c) ∧
  (rectangular df → data_values (transpose t) = data_values df).
Proof.
  intros t. subst t.
  assert (Hrows : length (data_values (transpose df)) = length (data_features df)).
  { by rewrite transpose_values, length_fmap, length_seq. }
  split; [|split; [|split; [|split; [|split]]]].
  - unfold shape. by rewrite Hrows, transpose_features_length.
  - unfold rectangular. rewrite transpose_features_length, transpose_values.
    apply Forall_fmap, Forall_forall. intros c _. simpl.
    unfold column_cells. by rewrite length_fmap.
  - unfold transpose. simpl. by rewrite length_fmap, length_seq.
  - apply update_stats_idem.
  - intros r c Hr Hc. unfold iat.
    rewrite Hrows, transpose_features_length.
    rewrite !decide_False by lia.
    pose proof (transpose_cell df r c Hc) as Hcell.
    destruct (lookup_lt_is_Some_2 (data_values df) r Hr) as [row Hrow].
    destruct (lookup_lt_is_Some_2 (data_values (transpose df)) c) as [col Hcol]; [lia|].
    rewrite Hrow, Hcol in Hcell. simpl in Hcell.
    rewrite (vec_at_Some _ _ _ Hrow), (vec_at_Some _ _ _ Hcol), !outcome_bind_Ret.
    by rewrite Hcell.
  - intros Hrect. rewrite transpose_values.
    rewrite transpose_features_length.
    apply list_eq. intros r. rewrite list_lookup_fmap.
    destruct (decide (r < length (data_values df))) as [Hr|Hr].
    + rewrite lookup_seq_lt by done. simpl.
      destruct (lookup_lt_is_Some_2 (data_values df) r Hr) as [row Hrow].
      rewrite Hrow. f_equal.
      unfold rectangular in Hrect. rewrite Forall_forall in Hrect.
      assert (Hlen : length row = length (data_features df)).
      { apply Hrect. by eapply list_elem_of_lookup_2. }
      unfold column_cells. rewrite transpose_values.
      apply list_eq. intros c. rewrite !list_lookup_fmap.
      destruct (decide (c < length (data_features df))) as [Hc|Hc].
      * rewrite lookup_seq_lt by done. simpl.
        unfold column_cells. rewrite list_lookup_fmap, Hrow. simpl.
        destruct (lookup_lt_is_Some_2 row c) as [cell Hcell]; [lia|].
        by rewrite Hcell.
      * rewrite lookup_seq_ge by lia. simpl. symmetry. apply lookup_ge_None. lia.
    + rewrite lookup_seq_ge by lia. simpl. symmetry. apply lookup_ge_None. lia.
Qed.

(** ** loc and iloc *)

Lemma map_each_find_columns df : ∀ cols col_indices,
  map_each (find_column_index df) cols = Ret col_indices →
  Forall2 (λ col idx, data_features df !! idx = Some col) cols col_indices.
Proof.
  induction cols as [|col cols IH]; intros col_indices Hmap.
  - injection Hmap as <-. constructor.
  - rewrite map_each_cons in Hmap.
    destruct (find_column_index df col) as [idx| |] eqn:Hidx; [|done..].
    rewrite outcome_bind_Ret in Hmap.
    destruct (map_each (find_column_index df) cols) as [idxs| |]; [|done..].
    injection Hmap as <-. constructor; [|by apply IH].
    by apply find_column_index_Ret in Hidx as [Hidx _].
Qed.

Lemma iloc_schema df (types : list DataType) : ∀ cols col_indices,
  Forall2 (λ col idx, data_features df !! idx = Some col) cols col_indices →
  map_each (vec_at (column_types df)) col_indices = Ret types →
  map_each (λ col_idx,
              feature ← vec_at (data_features df) col_idx;
              ty ← vec_at (column_types df) col_idx;
              Ret (feature, ty)) col_indices
  = Ret (zip cols types).
Proof.
  intros cols col_indices Hall. revert types.
  induction Hall as [|col idx cols idxs Hcol _ IH]; intros types Htypes.
  - by injection Htypes as <-.
  - rewrite map_each_cons in Htypes. rewrite map_each_cons.
    rewrite (vec_at_Some _ _ _ Hcol), outcome_bind_Ret.
    destruct (vec_at (column_types df) idx) as [ty| |]; [|done..].
    rewrite outcome_bind_Ret in Htypes. rewrite outcome_bind_Ret.
    destruct (map_each (vec_at (column_types df)) idxs) as [tys| |]; [|done..].
    injection Htypes as <-. by rewrite outcome_bind_Ret, (IH tys).
Qed.

Lemma iloc_schema_fails df : ∀ cols col_indices,
  Forall2 (λ col idx, data_features df !! idx = Some col) cols col_indices →
  map_each (vec_at (column_types df)) col_indices = Undef →
  map_each (λ col_idx,
              feature ← vec_at (data_features df) col_idx;
              ty ← vec_at (column_types df) col_idx;
              Ret (feature, ty)) col_indices
  = Undef.
Proof.
  intros cols col_indices Hall.
  induction Hall as [|col idx cols idxs Hcol _ IH]; intros Htypes; [done|].
  rewrite map_each_cons in Htypes. rewrite map_each_cons.
  rewrite (vec_at_Some _ _ _ Hcol), outcome_bind_Ret.
  destruct (vec_at (column_types df) idx) as [ty| |] eqn:Hty; [|done..].
  rewrite outcome_bind_Ret in Htypes. rewrite outcome_bind_Ret.
  destruct (map_each (vec_at (column_types df)) idxs) as [tys| |]; [done|done|].
  by rewrite IH.
Qed.

Lemma map_each_vec_at_no_throw {A} (v : list A) idxs w :
  map_each (vec_at v) idxs ≠ Throw w.
Proof.
  induction idxs as [|i idxs IH]; [done|]. rewrite map_each_cons.
  destruct (vec_at v i) as [x|w'|] eqn:E; simpl.
  - destruct (map_each (vec_at v) idxs); simpl; [done|exact IH|done].
  - unfold vec_at in E. by destruct (v !! i).
  - done.
Qed.

Lemma map_each_vec_at_Ret {A} (v : list A) : ∀ idxs,
  Forall (λ i, i < length v) idxs →
  ∃ l, map_each (vec_at v) idxs = Ret l ∧ Forall2 (λ i x, v !! i = Some x) idxs l.
Proof.
  induction idxs as [|i idxs IH]; intros Hall.
  - exists []. split; [done|constructor].
  - apply Forall_cons in Hall as [Hi Hall].
    destruct (lookup_lt_is_Some_2 v i Hi) as [x Hx].
    destruct (IH Hall) as (l & Hl & Hrel).
    exists (x :: l). split; [|by constructor].
    by rewrite map_each_cons, (vec_at_Some _ _ _ Hx), outcome_bind_Ret, Hl, outcome_bind_Ret.
Qed.

Lemma select_rows_requested df col_indices : ∀ rows,
  select_rows df rows col_indices =
  (λ row, (λ col_idx, default "" (row !! col_idx)) <$> col_indices)
    <$> omap (λ row_idx, data_values df !! row_idx) rows.
Proof.
  unfold select_rows.
  induction rows as [|r rows IH]; [done|].
  cbn [mbind list_bind omap list_omap]. rewrite IH.
  by destruct (data_values df !! r).
Qed.

(** X20 (loc, iloc).  When every requested column name exists,
    selecting by names is selecting by the positions that
    [find_column_index] gives them.  When every column has a recorded
    type the selection succeeds: it bears the requested names with the
    types of their columns, and holds one row per requested row
    position that is in range, in the order of the request (a position
    past the end is skipped), made of the cells at the requested
    columns, a missing cell read as the empty text; its statistics are
    up to date. *)
Theorem loc_is_iloc_on_resolved_columns df rows cols col_indices :
  map_each (find_column_index df) cols = Ret col_indices →
  loc df rows cols = iloc df rows col_indices ∧
  (length (data_features df) ≤ length (column_types df) →
   ∃ result,
     loc df rows cols = Ret result ∧
     data_features result = cols ∧
     Forall2 (λ col_idx ty, column_types df !! col_idx = Some ty)
             col_indices (column_types result) ∧
     data_values result =
       (λ row, (λ col_idx, default "" (row !! col_idx)) <$> col_indices)
         <$> omap (λ row_idx, data_values df !! row_idx) rows ∧
     fresh result).
Proof.
  intros Hmap.
  pose proof (map_each_find_columns df cols col_indices Hmap) as Hall.
  split.
  - unfold loc, iloc. rewrite Hmap, outcome_bind_Ret.
    assert (Hkeep : filter (λ col_idx, col_idx < length (data_features df)) col_indices
                    = col_indices).
    { clear Hmap. induction Hall as [|col idx cols idxs Hcol _ IH]; [done|].
      rewrite filter_cons, decide_True by (by eapply lookup_lt_Some). by rewrite IH. }
    rewrite Hkeep.
    destruct (map_each (vec_at (column_types df)) col_indices) as [types|w|] eqn:Htypes.
    + rewrite (iloc_schema df types cols col_indices Hall Htypes), !outcome_bind_Ret.
      assert (Hlen : length cols = length types).
      { apply Forall2_length in Hall. rewrite Hall. clear -Htypes.
        revert types Htypes. induction col_indices as [|i idxs IH]; intros types Htypes.
        - by injection Htypes as <-.
        - rewrite map_each_cons in Htypes.
          destruct (vec_at (column_types df) i); [|done..].
          rewrite outcome_bind_Ret in Htypes.
          destruct (map_each (vec_at (column_types df)) idxs) as [tys| |]; [|done..].
          injection Htypes as <-. simpl. by rewrite (IH tys). }
      by rewrite fst_zip, snd_zip by lia.
    + by apply map_each_vec_at_no_throw in Htypes.
    + by rewrite (iloc_schema_fails df cols col_indices Hall Htypes).
  - intros Htypes.
    assert (Hin : Forall (λ i, i < length (column_types df)) col_indices).
    { clear Hmap. induction Hall as [|col idx cols idxs Hcol _ IH]; constructor; [|done].
      apply lookup_lt_Some in Hcol. lia. }
    destruct (map_each_vec_at_Ret (column_types df) col_indices Hin) as (types & Hty & Hrel).
    unfold loc. rewrite Hmap, outcome_bind_Ret, Hty, outcome_bind_Ret.
    eexists. split; [done|].
    split; [done|]. split; [done|]. split; [apply select_rows_requested|].
    apply update_stats_idem.
Qed.

(** Rows 4, 0 and 9 of a table of five rows, columns [score] and
    [id]: the position 9 is skipped. *)
Lemma loc_is_iloc_witness :
  length (data_values table_scores) = 5 ∧
  ∃ result,
    loc table_scores [4; 0; 9] ["score"; "id"] = Ret result ∧
    iloc table_scores [4; 0; 9] [1; 0] = Ret result ∧
    data_features result = ["score"; "id"] ∧
    data_values result = [["2"; "5"]; ["3"; "1"]].
Proof.
  split; [reflexivity|].
  destruct (loc_is_iloc_on_resolved_columns table_scores [4; 0; 9] ["score"; "id"] [1; 0]
              eq_refl) as [Hsame Hshape].
  destruct Hshape as (result & Hloc & Hnames & _ & Hrows & _); [simpl; lia|].
  exists result. split; [exact Hloc|]. split; [by rewrite <- Hsame|].
  split; [exact Hnames|exact Hrows].
Defined.

(** * Counting values *)

Lemma value_counts_step_lookup c v counts row :
  v ≠ "" →
  value_counts_step c counts row !! v =
  if decide (row !! c = Some v) then Some (S (default 0 (counts !! v)))
  else counts !! v.
Proof.
  intros Hv. unfold value_counts_step.
  destruct (row !! c) as [cell|] eqn:Hcell; [|by rewrite decide_False].
  destruct (decide (cell = v)) as [->|Hne].
  - rewrite decide_True by done. destruct v as [|a v]; [done|]. simpl.
    by rewrite lookup_insert_eq.
  - rewrite decide_False by congruence.
    destruct (is_empty cell); [done|]. by rewrite lookup_insert_ne.
Qed.

Lemma value_counts_fold c v : ∀ rows (counts : gmap string nat),
  v ≠ "" →
  foldl (value_counts_step c) counts rows !! v =
  if decide (occurrences c v rows = 0) then counts !! v
  else Some (default 0 (counts !! v) + occurrences c v rows).
Proof.
  unfold occurrences.
  induction rows as [|row rows IH]; intros counts Hv; [done|].
  cbn [foldl]. rewrite IH by done. rewrite filter_cons.
  rewrite value_counts_step_lookup by done.
  destruct (decide (row !! c = Some v)) as [Hrow|Hrow]; simpl.
  - case_decide as H0; [|f_equal; lia]. rewrite H0. f_equal. lia.
  - done.
Qed.

Lemma value_counts_fold_empty c : ∀ rows (counts : gmap string nat),
  counts !! "" = None → foldl (value_counts_step c) counts rows !! "" = None.
Proof.
  induction rows as [|row rows IH]; intros counts Hnone; [done|].
  cbn [foldl]. apply IH. unfold value_counts_step.
  destruct (row !! c) as [cell|]; [|done].
  destruct cell as [|a cell]; [done|]. simpl. by rewrite lookup_insert_ne.
Qed.

Lemma total_count_insert (counts : gmap string nat) cell :
  total_count (<[cell := S (default 0 (counts !! cell))]> counts) = S (total_count counts).
Proof.
  unfold total_count.
  assert (Hcomm : ∀ (j1 j2 : string) (z1 z2 y : nat),
            z1 + (z2 + y) = z2 + (z1 + y)) by (intros; lia).
  destruct (counts !! cell) as [n|] eqn:Hn; simpl.
  - rewrite (map_fold_delete_L _ _ cell n counts); [|intros; lia|exact Hn].
    rewrite <- insert_delete_eq.
    rewrite map_fold_insert_L; [|intros; lia|apply lookup_delete_eq]. lia.
  - rewrite map_fold_insert_L; [done|intros; lia|done].
Qed.

Lemma total_count_fold c : ∀ rows (counts : gmap string nat),
  total_count (foldl (value_counts_step c) counts rows)
  = total_count counts + count_nonnull rows c.
Proof.
  unfold count_nonnull.
  induction rows as [|row rows IH]; intros counts; [simpl; lia|].
  cbn [foldl]. rewrite IH, filter_cons. unfold value_counts_step, nonnull_at.
  destruct (row !! c) as [cell|]; [|simpl; done].
  destruct (is_empty cell); simpl; [done|].
  rewrite total_count_insert. lia.
Qed.

Lemma unique_set_fold c : ∀ rows (counts : gmap string nat) (seen : gset string),
  dom counts = seen →
  dom (foldl (value_counts_step c) counts rows) = foldl (unique_step c) seen rows.
Proof.
  induction rows as [|row rows IH]; intros counts seen Hdom; [done|].
  cbn [foldl]. apply IH. unfold value_counts_step, unique_step.
  destruct (row !! c) as [cell|]; [|done].
  destruct (is_empty cell); [done|]. by rewrite dom_insert_L, Hdom.
Qed.

(** X21 (value_counts, nunique, count).  The map returned by
    [value_counts] holds, for every non-empty text, the number of rows
    whose cell at the column is that text, and no entry for a text
    that does not occur or for the empty text.  Its size is what
    [nunique] returns, and its counts add up to what [count] returns
    once the statistics are refreshed. *)
Theorem value_counts_tallies_the_column df col_name counts :
  value_counts df col_name = Ret counts →
  ∃ col_idx,
    find_column_index df col_name = Ret col_idx ∧
    (∀ v, counts !! v =
          if decide (v = "" ∨ occurrences col_idx v (data_values df) = 0) then None
          else Some (occurrences col_idx v (data_values df))) ∧
    nunique df col_name = Ret (size counts) ∧
    count (update_stats_after_modification df) col_name = Ret (total_count counts).
Proof.
  unfold value_counts. intros Hcounts.
  destruct (find_column_index df col_name) as [col_idx| |] eqn:Hidx; [|done..].
  rewrite outcome_bind_Ret in Hcounts. injection Hcounts as <-.
  exists col_idx. split; [done|]. split; [|split].
  - intros v. destruct (decide (v = "")) as [->|Hv].
    + rewrite decide_True by (by left). by apply value_counts_fold_empty.
    + rewrite value_counts_fold by done. rewrite lookup_empty. simpl.
      destruct (decide (occurrences col_idx v (data_values df) = 0)) as [H0|H0].
      * by rewrite decide_True by (by right).
      * by rewrite decide_False by (by intros [?|?]).
  - unfold nunique, unique_set. rewrite Hidx, !outcome_bind_Ret. f_equal.
    rewrite <- (unique_set_fold col_idx (data_values df) ∅ ∅) by apply dom_empty_L.
    apply size_dom.
  - unfold count.
    rewrite (find_column_index_features _ df) by done. rewrite Hidx, outcome_bind_Ret.
    unfold update_stats_after_modification. simpl. rewrite stats_of_spec. simpl.
    apply vec_at_Some.
    rewrite list_lookup_fmap, lookup_seq_lt by (by eapply find_column_index_lt).
    simpl. f_equal. rewrite total_count_fold. unfold total_count.
    by rewrite map_fold_empty.
Qed.

Lemma value_counts_tallies_witness :
  ∃ counts,
    value_counts table_A "key" = Ret counts ∧
    counts !! "k" = Some 2 ∧ counts !! "j" = None ∧
    nunique table_A "key" = Ret (size counts) ∧
    count table_A "key" = Ret (total_count counts).
Proof.
  destruct (value_counts_tallies_the_column table_A "key"
              (foldl (value_counts_step 0) ∅ (data_values table_A)))
    as (col_idx & Hidx & Hv & Hn & Hc); [reflexivity|].
  injection Hidx as <-. eexists. split; [reflexivity|].
  split; [exact (Hv "k")|]. split; [exact (Hv "j")|]. split; [exact Hn|exact Hc].
Defined.

(** * Duplicates, joins and groups *)

Lemma scan_keep_keys cols rows : ∀ seen,
  NoDup (row_key cols <$> scan_keep cols seen rows) ∧
  (∀ row, row ∈ scan_keep cols seen rows → row_key cols row ∉ seen) ∧
  scan_keep cols seen rows `sublist_of` rows ∧
  (∀ row, row ∈ rows →
     row_key cols row ∈ seen ∨
     ∃ row', row' ∈ scan_keep cols seen rows ∧ row_key cols row' = row_key cols row).
Proof.
  induction rows as [|r rows IH]; intros seen.
  - simpl. split; [constructor|]. split; [by intros row Hin%elem_of_nil|].
    split; [constructor|]. by intros row Hin%elem_of_nil.
  - cbn [scan_keep]. destruct (decide (row_key cols r ∈ seen)) as [Hin|Hout].
    + destruct (IH seen) as (H1 & H2 & H3 & H4).
      split; [done|]. split; [done|]. split; [by apply sublist_cons|].
      intros row Hrow. apply elem_of_cons in Hrow as [->|Hrow]; [by left|by apply H4].
    + destruct (IH ({[row_key cols r]} ∪ seen)) as (H1 & H2 & H3 & H4).
      split; [|split; [|split]].
      * rewrite fmap_cons. apply NoDup_cons. split; [|done].
        intros Hin. apply list_elem_of_fmap in Hin as (row & Hkey & Hrow).
        apply (H2 row Hrow). rewrite <- Hkey.
        apply elem_of_union. left. by apply elem_of_singleton.
      * intros row Hrow. apply elem_of_cons in Hrow as [->|Hrow]; [done|].
        specialize (H2 row Hrow). intros Hseen. apply H2.
        apply elem_of_union. by right.
      * by apply sublist_skip.
      * intros row Hrow. apply elem_of_cons in Hrow as [->|Hrow].
        -- right. exists r. split; [by left|done].
        -- destruct (H4 row Hrow) as [Hseen|(row' & Hrow' & Hkey)].
           ++ apply elem_of_union in Hseen as [Hseen|Hseen]; [|by left].
              apply elem_of_singleton in Hseen. right. exists r. split; [by left|done].
           ++ right. exists row'. split; [by right|done].
Qed.

(** X22 (drop_duplicates).  Keeping first occurrences, the result is a
    selection of the rows in their order in which no two rows agree on
    the compared columns, and every row of the table agrees on these
    columns with a row of the result. *)
Theorem drop_duplicates_leaves_distinct_keys df subset cols :
  check_columns_of df subset = Ret cols →
  ∃ result,
    drop_duplicates df subset true = Ret result ∧
    data_features result = data_features df ∧
    column_types result = column_types df ∧
    NoDup (row_key cols <$> data_values result) ∧
    data_values result `sublist_of` data_values df ∧
    (∀ row, row ∈ data_values df →
       ∃ row', row' ∈ data_values result ∧ row_key cols row' = row_key cols row) ∧
    fresh result.
Proof.
  intros Hcols. rewrite (drop_duplicates_keep_first df subset cols Hcols).
  eexists. split; [reflexivity|]. split; [done|]. split; [done|].
  destruct (scan_keep_keys cols (data_values df) ∅) as (H1 & _ & H3 & H4).
  split; [done|]. split; [done|]. split; [|apply update_stats_idem].
  intros row Hrow. destruct (H4 row Hrow) as [Hin|?]; [|done].
  by apply elem_of_empty in Hin.
Qed.

Lemma drop_duplicates_leaves_distinct_keys_witness :
  ∃ result,
    drop_duplicates table_A ["key"] true = Ret result ∧
    data_values result = [["k"; "1"]] ∧
    NoDup (row_key [0] <$> data_values result).
Proof.
  destruct (drop_duplicates_leaves_distinct_keys table_A ["key"] [0])
    as (result & H1 & _ & _ & H4 & _); [reflexivity|].
  exists result. split; [exact H1|]. split; [|exact H4].
  vm_compute in H1. injection H1 as <-. reflexivity.
Defined.

(** ** Groups *)

Lemma group_push_lookup `{Countable K} df (key k : K) row (groups : gmap K vegaDataframe) :
  group_push df key row groups !! k =
  if decide (key = k) then
    let g := default (mk_vegaDataframe (data_features df) [] [] (column_types df) [])
                     (groups !! key) in
    Some (mk_vegaDataframe (data_features g) (data_values g ++ [row])
                           (non_null_counts g) (column_types g) (null_positions g))
  else groups !! k.
Proof.
  unfold group_push. case_decide as Hk.
  - subst. rewrite lookup_insert_eq. by destruct (groups !! k).
  - by rewrite lookup_insert_ne.
Qed.

Lemma group_fold `{Countable K} df (key_of : list string → option K) : ∀ rows k,
  foldl (λ groups row,
           match key_of row with
           | Some key => group_push df key row groups
           | None => groups
           end) ∅ rows !! k =
  if decide (filter (λ row, key_of row = Some k) rows = []) then None
  else Some (mk_vegaDataframe (data_features df)
                              (filter (λ row, key_of row = Some k) rows)
                              [] (column_types df) []).
Proof.
  induction rows as [|row rows IH] using rev_ind; intros k; [done|].
  rewrite foldl_app. cbn [foldl]. rewrite filter_app, filter_cons, filter_nil.
  destruct (key_of row) as [key|] eqn:Hkey.
  - rewrite group_push_lookup. destruct (decide (key = k)) as [->|Hne].
    + rewrite !(decide_True (P := Some k = Some k)) by done. rewrite IH. cbn zeta.
      rewrite (decide_False (P := _ ++ [row] = [])) by (by intros [_ ?]%app_nil).
      by destruct (decide (filter _ rows = [])) as [->|Hrows].
    + rewrite IH.
      rewrite !(decide_False (P := Some key = Some k)) by congruence.
      by rewrite app_nil_r.
  - rewrite IH. rewrite !(decide_False (P := None = Some k)) by done.
    by rewrite app_nil_r.
Qed.

(** X23 (groupby on one column, filter_rows).  The group stored under
    a key is the table that [filter_rows] returns for the column and
    that key, rows in order and statistics included, and a key has a
    group exactly when that table has a row. *)
Theorem groupby_group_is_filter_rows df col_name groups :
  groupby df col_name = Ret groups →
  ∀ key group,
    groups !! key = Some group ↔
    filter_rows df col_name key = Ret group ∧ data_values group ≠ [].
Proof.
  unfold groupby, filter_rows. intros Hgroups key group.
  destruct (find_column_index df col_name) as [col_idx| |] eqn:Hidx; [|done..].
  rewrite outcome_bind_Ret in Hgroups. rewrite outcome_bind_Ret.
  injection Hgroups as <-.
  rewrite lookup_fmap, (group_fold df (λ row, row !! col_idx)).
  assert (Hrows : filter (λ row, bool_decide (row !! col_idx = Some key)) (data_values df)
                  = filter (λ row, row !! col_idx = Some key) (data_values df)).
  { apply list_filter_iff. intros row. apply bool_decide_spec. }
  unfold filter_rows_if. rewrite Hrows.
  destruct (decide (filter _ (data_values df) = [])) as [Hnil|Hsome]; simpl.
  - split; [done|]. intros [[= <-] Hne]. by destruct Hne.
  - split.
    + intros [= <-]. done.
    + by intros [[= <-] _].
Qed.

Lemma groupby_group_is_filter_rows_witness :
  ∃ groups group,
    groupby ragged_table "b" = Ret groups ∧
    groups !! "2" = Some group ∧ groups !! "x" = None ∧
    filter_rows ragged_table "b" "2" = Ret group.
Proof.
  pose proof (groupby_group_is_filter_rows ragged_table "b" _ eq_refl) as H.
  eexists _, _. split; [reflexivity|].
  split; [apply H; split; [reflexivity|done]|].
  split; [|reflexivity].
  destruct (_ !! "x") as [g|] eqn:E; [|done].
  apply H in E as [E Hne]. vm_compute in E. injection E as <-. by destruct Hne.
Defined.

(** X24 (groupby on several columns).  The group stored under a key
    is the table that [filter_rows] returns for the condition "the
    cells of the row at the key columns, a missing cell read as empty,
    are the key"; a key has a group exactly when that table has a row,
    and the key of every row of the table has a group. *)
Theorem groupby_multi_group_is_filter df col_names col_indices groups :
  map_each (find_column_index df) col_names = Ret col_indices →
  groupby_multi df col_names = Ret groups →
  (∀ key group,
     groups !! key = Some group ↔
     group = filter_rows_if df (λ row, bool_decide (row_key col_indices row = key)) ∧
     data_values group ≠ []) ∧
  (∀ row, row ∈ data_values df → is_Some (groups !! row_key col_indices row)).
Proof.
  unfold groupby_multi. intros -> Hgroups.
  rewrite outcome_bind_Ret in Hgroups. injection Hgroups as <-.
  assert (Hlookup : ∀ key,
    (update_stats_after_modification <$>
       foldl (λ groups row, group_push df (row_key col_indices row) row groups)
             ∅ (data_values df)) !! key =
    if decide (filter (λ row, row_key col_indices row = key) (data_values df) = [])
    then None
    else Some (filter_rows_if df (λ row, bool_decide (row_key col_indices row = key)))).
  { intros key. rewrite lookup_fmap.
    pose proof (group_fold df (λ row, Some (row_key col_indices row)) (data_values df) key)
      as Hfold.
    cbv beta iota in Hfold. rewrite Hfold. clear Hfold.
    assert (Hrows : ∀ rows : list (list string),
              filter (λ row, Some (row_key col_indices row) = Some key) rows
              = filter (λ row, row_key col_indices row = key) rows).
    { intros rows. apply list_filter_iff. intros row. split; congruence. }
    rewrite Hrows.
    destruct (decide (filter _ (data_values df) = [])) as [Hnil|Hsome]; [done|].
    simpl. f_equal. unfold filter_rows_if. f_equal. f_equal.
    apply list_filter_iff. intros row. symmetry. apply bool_decide_spec. }
  split.
  - intros key group. rewrite Hlookup.
    assert (Hrows : data_values (filter_rows_if df
                      (λ row, bool_decide (row_key col_indices row = key)))
                    = filter (λ row, row_key col_indices row = key) (data_values df)).
    { unfold filter_rows_if. simpl. apply list_filter_iff. intros row.
      apply bool_decide_spec. }
    destruct (decide (filter _ (data_values df) = [])) as [Hnil|Hsome].
    + split; [done|]. intros [-> Hne]. by rewrite Hrows in Hne.
    + split.
      * intros [= <-]. split; [done|]. by rewrite Hrows.
      * by intros [-> _].
  - intros row Hrow. rewrite Hlookup. rewrite decide_False; [done|].
    intros Hnil. assert (row ∈ filter (λ r, row_key col_indices r = row_key col_indices row)
                                      (data_values df)) as Hin.
    { by apply list_elem_of_filter. }
    rewrite Hnil in Hin. by apply elem_of_nil in Hin.
Qed.

Lemma groupby_multi_group_is_filter_witness :
  ∃ groups,
    groupby_multi ragged_table ["b"] = Ret groups ∧
    (data_values <$> groups !! [""]) = Some [["x"]] ∧
    (data_values <$> groups !! ["2"]) = Some [["1"; "2"]].
Proof.
  destruct (groupby_multi_group_is_filter ragged_table ["b"] [1] _ eq_refl eq_refl)
    as [H _].
  eexists. split; [reflexivity|]. split.
  - destruct (H [""] (filter_rows_if ragged_table
                        (λ row, bool_decide (row_key [1] row = [""])))) as [_ Hback].
    rewrite Hback; [reflexivity|]. split; [reflexivity|by vm_compute].
  - destruct (H ["2"] (filter_rows_if ragged_table
                         (λ row, bool_decide (row_key [1] row = ["2"])))) as [_ Hback].
    rewrite Hback; [reflexivity|]. split; [reflexivity|by vm_compute].
Defined.

(** ** Joins *)

Lemma bind_sublist {A B} (f g : A → list B) (l : list A) :
  (∀ x, f x `sublist_of` g x) → l ≫= f `sublist_of` l ≫= g.
Proof.
  intros Hfg. induction l as [|x l IH]; [constructor|].
  cbn [mbind list_bind]. by apply sublist_app.
Qed.

Lemma bind_length_ge {A B} (g : A → list B) (l : list A) :
  (∀ x, 1 ≤ length (g x)) → length l ≤ length (l ≫= g).
Proof.
  intros Hg. induction l as [|x l IH]; [done|].
  cbn [mbind list_bind]. rewrite length_app. simpl. specialize (Hg x). lia.
Qed.

Lemma merge_matches_prefix other right_col_idx join_key left_row row :
  row ∈ merge_matches other right_col_idx join_key left_row → left_row `prefix_of` row.
Proof.
  unfold merge_matches. intros Hin.
  apply list_elem_of_bind in Hin as (right_row & Hrow & _).
  destruct (right_row !! right_col_idx) as [cell|]; [|by apply elem_of_nil in Hrow].
  case_decide; [|by apply elem_of_nil in Hrow].
  apply list_elem_of_singleton in Hrow as ->. by apply prefix_app_r.
Qed.

(** X25 (merge, left and inner).  When both key columns exist the two
    joins succeed with the same names and types.  Every row of the left
    table starts at least one row of the left join, every row of the
    left join starts with a row of the left table, and the rows of the
    inner join are among those of the left join, in the same order. *)
Theorem merge_left_keeps_every_left_row df other left_col right_col left_idx right_idx :
  find_column_index df left_col = Ret left_idx →
  find_column_index other right_col = Ret right_idx →
  ∃ inner_join left_join,
    merge df other left_col right_col "inner" = Ret inner_join ∧
    merge df other left_col right_col "left" = Ret left_join ∧
    data_features left_join = data_features inner_join ∧
    column_types left_join = column_types inner_join ∧
    data_values inner_join `sublist_of` data_values left_join ∧
    (∀ left_row, left_row ∈ data_values df →
       ∃ row, row ∈ data_values left_join ∧ left_row `prefix_of` row) ∧
    (∀ row, row ∈ data_values left_join →
       ∃ left_row, left_row ∈ data_values df ∧ left_row `prefix_of` row) ∧
    length (data_values df) ≤ length (data_values left_join).
Proof.
  intros Hl Hr. unfold merge. rewrite Hl, Hr, !outcome_bind_Ret.
  eexists _, _. split; [reflexivity|]. split; [reflexivity|].
  split; [done|]. split; [done|]. cbn [data_values update_stats_after_modification].
  rewrite decide_True by done. rewrite decide_False by done.
  rewrite decide_True by done.
  fold (merge_matches other right_idx).
  set (padded := λ left_row : list string,
         left_row ++ (seq 0 (length (data_features other))) ≫=
                       (λ i, if decide (i ≠ right_idx) then [""] else [])).
  set (g := λ left_row : list string,
         match merge_matches other right_idx (default "" (left_row !! left_idx)) left_row with
         | [] => [padded left_row]
         | merged => merged
         end).
  assert (Hg : ∀ left_row, g left_row ≠ [] ∧
                 ∀ row, row ∈ g left_row → left_row `prefix_of` row).
  { intros left_row. unfold g.
    destruct (merge_matches _ _ _ left_row) as [|m ms] eqn:Hm.
    - split; [done|]. intros row Hrow. apply list_elem_of_singleton in Hrow as ->.
      by apply prefix_app_r.
    - split; [done|]. intros row Hrow. rewrite <- Hm in Hrow.
      by eapply merge_matches_prefix. }
  match goal with |- _ `sublist_of` (_ ≫= ?G) ∧ _ => change G with g end.
  split; [|split; [|split]].
  - apply bind_sublist. intros left_row. unfold g.
    destruct (left_row !! left_idx) as [key|]; [|apply sublist_nil_l]. simpl.
    fold (merge_matches other right_idx key left_row).
    destruct (merge_matches other right_idx key left_row); [apply sublist_nil_l|done].
  - intros left_row Hin. destruct (Hg left_row) as [Hne Hpre].
    destruct (g left_row) as [|row rest] eqn:Hrow; [done|].
    exists row. split; [|apply Hpre; by left].
    apply list_elem_of_bind. exists left_row. split; [|done].
    rewrite Hrow. by left.
  - intros row Hin. apply list_elem_of_bind in Hin as (left_row & Hrow & Hin).
    exists left_row. split; [done|]. by apply (Hg left_row).
  - apply bind_length_ge. intros left_row. destruct (Hg left_row) as [Hne _].
    destruct (g left_row); [done|simpl; lia].
Qed.

Lemma merge_left_keeps_every_left_row_witness :
  ∃ inner_join left_join,
    merge table_B table_A "v2" "v1" "inner" = Ret inner_join ∧
    merge table_B table_A "v2" "v1" "left" = Ret left_join ∧
    data_values inner_join = [] ∧
    data_values left_join = [["k"; "9"; ""]].
Proof.
  destruct (merge_left_keeps_every_left_row table_B table_A "v2" "v1" 1 1)
    as (inner_join & left_join & H1 & H2 & _); [reflexivity..|].
  exists inner_join, left_join. split; [exact H1|]. split; [exact H2|].
  vm_compute in H1, H2. injection H1 as <-. injection H2 as <-. by split.
Defined.

(** * query *)

Lemma split_string_token a rest d :
  d ∉ chars a →
  split_string (String.append a (String d rest)) d = a :: split_string rest d.
Proof.
  induction a as [|c a IH]; intros Hd.
  - by rewrite string_app_nil_l, split_string_cons, bool_decide_true.
  - unfold chars in Hd. simpl in Hd. apply not_elem_of_cons in Hd as [Hc Hd].
    rewrite string_app_cons, split_string_cons, bool_decide_false by done.
    by rewrite IH.
Qed.

Lemma split_string_last v d :
  d ∉ chars v → v ≠ "" → split_string v d = [v].
Proof.
  induction v as [|c v IH]; intros Hd Hv; [done|].
  unfold chars in Hd. simpl in Hd. apply not_elem_of_cons in Hd as [Hc Hd].
  rewrite split_string_cons, bool_decide_false by done.
  destruct v as [|c' v]; [done|]. by rewrite IH.
Qed.

(** X26 (query).  For a column name and a non-empty value without
    blanks, the expression [name == value] is answered by
    [filter_rows(name, value)], errors included; with any other
    operator in the place of [==] the table is returned unchanged. *)
Theorem query_equality_is_filter_rows df col_name value :
  " "%char ∉ chars col_name → " "%char ∉ chars value → value ≠ "" →
  query df (String.append col_name (String.append " == " value))
    = filter_rows df col_name value ∧
  ∀ op, " "%char ∉ chars op → op ≠ "==" →
        query df (String.append col_name
                    (String.append " " (String.append op (String.append " " value))))
        = Ret df.
Proof.
  intros Hcol Hvalue Hne. split.
  - unfold query.
    change (String.append " == " value) with (String " " (String.append "==" (String " " value))).
    rewrite split_string_token by done.
    rewrite split_string_token
      by (intros Hin; repeat (apply elem_of_cons in Hin as [Hin|Hin]; [done|]);
          by apply elem_of_nil in Hin).
    rewrite split_string_last by done. by rewrite decide_True.
  - intros op Hop Hother. unfold query.
    rewrite string_app_cons, string_app_nil_l.
    rewrite split_string_token by done.
    rewrite string_app_cons, string_app_nil_l.
    rewrite split_string_token by done.
    rewrite split_string_last by done. by rewrite decide_False.
Qed.

Lemma query_equality_is_filter_rows_witness :
  query table_scores "score == 3" = filter_rows table_scores "score" "3" ∧
  query table_scores "score > 3" = Ret table_scores.
Proof.
  assert (Hnone : ∀ s : string, bool_decide (" "%char ∉ chars s) = true →
                                " "%char ∉ chars s).
  { intros s. apply bool_decide_eq_true_1. }
  destruct (query_equality_is_filter_rows table_scores "score" "3") as [H1 H2].
  - by apply Hnone.
  - by apply Hnone.
  - done.
  - split; [exact H1|]. apply (H2 ">"); [by apply Hnone|done].
Defined.

(** * The extremes of a column *)

Section ExtremesFacts.

Context (stod : string → option float).

(** X27 (min, max).  On a numeric column that holds a valid value, all
    valid values lying between the lowest and the greatest finite
    double (so none is a NaN or an infinity), [min] and [max] return a
    lower and an upper bound of the valid values, each equal to one of
    them, and the first is at most the second. *)
Theorem min_and_max_bound_the_column df col_name col_idx ty :
  find_column_index df col_name = Ret col_idx →
  column_types df !! col_idx = Some ty → ty ≠ STRING →
  let vs := valid_values stod df col_idx in
  vs ≠ [] →
  Forall (λ v, PrimFloat.leb DBL_LOWEST v = true ∧ PrimFloat.leb v DBL_MAX = true) vs →
  ∃ lo hi,
    min stod df col_name = Ret lo ∧
    max stod df col_name = Ret hi ∧
    Forall (λ v, PrimFloat.leb lo v = true ∧ PrimFloat.leb v hi = true) vs ∧
    (∃ v, v ∈ vs ∧ PrimFloat.eqb lo v = true) ∧
    (∃ v, v ∈ vs ∧ PrimFloat.eqb v hi = true) ∧
    PrimFloat.leb lo hi = true.
Proof.
  intros Hidx Hty Hne vs Hvs Hbound.
  pose proof (min_numeric stod df col_name col_idx ty Hidx Hty Hne) as Hmin.
  pose proof (max_numeric stod df col_name col_idx ty Hidx Hty Hne) as Hmax.
  cbv zeta in Hmin, Hmax. fold vs in Hmin, Hmax.
  rewrite decide_False in Hmin by done. rewrite decide_False in Hmax by done.
  destruct (scan_min_least vs Hvs) as [Hlo [vlo [Hvlo Heqlo]]].
  { eapply Forall_impl; [exact Hbound|]. intros v [_ Hv]. by apply leb_double_le. }
  destruct (scan_max_greatest vs Hvs) as [Hhi [vhi [Hvhi Heqhi]]].
  { eapply Forall_impl; [exact Hbound|]. intros v [Hv _]. by apply leb_double_le. }
  exists (foldl std_min DBL_MAX vs), (foldl std_max DBL_LOWEST vs).
  split; [done|]. split; [done|].
  rewrite Forall_forall in Hlo, Hhi.
  split; [|split; [|split]].
  - apply Forall_forall. intros v Hv. split; apply leb_double_le; auto.
  - exists vlo. split; [done|]. by apply eqb_double_eq.
  - exists vhi. split; [done|]. by apply eqb_double_eq.
  - apply leb_double_le. eapply double_le_trans; [apply (Hlo vlo Hvlo)|apply (Hhi vlo Hvlo)].
Qed.

End ExtremesFacts.

Lemma min_and_max_bound_the_column_witness :
  ∃ lo hi,
    min stod_fragment table_scores "score" = Ret lo ∧
    max stod_fragment table_scores "score" = Ret hi ∧
    PrimFloat.eqb lo 1%float = true ∧ PrimFloat.eqb hi 3%float = true.
Proof.
  destruct (min_and_max_bound_the_column stod_fragment table_scores "score" 1 INT)
    as (lo & hi & H1 & H2 & _).
  - reflexivity.
  - reflexivity.
  - discriminate.
  - discriminate.
  - repeat constructor.
  - exists lo, hi. split; [exact H1|]. split; [exact H2|].
    vm_compute in H1, H2. injection H1 as <-. injection H2 as <-. by split.
Defined.

(** * Null counts *)

Lemma count_nulls_fold (l : list (list nat)) : ∀ n,
  foldl (λ total positions, total + length positions) n l
  = n + sum_list (length <$> l).
Proof.
  induction l as [|ps l IH]; intros n.
  - simpl. lia.
  - rewrite fmap_cons. cbn [foldl sum_list sum_list_with]. rewrite IH. unfold id. lia.
Qed.

Lemma count_nulls_sum df : count_nulls df = sum_list (isnull df).
Proof. unfold count_nulls, isnull. by rewrite count_nulls_fold. Qed.

Lemma sum_list_pointwise (f g : nat → nat) (total : nat) (l : list nat) :
  (∀ c, c ∈ l → f c + g c = total) →
  sum_list (f <$> l) + sum_list (g <$> l) = total * length l.
Proof.
  induction l as [|c l IH]; intros Hl.
  - simpl. lia.
  - rewrite !fmap_cons. cbn [sum_list sum_list_with length].
    specialize (IH (λ c' Hc', Hl c' (list_elem_of_further _ _ _ Hc'))).
    specialize (Hl c (list_elem_of_here _ _)). unfold id in *. lia.
Qed.

Lemma null_rows_length rows c :
  length (null_rows rows c) = length (filter (λ row, null_at c row) rows).
Proof.
  unfold null_rows. rewrite length_fmap.
  rewrite <- (indexed_snd rows) at 2.
  generalize (indexed rows). intros l.
  induction l as [|[i row] l IH]; [done|].
  rewrite fmap_cons, !filter_cons. simpl.
  destruct (null_at c row); simpl; by rewrite IH.
Qed.

Lemma null_plus_nonnull rows c :
  Forall (λ row, c < length row) rows →
  length (null_rows rows c) + count_nonnull rows c = length rows.
Proof.
  rewrite null_rows_length. unfold count_nonnull.
  induction 1 as [|row rows Hrow _ IH]; [done|].
  destruct (lookup_lt_is_Some_2 _ _ Hrow) as [cell Hcell].
  assert (Hnon : nonnull_at c row = negb (null_at c row)).
  { unfold nonnull_at, null_at. by rewrite Hcell. }
  rewrite !filter_cons, Hnon.
  destruct (null_at c row); simpl; lia.
Qed.

(** X28 (isnull, notnull, count_nulls).  On a table whose rows have one
    cell per column and whose statistics are up to date, [isnull] and
    [notnull] have one entry per column; the entry of [isnull] for
    column [c] is the number of rows with an empty cell there, and with
    the entry of [notnull] it adds up to the number of rows.
    [count_nulls] is the sum of [isnull], so that nulls and non-nulls
    together account for every cell of the table. *)
Theorem null_and_non_null_counts_cover_the_table df :
  rectangular df → fresh df →
  length (isnull df) = length (data_features df) ∧
  length (notnull df) = length (data_features df) ∧
  (∀ c, c < length (data_features df) →
     ∃ nulls non_nulls,
       isnull df !! c = Some nulls ∧ notnull df !! c = Some non_nulls ∧
       nulls = length (filter (λ row, row !! c = Some "") (data_values df)) ∧
       nulls + non_nulls = length (data_values df)) ∧
  count_nulls df = sum_list (isnull df) ∧
  count_nulls df + sum_list (notnull df)
  = length (data_values df) * length (data_features df).
Proof.
  intros Hrect Hfresh.
  assert (Hfull : ∀ c, c < length (data_features df) →
            Forall (λ row : list string, c < length row) (data_values df)).
  { intros c Hc. eapply Forall_impl; [exact Hrect|]. simpl. intros row ->. done. }
  destruct (proj1 (fresh_stats df) Hfresh) as [Hcounts Hnulls].
  rewrite count_nulls_sum. unfold isnull, notnull. rewrite Hcounts, Hnulls.
  rewrite <- list_fmap_compose, !length_fmap, length_seq.
  split; [done|]. split; [done|]. split; [|split; [done|]].
  - intros c Hc. eexists _, _.
    rewrite !list_lookup_fmap, lookup_seq_lt by done. simpl.
    split; [done|]. split; [done|]. split.
    + rewrite null_rows_length. f_equal. apply list_filter_iff.
      intros row. unfold null_at. destruct (row !! c) as [cell|]; [|done].
      destruct cell; simpl; naive_solver.
    + by apply null_plus_nonnull, Hfull.
  - rewrite (sum_list_pointwise _ _ (length (data_values df))).
    + by rewrite length_seq.
    + intros c [_ Hc]%elem_of_seq. simpl. apply null_plus_nonnull, Hfull. lia.
Qed.

Lemma null_and_non_null_counts_witness :
  rectangular table_scores ∧ fresh table_scores ∧
  isnull table_scores = [0; 1] ∧ notnull table_scores = [5; 4] ∧
  count_nulls table_scores + sum_list (notnull table_scores)
  = length (data_values table_scores) * length (data_features table_scores).
Proof.
  assert (Hrect : rectangular table_scores).
  { unfold rectangular. simpl. repeat constructor. }
  split; [exact Hrect|]. split; [reflexivity|].
  split; [reflexivity|]. split; [reflexivity|].
  apply (null_and_non_null_counts_cover_the_table table_scores Hrect eq_refl).
Defined.
